(** * Autoplay continuation engine of the zylae player

    A shallow embedding of the browser-side player script (history helpers,
    anti-repeat gate, embedding recommender, suggestion queue, fallback
    cascade, [playSong], [onEnded] and the navigation handlers) together
    with the properties of the decision protocol.

    Conventions of the embedding.
    - A track id is a JavaScript string.  A value that may also be [null] or
      [undefined] is an [option string]; [truthy] is JavaScript truthiness
      (the empty string, [null] and [undefined] are falsy).
    - The module-level variables of the script are the fields of [State];
      every function takes the state and returns the new one.
    - The network, the clock and [Math.random] are a [World]: an oracle that
      is asked with the current [tick], so that two requests with the same
      arguments may be answered differently.  A request that rejects, or
      whose body does not parse, is [Throw].
    - An asynchronous function runs to its end before the next event is
      handled: one decision at a time.  The prefetch that [playSong] starts
      without awaiting it continues right after the body of [playSong].
    - The recursion of [playNextFromSuggestions] is bounded by fuel; the
      fuel that [decideNext] gives is enough in every state.
    - [trace] is a ghost field: it logs every call of [playSong] and every
      play that was recorded, newest first.
    - A JavaScript number is a [JsNumber].  The float32 products of TF.js
      and the order that the engine's sort leaves under an inconsistent
      comparison function are not computed: they are an [Engine], an oracle
      as the world is.  *)

From Stdlib Require Import String Ascii List ZArith QArith Bool Arith Lia Lqa.
From Stdlib Require Import Sorting.Sorted Sorting.Permutation DecimalString.
Import ListNotations.

Open Scope string_scope.
Open Scope list_scope.
Open Scope nat_scope.

(* ------------------------------------------------------------------ *)
(** ** JavaScript values *)

Definition truthyStr (s : string) : bool := negb (String.eqb s "").

Definition truthy (v : option string) : bool :=
  match v with
  | Some s => truthyStr s
  | None => false
  end.

(** [a || b] on nullable strings. *)
Definition jsOr (a b : option string) : option string :=
  if truthy a then a else b.

Definition lowerAscii (c : ascii) : ascii :=
  let n := nat_of_ascii c in
  if (65 <=? n) && (n <=? 90) then ascii_of_nat (n + 32) else c.

(** [String.prototype.toLowerCase] on the ASCII range.  The script only
    compares the result with ASCII words, none of which contains a letter
    that a non-ASCII character lowers to. *)
Fixpoint toLowerCase (s : string) : string :=
  match s with
  | EmptyString => EmptyString
  | String c t => String (lowerAscii c) (toLowerCase t)
  end.

Definition string_of_nat (n : nat) : string :=
  NilEmpty.string_of_uint (Nat.to_uint n).

(** A promise that rejected, or an exception. *)
Inductive Result (A : Type) : Type :=
| Ok (a : A)
| Throw.
Arguments Ok {A} a.
Arguments Throw {A}.

(* ------------------------------------------------------------------ *)
(** ** Configuration *)

Module RECOMMENDER_CONFIG.
Definition useClientTraining : bool := false.
Definition maxHistory : nat := 200.
Definition prefetchTopK : nat := 10.
End RECOMMENDER_CONFIG.

Module ANTI_REPEAT_CONFIG.
Definition maxHistorySize : nat := 200.
Definition minHistoryBeforeRepeat : Z := 40.
Definition enableSmartExclusion : bool := true.
End ANTI_REPEAT_CONFIG.

(* ------------------------------------------------------------------ *)
(** ** History helpers, on the array [previouslyPlayed] *)

(** [h[h.length - 1]], [undefined] on the empty array. *)
Fixpoint lastEntry (h : list string) : option string :=
  match h with
  | [] => None
  | [x] => Some x
  | _ :: t => lastEntry t
  end.

(** [while (h.length > cap) h.shift()] *)
Fixpoint shiftWhileOver (cap : nat) (h : list string) : list string :=
  match h with
  | [] => []
  | _ :: t => if cap <? length h then shiftWhileOver cap t else h
  end.

Definition addToHistory (songId : string) (h : list string) : list string :=
  if negb (truthyStr songId) then h
  else if negb (length h =? 0) && (match lastEntry h with
                                   | Some l => String.eqb l songId
                                   | None => false
                                   end)
       then h
       else shiftWhileOver ANTI_REPEAT_CONFIG.maxHistorySize (h ++ [songId]).

Definition clampHistory (h : list string) : list string :=
  shiftWhileOver RECOMMENDER_CONFIG.maxHistory h.

(** [h.indexOf(x)]: the first position, [-1] when absent. *)
Fixpoint indexOf (x : string) (h : list string) : Z :=
  match h with
  | [] => (-1)%Z
  | y :: t =>
      if String.eqb y x then 0%Z
      else let i := indexOf x t in
           if (i =? -1)%Z then (-1)%Z else (i + 1)%Z
  end.

Definition canPlaySong (songId : option string) (h : list string) : bool :=
  if negb ANTI_REPEAT_CONFIG.enableSmartExclusion then true
  else match songId with
       | None => false
       | Some id =>
           if negb (truthyStr id) then false
           else
             let idx := indexOf id h in
             if (idx =? -1)%Z then true
             else
               let songsAgo := (Z.of_nat (length h) - idx)%Z in
               (ANTI_REPEAT_CONFIG.minHistoryBeforeRepeat <=? songsAgo)%Z
       end.

(** The operations the script applies to the history array. *)
Inductive HistoryOp : Type :=
| OpAppend (songId : string)   (* addToHistory(songId) *)
| OpClamp                      (* clampHistory() *)
| OpShift                      (* previouslyPlayed.shift() *)
| OpPop                        (* previouslyPlayed.pop() *)
| OpClear.                     (* previouslyPlayed = [] *)

Definition applyHistoryOp (op : HistoryOp) (h : list string) : list string :=
  match op with
  | OpAppend id => addToHistory id h
  | OpClamp => clampHistory h
  | OpShift => tl h
  | OpPop => removelast h
  | OpClear => []
  end.

(** Runs the operations from left to right. *)
Definition runHistoryOps (ops : list HistoryOp) (h : list string) : list string :=
  fold_left (fun acc op => applyHistoryOp op acc) ops h.

(** The histories after each call of a sequence of [addToHistory] calls. *)
Fixpoint historiesAfter (ids : list string) (h : list string) : list (list string) :=
  match ids with
  | [] => []
  | id :: rest => let h' := addToHistory id h in h' :: historiesAfter rest h'
  end.

(** No two consecutive entries are equal. *)
Fixpoint noAdjacentDup (h : list string) : Prop :=
  match h with
  | [] => True
  | x :: t =>
      match t with
      | [] => True
      | y :: _ => x <> y /\ noAdjacentDup t
      end
  end.

(** The repeat gate in the words of the specification: [id] occurs at a
    position [p] with [length - p < minGap]. *)
Definition isRecentlyPlayed_spec (id : string) (minGap : Z) (h : list string) : Prop :=
  exists p : nat,
    nth_error h p = Some id /\ (Z.of_nat (length h) - Z.of_nat p < minGap)%Z.

(* ------------------------------------------------------------------ *)
(** ** Songs, the song cache and sets of ids *)

(** A song object of the catalog API.  A missing or empty field is the
    empty string; [song_hasUrl] tells whether [downloadUrl] gives a URL. *)
Record Song : Type := mkSong {
  song_id : string;
  song_name : string;
  song_language : string;
  song_year : string;
  song_hasUrl : bool
}.

(** [songCache], a [Map] from id to song object. *)
Definition Cache : Type := list (string * Song).

Fixpoint cache_get (k : string) (c : Cache) : option Song :=
  match c with
  | [] => None
  | (k', v) :: t => if String.eqb k' k then Some v else cache_get k t
  end.

Definition cache_set (k : string) (v : Song) (c : Cache) : Cache := (k, v) :: c.

(** [excludeIds.has(x)] for a [Set] given by the list of its members. *)
Definition setHas (ids : list string) (x : string) : bool :=
  existsb (String.eqb x) ids.

(** [l.filter(s => s && s.id && !excludeIds.has(s.id))] *)
Definition freshSongs (excludeIds : list string) (l : list (option Song)) : list Song :=
  flat_map (fun o =>
              match o with
              | Some s =>
                  if truthyStr (song_id s) && negb (setHas excludeIds (song_id s))
                  then [s] else []
              | None => []
              end) l.

(* ------------------------------------------------------------------ *)
(** ** The TF.js recommender *)

(** A JavaScript number: a finite double, which is a rational number, an
    infinity, or [NaN].  The entries of a float32 tensor of TF.js are read
    as such numbers. *)
Inductive JsNumber : Type :=
| Finite (q : Q)
| PosInfinity
| NegInfinity
| NaN.

Definition isNaN (x : JsNumber) : bool :=
  match x with
  | NaN => true
  | _ => false
  end.

(** The sign of [y - x] as [Array.prototype.sort] reads the value of a
    comparison function: a [NaN] counts as zero.  The difference of two
    finite doubles is rounded, but it is zero only when they are equal and
    otherwise has the sign of the exact difference; the difference of two
    equal infinities is [NaN]. *)
Definition signOfDifference (y x : JsNumber) : comparison :=
  match y, x with
  | NaN, _ => Eq
  | _, NaN => Eq
  | Finite a, Finite b => (a ?= b)%Q
  | PosInfinity, PosInfinity => Eq
  | NegInfinity, NegInfinity => Eq
  | PosInfinity, _ => Gt
  | NegInfinity, _ => Lt
  | Finite _, PosInfinity => Lt
  | Finite _, NegInfinity => Gt
  end.

(** A result object [{id, score}].  [nb_pos] is a ghost field: the catalog
    position [i] at which the loop produced the object. *)
Record Neighbor : Type := mkNeighbor {
  nb_pos : nat;
  nb_id : option string;
  nb_score : JsNumber
}.

(** What [getNearestNeighbors] takes from TF.js and from the JavaScript
    engine and cannot be computed here. *)
Record Engine : Type := mkEngine {
  (* embeddings.matMul(query.transpose()).squeeze().arraySync()[i]: the
     float32 product of row [i] with the query row, as TF.js rounds it *)
  tfMatMul : list (list JsNumber) -> list JsNumber -> nat -> JsNumber;
  (* the order in which Array.prototype.sort leaves an array when the
     comparison function is not consistent on it: implementation-defined *)
  sortOrder : list Neighbor -> list Neighbor
}.

Record TfjsRecommender : Type := mkRecommender {
  ids : list string;
  idToIndex : list (string * nat);
  embeddings : list (list JsNumber);
  ready : bool
}.

Definition newRecommender : TfjsRecommender :=
  {| ids := []; idToIndex := []; embeddings := []; ready := false |}.

Fixpoint idToIndex_get (k : string) (m : list (string * nat)) : option nat :=
  match m with
  | [] => None
  | (k', v) :: t => if String.eqb k' k then Some v else idToIndex_get k t
  end.

(** [ids.forEach((id, idx) => m.set(id, idx))], starting at position [i]. *)
Fixpoint indexIds (l : list string) (i : nat) (m : list (string * nat)) : list (string * nat) :=
  match l with
  | [] => m
  | id :: t => indexIds t (S i) ((id, i) :: m)
  end.

(** The body of the embeddings file. *)
Record EmbeddingsJson : Type := mkEmbeddingsJson {
  json_ids : option (list string);
  json_embeddings : option (list (list JsNumber))
}.

(** The loop over [simsArray]: position [i], the ids from position [i] on. *)
Fixpoint scanSims (songId : string) (excludeIds : list string)
         (i : nat) (idsFrom : list string) (sims : list JsNumber) : list Neighbor :=
  match sims with
  | [] => []
  | sc :: sims' =>
      let id := hd_error idsFrom in
      let rest := scanSims songId excludeIds (S i) (tl idsFrom) sims' in
      match id with
      | Some x =>
          if String.eqb x songId then rest
          else if setHas excludeIds x then rest
          else mkNeighbor i id sc :: rest
      | None => mkNeighbor i id sc :: rest
      end
  end.

(** The comparison function [(a, b) => b.score - a.score], as the sort
    reads its value: [Lt] for a negative value ([a] sorts first), [Gt] for
    a positive one, [Eq] for zero and for [NaN]. *)
Definition compareFn (a b : Neighbor) : comparison :=
  signOfDifference (nb_score b) (nb_score a).

(** One step of a stable insertion sort: [x], which stood before every
    element of [l], moves behind [y] only when the comparison function
    puts [y] first. *)
Fixpoint insertByScore (x : Neighbor) (l : list Neighbor) : list Neighbor :=
  match l with
  | [] => [x]
  | y :: t =>
      match compareFn x y with
      | Gt => y :: insertByScore x t
      | _ => x :: l
      end
  end.

(** [results.sort((a, b) => b.score - a.score)].  Without a [NaN] score the
    comparison function is consistent; the sort of an array is stable, so
    its result is the one sorted arrangement that keeps equal elements in
    their order, which a stable insertion sort computes.  With a [NaN]
    score the comparison function need not be consistent and the order is
    the engine's. *)
Definition sortByScoreDesc (e : Engine) (l : list Neighbor) : list Neighbor :=
  if existsb (fun n => isNaN (nb_score n)) l then sortOrder e l
  else fold_right insertByScore [] l.

Definition getNearestNeighbors (e : Engine) (r : TfjsRecommender) (songId : string)
           (topK : nat) (excludeIds : list string) : Result (list Neighbor) :=
  if negb (ready r) then Ok []
  else match idToIndex_get songId (idToIndex r) with
       | None => Ok []
       | Some idx =>
           match nth_error (embeddings r) idx with
           | None => Throw                      (* gather: index out of range *)
           | Some query =>
               let simsArray :=
                 map (tfMatMul e (embeddings r) query) (seq 0 (length (embeddings r))) in
               (* one row: squeeze() gives a scalar and the loop does not run *)
               let results :=
                 if length simsArray =? 1 then []
                 else scanSims songId excludeIds 0 (ids r) simsArray in
               Ok (firstn topK (sortByScoreDesc e results))
           end
       end.

(** The order of the result: a higher score first, and among equal scores
    the earlier catalog position first. *)
Definition ranksBefore (a b : Neighbor) : Prop :=
  signOfDifference (nb_score a) (nb_score b) = Gt \/
  (signOfDifference (nb_score a) (nb_score b) = Eq /\ nb_pos a < nb_pos b).

(* ------------------------------------------------------------------ *)
(** ** State of the script and its environment *)

Record SuggestionState : Type := mkSuggestionState {
  baseSongId : option string;
  queue : list string;
  index : Z
}.

Inductive Event : Type :=
| EvLoadEmbeddings                              (* init() requested the embeddings file *)
| EvPlaySong (id : string)                      (* playSong(id, ...) was called *)
| EvRecorded (id : string) (lang : string).     (* the play of [id] was recorded *)

Record State : Type := mkState {
  previouslyPlayed : list string;
  lastPlayedSongId : option string;
  hindiPlayCount : nat;
  teluguPlayCount : nat;
  marathiPlayCount : nat;
  songCache : Cache;
  suggestionState : SuggestionState;
  recommender : TfjsRecommender;
  autoplay : option bool;        (* ZY_SETTINGS.autoplay; [None]: not a boolean *)
  tick : nat;
  trace : list Event
}.

(** A suggestion item of the API: [null], or an object with its [id]. *)
Inductive SuggestionItem : Type :=
| NullItem
| Item (id : option string).

Record World : Type := mkWorld {
  (* window.tf *)
  tfPresent : bool;
  (* fetch(embeddingUrl), then res.json() *)
  fetchEmbeddings : Result EmbeddingsJson;
  (* tf.tensor2d, then the rows divided by their euclidean norms *)
  tfNormalize : list (list JsNumber) -> Result (list (list JsNumber));
  (* new Date().getFullYear() *)
  currentYear : nat;
  (* /api/songs/:id, then json.data?.[0] *)
  fetchSong : nat -> string -> Result (option Song);
  (* /api/songs/:id/suggestions, then json?.data || [] *)
  fetchSuggestions : nat -> string -> Result (list SuggestionItem);
  (* /api/search/songs?query=&limit=, then extractSongsFromSearchResponse *)
  searchSongs : nat -> string -> nat -> Result (list (option Song));
  (* Math.floor(Math.random() * n) is [random t mod n] *)
  random : nat -> nat
}.

Definition set_previouslyPlayed (h : list string) (s : State) : State :=
  mkState h (lastPlayedSongId s) (hindiPlayCount s) (teluguPlayCount s)
          (marathiPlayCount s) (songCache s) (suggestionState s) (recommender s)
          (autoplay s) (tick s) (trace s).

Definition set_lastPlayedSongId (v : option string) (s : State) : State :=
  mkState (previouslyPlayed s) v (hindiPlayCount s) (teluguPlayCount s)
          (marathiPlayCount s) (songCache s) (suggestionState s) (recommender s)
          (autoplay s) (tick s) (trace s).

Definition set_counts (h t m : nat) (s : State) : State :=
  mkState (previouslyPlayed s) (lastPlayedSongId s) h t m (songCache s)
          (suggestionState s) (recommender s) (autoplay s) (tick s) (trace s).

Definition set_songCache (c : Cache) (s : State) : State :=
  mkState (previouslyPlayed s) (lastPlayedSongId s) (hindiPlayCount s)
          (teluguPlayCount s) (marathiPlayCount s) c (suggestionState s)
          (recommender s) (autoplay s) (tick s) (trace s).

Definition set_suggestionState (q : SuggestionState) (s : State) : State :=
  mkState (previouslyPlayed s) (lastPlayedSongId s) (hindiPlayCount s)
          (teluguPlayCount s) (marathiPlayCount s) (songCache s) q
          (recommender s) (autoplay s) (tick s) (trace s).

Definition set_recommender (r : TfjsRecommender) (s : State) : State :=
  mkState (previouslyPlayed s) (lastPlayedSongId s) (hindiPlayCount s)
          (teluguPlayCount s) (marathiPlayCount s) (songCache s)
          (suggestionState s) r (autoplay s) (tick s) (trace s).

Definition set_autoplay (a : option bool) (s : State) : State :=
  mkState (previouslyPlayed s) (lastPlayedSongId s) (hindiPlayCount s)
          (teluguPlayCount s) (marathiPlayCount s) (songCache s)
          (suggestionState s) (recommender s) a (tick s) (trace s).

(** One request to the world was answered. *)
Definition bump (s : State) : State :=
  mkState (previouslyPlayed s) (lastPlayedSongId s) (hindiPlayCount s)
          (teluguPlayCount s) (marathiPlayCount s) (songCache s)
          (suggestionState s) (recommender s) (autoplay s) (S (tick s)) (trace s).

Definition log (e : Event) (s : State) : State :=
  mkState (previouslyPlayed s) (lastPlayedSongId s) (hindiPlayCount s)
          (teluguPlayCount s) (marathiPlayCount s) (songCache s)
          (suggestionState s) (recommender s) (autoplay s) (tick s) (e :: trace s).

Definition set_base (b : option string) (s : State) : State :=
  set_suggestionState
    (mkSuggestionState b (queue (suggestionState s)) (index (suggestionState s))) s.

Definition set_queue (q : list string) (s : State) : State :=
  set_suggestionState
    (mkSuggestionState (baseSongId (suggestionState s)) q (index (suggestionState s))) s.

Definition set_index (i : Z) (s : State) : State :=
  set_suggestionState
    (mkSuggestionState (baseSongId (suggestionState s)) (queue (suggestionState s)) i) s.

(** The variables as the script initialises them. *)
Definition initialState : State :=
  {| previouslyPlayed := [];
     lastPlayedSongId := None;
     hindiPlayCount := 0;
     teluguPlayCount := 0;
     marathiPlayCount := 0;
     songCache := [];
     suggestionState := mkSuggestionState None [] (-1);
     recommender := newRecommender;
     autoplay := Some true;
     tick := 0;
     trace := [] |}.

Definition getExclusionSet (s : State) : list string :=
  (match lastPlayedSongId s with
   | Some l => if truthyStr l then [l] else []
   | None => []
   end)
  ++ queue (suggestionState s)
  ++ previouslyPlayed s.

(** [TfjsRecommender.init] of the recommender of the state. *)
Definition init (w : World) (s : State) : State :=
  if negb (tfPresent w) then s
  else if RECOMMENDER_CONFIG.useClientTraining
       then set_recommender
              (mkRecommender (ids (recommender s)) (idToIndex (recommender s))
                             (embeddings (recommender s)) false) s
  else
    let r := recommender s in
    let failed (r' : TfjsRecommender) (s' : State) :=      (* catch: this.ready = false *)
      set_recommender (mkRecommender (ids r') (idToIndex r') (embeddings r') false) s' in
    let s1 := bump (log EvLoadEmbeddings s) in
    match fetchEmbeddings w with
    | Throw => failed r s1
    | Ok json =>
        match json_ids json, json_embeddings json with
        | Some jids, Some jemb =>
            let r1 := mkRecommender jids (indexIds jids 0 (idToIndex r)) (embeddings r) (ready r) in
            match tfNormalize w jemb with
            | Throw => failed r1 s1
            | Ok normed =>
                set_recommender (mkRecommender jids (idToIndex r1) normed true) s1
            end
        | _, _ => failed r s1       (* throw new Error('Invalid embeddings JSON') *)
        end
    end.

(* ------------------------------------------------------------------ *)
(** ** Search helpers *)

Definition prelangs : list string := ["malayalam"; "tamil"].

(** The current year and the twenty before it, as strings. *)
Definition preyears (w : World) : list string :=
  map (fun i => string_of_nat (currentYear w - i)) (seq 0 21).

(** [l[Math.floor(Math.random() * l.length)]] *)
Definition pickRandom {A : Type} (w : World) (l : list A) (s : State) : option A * State :=
  (nth_error l (random w (tick s) mod length l), bump s).

Definition searchYearLanguage (w : World) (year language : string)
           (excludeId : option string) (s : State) : Result (list Song) * State :=
  let query := (language ++ " " ++ year)%string in
  match searchSongs w (tick s) query 50 with
  | Throw => (Throw, bump s)
  | Ok l =>
      (Ok (flat_map (fun o =>
                       match o with
                       | Some c =>
                           match excludeId with
                           | Some x => if String.eqb (song_id c) x then [] else [c]
                           | None => [c]
                           end
                       | None => []
                       end) l),
       bump s)
  end.

(** The two loops of [fetchDiverseSong], over the pairs in loop order. *)
Fixpoint diverseSweep (w : World) (excludeIds : list string)
         (pairs : list (string * string)) (s : State) : Result (option Song) * State :=
  match pairs with
  | [] => (Ok None, s)
  | (lang, year) :: rest =>
      match searchYearLanguage w year lang None s with
      | (Throw, s1) => (Throw, s1)
      | (Ok candidates, s1) =>
          let filtered :=
            filter (fun c => truthyStr (song_id c) && negb (setHas excludeIds (song_id c)))
                   candidates in
          if negb (length filtered =? 0)
          then let '(c, s2) := pickRandom w filtered s1 in (Ok c, s2)
          else diverseSweep w excludeIds rest s1
      end
  end.

Definition fetchDiverseSong (w : World) (excludeIds : list string) (s : State)
  : Result (option Song) * State :=
  diverseSweep w excludeIds (list_prod prelangs (preyears w)) s.

Definition fetchPopularRandomSong (w : World) (excludeIds : list string) (s : State)
  : Result (option Song) * State :=
  match searchSongs w (tick s) "popular" 50 with
  | Throw => (Throw, bump s)
  | Ok l =>
      let candidates := freshSongs excludeIds l in
      if negb (length candidates =? 0)
      then let '(c, s1) := pickRandom w candidates (bump s) in (Ok c, s1)
      else (Ok None, bump s)
  end.

(** [shouldPlayDiverse(currentLang)]; a language without a threshold is
    compared with [Infinity]. *)
Definition shouldPlayDiverse (currentLang : option string) (s : State) : bool :=
  let lc := toLowerCase (match jsOr currentLang (Some "") with
                         | Some l => l
                         | None => ""
                         end) in
  let overplayedCount :=
    if String.eqb lc "hindi" then hindiPlayCount s
    else if String.eqb lc "telugu" then teluguPlayCount s
    else if String.eqb lc "marathi" then marathiPlayCount s
    else 0 in
  let threshold : option nat :=
    if String.eqb lc "hindi" then Some 4
    else if String.eqb lc "telugu" then Some 3
    else if String.eqb lc "marathi" then Some 3
    else None in
  match threshold with
  | Some t => t <=? overplayedCount
  | None => false
  end.

(* ------------------------------------------------------------------ *)
(** ** [playSong] *)

Record PlayOptions : Type := mkPlayOptions {
  fromAutoplay : bool;
  fromHistory : bool
}.

Definition explicitPlay : PlayOptions := mkPlayOptions false false.
Definition autoplayPlay : PlayOptions := mkPlayOptions true false.
Definition historyPlay : PlayOptions := mkPlayOptions false true.

(** The three counter updates of [playSong]. *)
Definition countLanguage (lang : string) (s : State) : State :=
  set_counts
    (if String.eqb lang "hindi" then S (hindiPlayCount s) else 0)
    (if String.eqb lang "telugu" then S (teluguPlayCount s) else 0)
    (if String.eqb lang "marathi" then S (marathiPlayCount s) else 0)
    s.

(** [songCache.get(id)], else the metadata request; [None] when the request
    fails or answers without a song (the caller then throws or goes on). *)
Definition lookupSong (w : World) (id : string) (s : State) : option Song * State :=
  match cache_get id (songCache s) with
  | Some song => (Some song, s)
  | None =>
      match fetchSong w (tick s) id with
      | Ok (Some song) => (Some song, set_songCache (cache_set id song (songCache s)) (bump s))
      | Ok None => (None, bump s)
      | Throw => (None, bump s)
      end
  end.

(** The body of [playSong] without the continuation of the prefetch it
    starts: the second component tells whether [prefetchSuggestionsFor(id)]
    was started.  The audio element and the now-playing bar are not part of
    the state; a missing audio URL throws after all the updates below and
    is caught within [playSong]. *)
Definition playSongCore (w : World) (id : string) (options : PlayOptions) (s : State)
  : State * bool :=
  let s0 := log (EvPlaySong id) s in
  let s1 :=
    match lastPlayedSongId s0 with
    | Some l =>
        if negb (fromHistory options) && truthyStr l && negb (String.eqb l id)
        then set_previouslyPlayed (clampHistory (addToHistory l (previouslyPlayed s0))) s0
        else s0
    | None => s0
    end in
  match lookupSong w id s1 with
  | (None, s2) => (s2, false)       (* 'Song metadata not found', or the request failed *)
  | (Some song, s2) =>
      let s3 := set_lastPlayedSongId (Some id) s2 in
      let explicit := negb (fromAutoplay options) && negb (fromHistory options) in
      let s4 :=
        if explicit
        then set_suggestionState (mkSuggestionState (Some id) [] (-1)) s3
        else s3 in
      let lang := toLowerCase (song_language song) in
      (log (EvRecorded id lang) (countLanguage lang s4), explicit)
  end.

(* ------------------------------------------------------------------ *)
(** ** The fallback cascade *)

(** [lastPlayedSongId || (previouslyPlayed.length ? last entry : null)] *)
Definition fallbackBaseId (s : State) : option string :=
  jsOr (lastPlayedSongId s) (lastEntry (previouslyPlayed s)).

(** The loop-breaker at the end of the cascade. *)
Definition clearHistoryAndQueue (s : State) : State :=
  set_index (-1) (set_queue [] (set_previouslyPlayed [] s)).

(** The popularity tier and what follows it. *)
Definition popularTier (w : World) (excludeIds : list string) (s : State) : State :=
  match fetchPopularRandomSong w excludeIds s with
  | (Throw, s1) => s1                                   (* caught: 'Fallback failed' *)
  | (Ok (Some popular), s1) =>
      if truthyStr (song_id popular)
      then fst (playSongCore w (song_id popular) autoplayPlay s1)
      else clearHistoryAndQueue s1
  | (Ok None, s1) => clearHistoryAndQueue s1
  end.

Definition fallbackFreshSongsWithExclusion (w : World) (s : State) : State :=
  let excludeIds := getExclusionSet s in
  match fallbackBaseId s with
  | None | Some "" =>
      (* no base id: a popular song, or nothing at all *)
      match fetchPopularRandomSong w excludeIds s with
      | (Ok (Some cand), s1) =>
          if truthyStr (song_id cand)
          then fst (playSongCore w (song_id cand) autoplayPlay s1)
          else s1
      | (_, s1) => s1
      end
  | Some baseId =>
      let found :=
        match cache_get baseId (songCache s) with
        | Some song => Ok (Some song, s)
        | None =>
            match fetchSong w (tick s) baseId with
            | Ok (Some song) =>
                Ok (Some song, set_songCache (cache_set baseId song (songCache s)) (bump s))
            | Ok None => Ok (None, bump s)
            | Throw => Throw
            end
        end in
      match found with
      | Throw => bump s                                 (* caught: 'Fallback failed' *)
      | Ok (song, s1) =>
          let qLang := match song with Some x => song_language x | None => "" end in
          let qYear := match song with Some x => song_year x | None => "" end in
          let queryStr :=
            if truthyStr qLang && truthyStr qYear
            then (qLang ++ " " ++ qYear)%string else qLang in
          match searchSongs w (tick s1) queryStr 40 with
          | Throw => bump s1                            (* caught: 'Fallback failed' *)
          | Ok candidates =>
              let s2 := bump s1 in
              let freshCandidates := freshSongs excludeIds candidates in
              if negb (length candidates =? 0) && negb (length freshCandidates =? 0)
              then
                match pickRandom w freshCandidates s2 with
                | (Some fallbackSong, s3) =>
                    fst (playSongCore w (song_id fallbackSong) autoplayPlay s3)
                | (None, s3) => s3
                end
              else popularTier w excludeIds s2
          end
      end
  end.

(* ------------------------------------------------------------------ *)
(** ** Suggestions-based autoplay *)

(** [data.map(s => s.id)]; reading [id] of a [null] item throws. *)
Fixpoint suggestionIds (data : list SuggestionItem) : Result (list (option string)) :=
  match data with
  | [] => Ok []
  | NullItem :: _ => Throw
  | Item id :: t =>
      match suggestionIds t with
      | Ok l => Ok (id :: l)
      | Throw => Throw
      end
  end.

(** [l.filter(id => id && !excludeIds.has(id))] *)
Definition freshIds (excludeIds : list string) (l : list (option string)) : list string :=
  flat_map (fun o =>
              match o with
              | Some id => if truthyStr id && negb (setHas excludeIds id) then [id] else []
              | None => []
              end) l.

Definition prefetchSuggestionsFor (w : World) (songId : string) (s : State) : State :=
  let s0 := set_suggestionState (mkSuggestionState (Some songId) [] (-1)) s in
  match fetchSuggestions w (tick s0) songId with
  | Throw => fallbackFreshSongsWithExclusion w (bump s0)      (* catch *)
  | Ok data =>
      let s1 := bump s0 in
      if length data =? 0 then fallbackFreshSongsWithExclusion w s1
      else
        let excludeIds := getExclusionSet s1 in
        match suggestionIds data with
        | Throw => fallbackFreshSongsWithExclusion w s1       (* catch *)
        | Ok l => set_index (-1) (set_queue (freshIds excludeIds l) s1)
        end
  end.

(** [playSong(id, options)].  The prefetch that an explicit play starts is
    not awaited; its continuation runs after the body of [playSong], and
    here before any other event (decisions are serialised). *)
Definition playSong (w : World) (id : string) (options : PlayOptions) (s : State) : State :=
  let '(s1, started) := playSongCore w id options s in
  if started then prefetchSuggestionsFor w id s1 else s1.

(** [q[i]] *)
Definition queueAt (q : list string) (i : Z) : option string :=
  if (i <? 0)%Z then None else nth_error q (Z.to_nat i).

(** [playNextFromSuggestions]; [fuel] bounds the depth of its recursion and
    [None] means that the bound was reached. *)
Fixpoint playNextFromSuggestions (fuel : nat) (w : World) (s : State) : option State :=
  match fuel with
  | 0 => None
  | S fuel' =>
      let q := queue (suggestionState s) in
      let i := index (suggestionState s) in
      if negb (length q =? 0) && (i <? Z.of_nat (length q) - 1)%Z
      then
        (* 1) use the existing queue *)
        let s1 := set_index (i + 1) s in
        let nextId := queueAt q (i + 1) in
        if negb (canPlaySong nextId (previouslyPlayed s1))
        then playNextFromSuggestions fuel' w s1
        else
          match nextId with
          | Some id =>
              let s2 := playSong w id autoplayPlay s1 in
              Some (set_base (jsOr (lastEntry (queue (suggestionState s2))) (Some id)) s2)
          | None => Some s1
          end
      else
        (* 2) new suggestions are needed *)
        let baseId :=
          jsOr (jsOr (jsOr (lastEntry q) (lastPlayedSongId s))
                     (lastEntry (previouslyPlayed s)))
               (baseSongId (suggestionState s)) in
        match baseId with
        | None | Some "" => Some (fallbackFreshSongsWithExclusion w s)
        | Some b =>
            let s1 := prefetchSuggestionsFor w b s in
            if negb (length (queue (suggestionState s1)) =? 0)
            then
              let s2 := set_index 0 s1 in
              let nextId := queueAt (queue (suggestionState s2)) 0 in
              if negb (canPlaySong nextId (previouslyPlayed s2))
              then playNextFromSuggestions fuel' w s2
              else
                match nextId with
                | Some id => Some (playSong w id autoplayPlay s2)
                | None => Some s2
                end
            else Some (fallbackFreshSongsWithExclusion w s1)
        end
  end.

(** Fuel for one decision: the entries left in the queue, the refill and
    spare calls.  It is enough for every state ([decideNext_total]). *)
Definition decideFuel (s : State) : nat :=
  Z.to_nat (Z.of_nat (length (queue (suggestionState s))) - index (suggestionState s)) + 3.

(** One decision, [decideNext] of the specification: the call of
    [playNextFromSuggestions] that the track-ended event and the next button
    make. *)
Definition decideNext (w : World) (s : State) : option State :=
  playNextFromSuggestions (decideFuel s) w s.

Definition onEnded (w : World) (s : State) : option State :=
  match autoplay s with
  | Some false => Some s            (* autoplay disabled: stop after this track *)
  | _ => decideNext w s
  end.

(** The previous button and the [previoustrack] media action. *)
Definition prevHandler (w : World) (s : State) : State :=
  match lastEntry (previouslyPlayed s) with
  | Some prevSongId =>
      playSong w prevSongId historyPlay
               (set_previouslyPlayed (removelast (previouslyPlayed s)) s)
  | None => s
  end.

(* ------------------------------------------------------------------ *)
(** ** A session *)

Inductive UserEvent : Type :=
| Select (id : string)              (* a song card: playSong(id) *)
| Ended                             (* the audio element fired 'ended' *)
| Next                              (* next button, 'nexttrack' *)
| Prev                              (* previous button, 'previoustrack' *)
| SetAutoplay (v : option bool).    (* the autoplay setting was written *)

Definition step (w : World) (e : UserEvent) (s : State) : option State :=
  match e with
  | Select id => Some (playSong w id explicitPlay s)
  | Ended => onEnded w s
  | Next => decideNext w s
  | Prev => Some (prevHandler w s)
  | SetAutoplay v => Some (set_autoplay v s)
  end.

(** The state when the page is ready: [recommender.init()] has run. *)
Definition boot (w : World) : State := init w initialState.

(** The states of a session in the world [w]. *)
Inductive reachable (w : World) : State -> Prop :=
| reach_boot : reachable w (boot w)
| reach_step : forall s e s',
    reachable w s -> step w e s = Some s' -> reachable w s'.

Fixpoint runEvents (w : World) (es : list UserEvent) (s : State) : option State :=
  match es with
  | [] => Some s
  | e :: rest =>
      match step w e s with
      | Some s' => runEvents w rest s'
      | None => None
      end
  end.

(* ------------------------------------------------------------------ *)
(** ** Ghost observations on the trace *)

(** The ids [playSong] was called with, newest first. *)
Definition playedIds (t : list Event) : list string :=
  flat_map (fun e => match e with EvPlaySong id => [id] | _ => [] end) t.

(** The languages of the recorded plays, newest first. *)
Definition playedLanguages (t : list Event) : list string :=
  flat_map (fun e => match e with EvRecorded _ lang => [lang] | _ => [] end) t.

(** The number of requests for the embeddings file. *)
Definition embeddingLoads (t : list Event) : nat :=
  length (filter (fun e => match e with EvLoadEmbeddings => true | _ => false end) t).

(** The length of the run of [lang] at the head of [l]. *)
Fixpoint streak (lang : string) (l : list string) : nat :=
  match l with
  | [] => 0
  | x :: t => if String.eqb x lang then S (streak lang t) else 0
  end.

(** The catalog is exhausted from tick [t0] on: every later suggestion
    request and every later catalog search is answered with the empty
    list.  Earlier requests may have been answered with anything. *)
Definition exhaustedFrom (w : World) (t0 : nat) : Prop :=
  (forall t id, t0 <= t -> fetchSuggestions w t id = Ok []) /\
  (forall t q lim, t0 <= t -> searchSongs w t q lim = Ok []).

(** The embeddings file could not be loaded. *)
Definition loadFails (w : World) : Prop :=
  tfPresent w = false \/
  fetchEmbeddings w = Throw \/
  (exists j, fetchEmbeddings w = Ok j /\ (json_ids j = None \/ json_embeddings j = None)) \/
  (exists j a b, fetchEmbeddings w = Ok j /\ json_ids j = Some a /\
                 json_embeddings j = Some b /\ tfNormalize w b = Throw).


(* ------------------------------------------------------------------ *)
(** ** Helpers of the player script without a caller in the cascade *)

(** [TfjsRecommender.recommendNextByEmbedding] *)
Definition recommendNextByEmbedding (e : Engine) (r : TfjsRecommender)
           (currentSongId : string) (excludeIds : list string) (topK : nat)
  : Result (list (option string)) :=
  match getNearestNeighbors e r currentSongId (topK * 3) excludeIds with
  | Throw => Throw
  | Ok neighbors =>
      if length neighbors =? 0 then Ok []
      else Ok (map nb_id (firstn topK neighbors))
  end.

Section WeightedChoice.

(** The weights and the random number are doubles.  Their arithmetic is
    not computed here: the sum, the product, the difference and the
    comparison are what the engine makes of them. *)
Variable Num : Type.
Variable zero : Num.
Variables add mul sub : Num -> Num -> Num.
Variable ltb : Num -> Num -> bool.

(** A strategy object [{name, weight}]. *)
Record Strategy : Type := mkStrategy {
  strat_name : string;
  strat_weight : Num
}.

(** The loop of [weightedRandomChoice]; [None] when it ends without a
    [return]. *)
Fixpoint weightedScan (rand : Num) (strategies : list Strategy) : option string :=
  match strategies with
  | [] => None
  | strat :: rest =>
      if ltb rand (strat_weight strat) then Some (strat_name strat)
      else weightedScan (sub rand (strat_weight strat)) rest
  end.

(** [weightedRandomChoice(strategies)], where [random01] is the value of
    [Math.random()].  Reading [name] of [strategies[0]] throws on the empty
    array. *)
Definition weightedRandomChoice (random01 : Num) (strategies : list Strategy) : Result string :=
  let totalWeight := fold_left (fun acc s => add acc (strat_weight s)) strategies zero in
  let rand := mul random01 totalWeight in
  match weightedScan rand strategies with
  | Some name => Ok name
  | None =>
      match strategies with
      | first :: _ => Ok (strat_name first)
      | [] => Throw
      end
  end.

End WeightedChoice.

Arguments strat_name {Num} s.
Arguments strat_weight {Num} s.

(* ------------------------------------------------------------------ *)
(** ** The download route of the server *)

(** An entry [{quality, url}] of [downloadUrl]; a missing field is the
    empty string. *)
Record DownloadEntry : Type := mkDownloadEntry {
  dl_quality : string;
  dl_url : string
}.

(** The fields of the song object that the download route reads.
    [sd_primaryArtists] are the names of [artists.primary]; a missing list
    is the empty list. *)
Record SongData : Type := mkSongData {
  sd_name : string;
  sd_primaryArtists : list string;
  sd_album : string;
  sd_year : string;
  sd_downloadUrl : list DownloadEntry
}.

(** The answer of [axios.get]: a reply, or a rejection that may carry the
    status of the upstream response. *)
Inductive Upstream (A : Type) : Type :=
| Replied (a : A)
| Failed (status : option nat).
Arguments Replied {A} a.
Arguments Failed {A} status.

(** What the route sends. *)
Inductive DownloadResponse : Type :=
| JsonError (status : nat) (message : string)
| Mp3Stream (sourceUrl filename bitrate : string) (metadata : list string).

(** [l.join(sep)] *)
Fixpoint join (sep : string) (l : list string) : string :=
  match l with
  | [] => ""
  | [x] => x
  | x :: t => (x ++ sep ++ join sep t)%string
  end.

(** The characters of the class that the file name is cleaned of: slash,
    backslash, question mark, percent, star, colon, bar, double quote and
    the two angle brackets. *)
Definition forbiddenInFilename : list ascii :=
  ["/"; "\"; "?"; "%"; "*"; ":"; "|"; "034"; "<"; ">"]%char.

Definition isForbidden (c : ascii) : bool :=
  existsb (Ascii.eqb c) forbiddenInFilename.

(** [s.replace(re, '_')], where [re] is that class with the flag [g]. *)
Fixpoint replaceForbidden (s : string) : string :=
  match s with
  | EmptyString => EmptyString
  | String c t => String (if isForbidden c then "_"%char else c) (replaceForbidden t)
  end.

Definition safeFilename (artists title year : string) : string :=
  replaceForbidden
    ((if truthyStr artists then artists ++ " - " else "")
       ++ title
       ++ (if truthyStr year then " (" ++ year ++ ")" else ""))%string.

(** [s] without the prefix [p], when it starts with [p]. *)
Fixpoint dropPrefix (p s : string) : option string :=
  match p with
  | EmptyString => Some s
  | String a p' =>
      match s with
      | EmptyString => None
      | String b s' => if Ascii.eqb a b then dropPrefix p' s' else None
      end
  end.

(** [s.replace(pat, '')] for a string pattern: the first occurrence goes. *)
Fixpoint removeFirst (pat s : string) : string :=
  match dropPrefix pat s with
  | Some rest => rest
  | None =>
      match s with
      | EmptyString => EmptyString
      | String c t => String c (removeFirst pat t)
      end
  end.

(** [quality.replace('kbps', '') || '320'] *)
Definition audioBitrate (quality : string) : string :=
  let b := removeFirst "kbps" quality in
  if truthyStr b then b else "320".

(** [downloadUrl?.find(d => d.quality === quality) || downloadUrl?.slice(-1)[0]] *)
Definition pickDownloadUrl (quality : string) (entries : list DownloadEntry)
  : option DownloadEntry :=
  match find (fun d => String.eqb (dl_quality d) quality) entries with
  | Some d => Some d
  | None => last (map Some entries) None
  end.

(** [err.response?.status || 500] *)
Definition errorStatus (status : option nat) : nat :=
  match status with
  | Some n => if n =? 0 then 500 else n
  | None => 500
  end.

(** [req.query.quality || '320kbps'] *)
Definition requestedQuality (qualityParam : option string) : string :=
  match jsOr qualityParam (Some "320kbps") with
  | Some q => q
  | None => "320kbps"
  end.

(** The handler of [GET /api/download/:id], up to the start of the
    transcoder.  [qualityParam] is [req.query.quality], a string or absent;
    [upstream] is the metadata request, reduced to [data?.data?.[0]]. *)
Definition downloadRoute (qualityParam : option string)
           (upstream : Upstream (option SongData)) : DownloadResponse :=
  let quality := requestedQuality qualityParam in
  match upstream with
  | Failed status => JsonError (errorStatus status) "Download failed"
  | Replied None => JsonError 404 "Song not found"
  | Replied (Some songData) =>
      let title := if truthyStr (sd_name songData) then sd_name songData
                   else "Unknown Title" in
      let artists := join ", " (sd_primaryArtists songData) in
      let album := sd_album songData in
      let year := sd_year songData in
      match pickDownloadUrl quality (sd_downloadUrl songData) with
      | Some entry =>
          if truthyStr (dl_url entry)
          then Mp3Stream (dl_url entry)
                         (safeFilename artists title year ++ ".mp3")
                         (audioBitrate quality)
                         [("title=" ++ title)%string; ("artist=" ++ artists)%string;
                          ("album=" ++ album)%string; ("date=" ++ year)%string;
                          "comment=Downloaded via ZYLAE"]
          else JsonError 400 ("Download URL for quality " ++ quality ++ " not available")
      | None => JsonError 400 ("Download URL for quality " ++ quality ++ " not available")
      end
  end.

(* ------------------------------------------------------------------ *)
(** ** The page script: theme and the recently played list *)

(** [window.ZY_SETTINGS.theme || 'dark'] *)
Definition effectiveTheme (theme : option string) : string :=
  match jsOr theme (Some "dark") with
  | Some t => t
  | None => "dark"
  end.

(** The click handler of the theme toggle: the new value of the setting. *)
Definition toggleTheme (theme : option string) : option string :=
  Some (if String.eqb (effectiveTheme theme) "dark" then "light" else "dark").

(** [applyTheme]: whether the root element gets the classes [theme-light]
    and [theme-dark], and the label of the toggle. *)
Definition applyTheme (theme : option string) : bool * bool * string :=
  let t := effectiveTheme theme in
  (String.eqb t "light", String.eqb t "dark",
   if String.eqb t "dark" then "Dark" else "Light").

(** [[...previouslyPlayed].slice(-8).reverse()], the ids that
    [refreshRecentlyPlayed] lists. *)
Definition recentlyPlayedIds (previouslyPlayed : list string) : list string :=
  rev (skipn (length previouslyPlayed - 8) previouslyPlayed).

(* ------------------------------------------------------------------ *)
(** ** Predicates of the properties *)

(** A candidate of the scan from position [i]: what the loop pushes. *)
Definition scanned (songId : string) (excludeIds : list string)
           (i : nat) (idsFrom : list string) (sims : list JsNumber) (n : Neighbor) : Prop :=
  i <= nb_pos n
  /\ nth_error sims (nb_pos n - i) = Some (nb_score n)
  /\ nb_id n = nth_error idsFrom (nb_pos n - i)
  /\ nb_id n <> Some songId
  /\ (forall x, nb_id n = Some x -> setHas excludeIds x = false).

Definition posBefore (a b : Neighbor) : Prop := nb_pos a < nb_pos b.

(** The engine's sort rearranges an array and neither drops nor adds an
    element, whatever the comparison function is. *)
Definition sortPermutes (e : Engine) : Prop :=
  forall l : list Neighbor, Permutation (sortOrder e l) l.

(** No score of the list is [NaN]. *)
Definition noNaN (l : list Neighbor) : Prop :=
  forall n, In n l -> isNaN (nb_score n) = false.

(** The similarities the scan runs over: one score per row, as TF.js
    computed them. *)
Definition simsOf (e : Engine) (r : TfjsRecommender) (query : list JsNumber) : list JsNumber :=
  map (tfMatMul e (embeddings r) query) (seq 0 (length (embeddings r))).

(** Every similarity that TF.js computes for the query [songId] is a
    number.  It is so when every row is L2-normalised, as the embeddings
    are stored: the product of two such rows is finite. *)
Definition scoresAreNumbers (e : Engine) (r : TfjsRecommender) (songId : string) : Prop :=
  forall idx query x,
    idToIndex_get songId (idToIndex r) = Some idx ->
    nth_error (embeddings r) idx = Some query ->
    In x (simsOf e r query) -> isNaN x = false.

(** A running recommender: the index map comes from [ids] and every id
    has a row. *)
Definition wellIndexed (r : TfjsRecommender) : Prop :=
  idToIndex r = indexIds (ids r) 0 [] /\ length (ids r) <= length (embeddings r).

Definition cached (s : State) (x : string) : Prop :=
  cache_get x (songCache s) <> None.

(** Only entries were taken off the history: by the previous-track
    navigation or by the loop-breaker. *)
Definition historyDropped (h h' : list string) : Prop :=
  exists ops : list HistoryOp,
    Forall (fun op => op = OpPop \/ op = OpClear) ops /\ h' = runHistoryOps ops h.

(** What the code outside [playSong] and [init] writes directly: queue,
    cursor, base id, settings and tick change freely, the history only
    loses entries and the cache only gains some. *)
Definition quiet (s s' : State) : Prop :=
  hindiPlayCount s' = hindiPlayCount s
  /\ teluguPlayCount s' = teluguPlayCount s
  /\ marathiPlayCount s' = marathiPlayCount s
  /\ lastPlayedSongId s' = lastPlayedSongId s
  /\ recommender s' = recommender s
  /\ trace s' = trace s
  /\ historyDropped (previouslyPlayed s) (previouslyPlayed s')
  /\ (forall x, cached s x -> cached s' x).

(** How a decision transforms the state: direct writes, and calls of
    [playSong] for songs chosen by the autoplay or taken from history. *)
Inductive evolves (w : World) : State -> State -> Prop :=
| evolves_quiet : forall s s', quiet s s' -> evolves w s s'
| evolves_play : forall s s1 id options s',
    quiet s s1 ->
    evolves w (fst (playSongCore w id options s1)) s' ->
    evolves w s s'.

Definition countersMatchStreaks (s : State) : Prop :=
  hindiPlayCount s = streak "hindi" (playedLanguages (trace s))
  /\ teluguPlayCount s = streak "telugu" (playedLanguages (trace s))
  /\ marathiPlayCount s = streak "marathi" (playedLanguages (trace s)).

(** The history at the point where [playSong] looks the song up. *)
Definition historyOnPlay (id : string) (o : PlayOptions) (s : State) : list string :=
  match lastPlayedSongId s with
  | Some l =>
      if negb (fromHistory o) && truthyStr l && negb (String.eqb l id)
      then clampHistory (addToHistory l (previouslyPlayed s))
      else previouslyPlayed s
  | None => previouslyPlayed s
  end.

(** The entries of the queue that a decision may still replay. *)
Definition replaysLeft (s : State) : nat :=
  Z.to_nat (Z.of_nat (length (queue (suggestionState s))) - 1 - index (suggestionState s)).


(** Every id the script remembers as played is truthy and has its song
    object in the cache. *)
Definition knownIds (s : State) : Prop :=
  (forall x, lastPlayedSongId s = Some x -> truthyStr x = true -> cached s x)
  /\ (forall x, In x (previouslyPlayed s) -> truthyStr x = true /\ cached s x).

(** Nothing is queued and the cursor is at its start. *)
Definition idle (s : State) : Prop :=
  queue (suggestionState s) = [] /\ index (suggestionState s) = (-1)%Z.

(** Two states that agree on everything but the three language counters. *)
Definition sameButCounts (s1 s2 : State) : Prop :=
  previouslyPlayed s1 = previouslyPlayed s2
  /\ lastPlayedSongId s1 = lastPlayedSongId s2
  /\ songCache s1 = songCache s2
  /\ suggestionState s1 = suggestionState s2
  /\ recommender s1 = recommender s2
  /\ autoplay s1 = autoplay s2
  /\ tick s1 = tick s2
  /\ trace s1 = trace s2.

(** Two outcomes of a decision that agree on everything but the counters. *)
Definition sameOutcome (o1 o2 : option State) : Prop :=
  match o1, o2 with
  | Some a, Some b => sameButCounts a b
  | None, None => True
  | _, _ => False
  end.

(** Between [s] and [s'], [playSong] was not called with [X]. *)
Definition neverPlays (X : string) (s s' : State) : Prop :=
  exists new : list string,
    playedIds (trace s') = new ++ playedIds (trace s) /\ ~ In X new.

(** [X] is in the exclusion set, unless it is no id at all. *)
Definition excluded (X : string) (ex : list string) : Prop :=
  truthyStr X = true -> In X ex.

(** [X] is the last played id or an entry of the history, unless it is no
    id at all. *)
Definition known (X : string) (s : State) : Prop :=
  truthyStr X = true -> lastPlayedSongId s = Some X \/ In X (previouslyPlayed s).

Definition lastKnown (X : string) (s : State) : Prop :=
  truthyStr X = true -> lastPlayedSongId s = Some X.

(** The guard of a decision: the last played id is [X] and [X] is not
    queued (nothing is asked of an [X] that is no id at all). *)
Definition selfGuard (X : string) (s : State) : Prop :=
  truthyStr X = true ->
  lastPlayedSongId s = Some X /\ ~ In X (queue (suggestionState s)).

(** A play of [z] was recorded. *)
Definition recorded (z : string) (s : State) : Prop :=
  exists lang, In (EvRecorded z lang) (trace s).

(** The last played id is the id of a recorded play. *)
Definition lastRecorded (s : State) : Prop :=
  forall z, lastPlayedSongId s = Some z -> recorded z s.

(** Before the first recorded play nothing is queued or remembered. *)
Definition freshStart (s : State) : Prop :=
  lastPlayedSongId s = None ->
  queue (suggestionState s) = []
  /\ previouslyPlayed s = []
  /\ baseSongId (suggestionState s) = None.

(** Every queued id was queued while another id was the last played. *)
Definition queuedAfterOther (s : State) : Prop :=
  forall x, In x (queue (suggestionState s)) -> exists z, z <> x /\ recorded z s.

(** The three facts about a session that self-exclusion rests on. *)
Definition sessionInv (s : State) : Prop :=
  lastRecorded s /\ freshStart s /\ queuedAfterOther s.

(** The cursor points into the queue or stands before it, and every
    queued id is an id. *)
Definition cursorInRange (q : SuggestionState) : Prop :=
  (-1 <= index q <= Z.of_nat (length (queue q)) - 1)%Z
  /\ (forall x, In x (queue q) -> truthyStr x = true).

(** The queue can give the decision nothing: every entry behind the
    cursor is refused by the repeat gate.  It is so, in particular, when
    the queue is empty or used up. *)
Definition pendingRefused (s : State) : Prop :=
  forall (i : nat) (x : string),
    (index (suggestionState s) < Z.of_nat i)%Z ->
    nth_error (queue (suggestionState s)) i = Some x ->
    canPlaySong (Some x) (previouslyPlayed s) = false.

(** Between [s] and [s'], [playSong] was called at most [n] times, each
    time with an id that satisfies [P]. *)
Definition startsAtMost (n : nat) (P : string -> Prop) (s s' : State) : Prop :=
  exists new : list string,
    playedIds (trace s') = new ++ playedIds (trace s)
    /\ length new <= n
    /\ (forall x, In x new -> P x).

(** [k] requests were answered and nothing else happened. *)
Definition afterRequests (k : nat) (s : State) : State := Nat.iter k bump s.

(* ------------------------------------------------------------------ *)
(** ** Concrete worlds and sessions *)

(** The 41 entries X, a, b, ..., a, b, a, X. *)
Definition gapHistory : list string :=
  "X" :: flat_map (fun _ => ["a"; "b"]) (seq 0 19) ++ ["a"; "X"].

(** A suggestion list of 44 entries that names "X" three times: first,
    after forty other ids, and after one more. *)
Definition longSuggestions : list SuggestionItem :=
  map (fun id => Item (Some id))
      ("X" :: map (fun i => ("c" ++ string_of_nat i)%string) (seq 0 40) ++ ["X"; "d"; "X"]).

Definition longListWorld : World :=
  {| tfPresent := false;
     fetchEmbeddings := Throw;
     tfNormalize := fun _ => Throw;
     currentYear := 2024;
     fetchSong := fun _ id => Ok (Some (mkSong id "Song" "tamil" "2021" true));
     fetchSuggestions := fun _ _ => Ok longSuggestions;
     searchSongs := fun _ _ _ => Ok [];
     random := fun _ => 0 |}.

(** The listener picks a song and lets 43 tracks of its queue play. *)
Definition afterLongQueue : option State :=
  runEvents longListWorld (Select "S0" :: repeat Next 43) (boot longListWorld).

(** A catalog with a Telugu song of 2020 and a Malayalam song of 2024. *)
Definition teluguSong : Song := mkSong "te-0" "Base" "telugu" "2020" true.
Definition teluguNext : Song := mkSong "te-1" "Same language" "telugu" "2020" true.
Definition malayalamSong : Song := mkSong "ml-1" "Other language" "malayalam" "2024" true.

Definition diversityWorld : World :=
  {| tfPresent := false;
     fetchEmbeddings := Throw;
     tfNormalize := fun _ => Throw;
     currentYear := 2024;
     fetchSong := fun _ id =>
       if String.eqb id "te-0" then Ok (Some teluguSong)
       else if String.eqb id "te-1" then Ok (Some teluguNext)
       else if String.eqb id "ml-1" then Ok (Some malayalamSong)
       else Ok None;
     fetchSuggestions := fun _ _ => Ok [Item (Some "te-0")];
     searchSongs := fun _ q _ =>
       if String.eqb q "telugu 2020" then Ok [Some teluguSong; Some teluguNext]
       else if String.eqb q "malayalam 2024" then Ok [Some malayalamSong]
       else Ok [];
     random := fun _ => 0 |}.

(** The listener picks the Telugu song three times in a row. *)
Definition overplayedTelugu : option State :=
  runEvents diversityWorld [Select "te-0"; Select "te-0"; Select "te-0"]
            (boot diversityWorld).

(** The session after the listener picked the Telugu song once. *)
Definition afterFirstPlay : State :=
  playSong diversityWorld "te-0" explicitPlay (boot diversityWorld).

(** A world whose catalog has every song but answers no suggestion and no
    search. *)
Definition silentWorld : World :=
  {| tfPresent := true;
     fetchEmbeddings := Ok (mkEmbeddingsJson (Some ["a"; "b"]) None);
     tfNormalize := fun m => Ok m;
     currentYear := 2024;
     fetchSong := fun _ id => Ok (Some (mkSong id "Song" "Hindi" "2019" true));
     fetchSuggestions := fun _ _ => Ok [];
     searchSongs := fun _ _ _ => Ok [];
     random := fun n => n |}.

Definition afterSilentPlay : State :=
  playSong silentWorld "a" explicitPlay (boot silentWorld).

(** A provider that suggests "X" twice for every song. *)
Definition duplicateWorld : World :=
  {| tfPresent := false;
     fetchEmbeddings := Throw;
     tfNormalize := fun _ => Throw;
     currentYear := 2024;
     fetchSong := fun _ id => Ok (Some (mkSong id "Song" "tamil" "2021" true));
     fetchSuggestions := fun _ _ => Ok [Item (Some "X"); Item (Some "X")];
     searchSongs := fun _ _ _ => Ok [];
     random := fun _ => 0 |}.

(** Four rows of float32 entries; "a" and "c" coincide, and the row of
    "d" holds the float32 values next to 0.6 and 0.8. *)
Definition demoRecommender : TfjsRecommender :=
  {| ids := ["a"; "b"; "c"; "d"];
     idToIndex := indexIds ["a"; "b"; "c"; "d"] 0 [];
     embeddings := [[Finite 1; Finite 0]; [Finite 0; Finite 1]; [Finite 1; Finite 0];
                    [Finite (5033165 # 8388608); Finite (13421773 # 16777216)]];
     ready := true |}.

(** An engine that gives these rows their products with the row of "a"
    and leaves an array with an inconsistent comparison as it is. *)
Definition demoEngine : Engine :=
  {| tfMatMul := fun _ _ i =>
       nth i [Finite 1; Finite 0; Finite 1; Finite (5033165 # 8388608)] NaN;
     sortOrder := fun l => l |}.

Definition demoCandidate : Neighbor :=
  mkNeighbor 3 (Some "d") (Finite (5033165 # 8388608)).

(** Three rows; the engine computes the same float32 score,
    0.9486833214759827, for the rows of "b" and "c". *)
Definition tieRecommender : TfjsRecommender :=
  {| ids := ["q"; "b"; "c"];
     idToIndex := indexIds ["q"; "b"; "c"] 0 [];
     embeddings := [[Finite 1; Finite 0];
                    [Finite (15916265 # 16777216); Finite (5305423 # 16777216)];
                    [Finite (15916265 # 16777216); Finite (5305421 # 16777216)]];
     ready := true |}.

Definition tieEngine : Engine :=
  {| tfMatMul := fun _ _ i =>
       nth i [Finite 1; Finite (15916265 # 16777216); Finite (15916265 # 16777216)] NaN;
     sortOrder := fun l => l |}.

(** A provider that suggests "X", "B", "X" while the session is young and
    nothing afterwards; no search finds anything. *)
Definition dryingWorld : World :=
  {| tfPresent := false;
     fetchEmbeddings := Throw;
     tfNormalize := fun _ => Throw;
     currentYear := 2024;
     fetchSong := fun _ id => Ok (Some (mkSong id "Song" "tamil" "2021" true));
     fetchSuggestions := fun t _ =>
       if t <? 2 then Ok [Item (Some "X"); Item (Some "B"); Item (Some "X")] else Ok [];
     searchSongs := fun _ _ _ => Ok [];
     random := fun _ => 0 |}.

(** The listener picks "A" and lets two tracks of its queue play: the
    history is "A", "X", the queue "X", "B", "X" with the cursor at 1. *)
Definition afterOnePick : State :=
  playSong dryingWorld "A" explicitPlay (boot dryingWorld).

Definition afterOneNext : State :=
  match decideNext dryingWorld afterOnePick with
  | Some s => s
  | None => afterOnePick
  end.

Definition afterTwoNexts : State :=
  match decideNext dryingWorld afterOneNext with
  | Some s => s
  | None => afterOneNext
  end.

(** A catalog whose search for Telugu songs of 2020 finds the base track
    only, whose search for "popular" finds nothing, and whose search for
    Malayalam songs of 2024 finds a song. *)
Definition sweepOnlyWorld : World :=
  {| tfPresent := false;
     fetchEmbeddings := Throw;
     tfNormalize := fun _ => Throw;
     currentYear := 2024;
     fetchSong := fun _ id =>
       if String.eqb id "te-0" then Ok (Some teluguSong)
       else if String.eqb id "ml-1" then Ok (Some malayalamSong)
       else Ok None;
     fetchSuggestions := fun _ _ => Ok [Item (Some "te-0")];
     searchSongs := fun _ q _ =>
       if String.eqb q "telugu 2020" then Ok [Some teluguSong]
       else if String.eqb q "malayalam 2024" then Ok [Some malayalamSong]
       else Ok [];
     random := fun _ => 0 |}.

(** The listener picked the Telugu song three times in a row. *)
Definition teluguThrice : State :=
  playSong sweepOnlyWorld "te-0" explicitPlay
    (playSong sweepOnlyWorld "te-0" explicitPlay
       (playSong sweepOnlyWorld "te-0" explicitPlay (boot sweepOnlyWorld))).


(** A song object with two download entries; the one of the quality
    asked for has no URL. *)
Definition demoSongData : SongData :=
  {| sd_name := "What?";
     sd_primaryArtists := ["A/B"; "C"];
     sd_album := "Album";
     sd_year := "2020";
     sd_downloadUrl := [mkDownloadEntry "160kbps" "https://cdn/160.mp4";
                        mkDownloadEntry "320kbps" "https://cdn/320.mp4"] |}.

(* ------------------------------------------------------------------ *)
(** ** Proof automation *)

#[local] Arguments playSongCore : simpl never.
#[local] Arguments fallbackFreshSongsWithExclusion : simpl never.
#[local] Arguments playSong : simpl never.
#[local] Arguments prefetchSuggestionsFor : simpl never.

(* ------------------------------------------------------------------ *)
(** ** Play history: bound and adjacent entries *)

Lemma shiftWhileOver_length (cap : nat) (h : list string) :
  length (shiftWhileOver cap h) <= cap.
Proof.
  induction h as [|x t IH]; simpl.
  - lia.
  - destruct (Nat.ltb_spec cap (S (length t))); simpl; [exact IH | lia].
Qed.

Lemma shiftWhileOver_skipn (cap : nat) (h : list string) :
  shiftWhileOver cap h = skipn (length h - cap) h.
Proof.
  induction h as [|x t IH]; simpl.
  - now destruct cap.
  - destruct (Nat.ltb_spec cap (S (length t))) as [Hlt|Hge].
    + rewrite IH. destruct cap as [|c]; simpl.
      * now rewrite Nat.sub_0_r.
      * replace (length t - c) with (S (length t - S c)) by lia. reflexivity.
    + replace (match cap with 0 => S (length t) | S l => length t - l end) with 0.
      reflexivity. destruct cap; lia.
Qed.

Lemma shiftWhileOver_fits (cap : nat) (h : list string) :
  length h <= cap -> shiftWhileOver cap h = h.
Proof.
  intros H. rewrite shiftWhileOver_skipn.
  replace (length h - cap) with 0 by lia. reflexivity.
Qed.

Lemma lastEntry_app (h : list string) (x : string) : lastEntry (h ++ [x]) = Some x.
Proof.
  induction h as [|y t IH]; simpl; [reflexivity|].
  destruct (t ++ [x]) eqn:E; [now destruct t | exact IH].
Qed.

Lemma lastEntry_nil_iff (h : list string) : lastEntry h = None <-> h = [].
Proof.
  split; [|now intros ->].
  induction h as [|y t IH]; simpl; [reflexivity|].
  destruct t; [discriminate|]. intros H. apply IH in H. discriminate.
Qed.

Lemma addToHistory_length (id : string) (h : list string) :
  length h <= ANTI_REPEAT_CONFIG.maxHistorySize ->
  length (addToHistory id h) <= ANTI_REPEAT_CONFIG.maxHistorySize.
Proof.
  intros H. unfold addToHistory.
  destruct (negb (truthyStr id)); [exact H|].
  destruct (_ && _); [exact H | apply shiftWhileOver_length].
Qed.

Lemma historiesAfter_bounded (calls : list string) (h : list string) :
  length h <= ANTI_REPEAT_CONFIG.maxHistorySize ->
  Forall (fun h' => length h' <= ANTI_REPEAT_CONFIG.maxHistorySize) (historiesAfter calls h).
Proof.
  revert h; induction calls as [|id rest IH]; intros h H; simpl; constructor.
  - now apply addToHistory_length.
  - apply IH. now apply addToHistory_length.
Qed.

Lemma addToHistory_same_last (id : string) (h : list string) :
  lastEntry h = Some id -> addToHistory id h = h.
Proof.
  intros H. unfold addToHistory.
  destruct (negb (truthyStr id)); [reflexivity|].
  rewrite H, String.eqb_refl.
  destruct h; [discriminate | reflexivity].
Qed.

Lemma addToHistory_other_last (id : string) (h : list string) :
  truthyStr id = true -> lastEntry h <> Some id ->
  addToHistory id h =
  skipn (length (h ++ [id]) - ANTI_REPEAT_CONFIG.maxHistorySize) (h ++ [id]).
Proof.
  intros Ht H. unfold addToHistory. rewrite Ht. simpl negb. cbv iota.
  destruct (lastEntry h) as [l|] eqn:E.
  - destruct (String.eqb_spec l id) as [->|_]; [now elim H|].
    rewrite andb_false_r. apply shiftWhileOver_skipn.
  - rewrite andb_false_r. apply shiftWhileOver_skipn.
Qed.

(** C5.  Bounded history.  After each call of a sequence of [addToHistory]
    calls that starts from the empty history, the history holds at most
    [maxHistorySize] (200) entries.  For a track id (a non-empty string):
    a call with the id that is the current last entry changes nothing;
    any other call appends the id and then drops entries from the front,
    exactly as many as the length exceeds the capacity. *)
Theorem history_bounded :
  (forall calls : list string,
      Forall (fun h => length h <= ANTI_REPEAT_CONFIG.maxHistorySize)
             (historiesAfter calls []))
  /\ (forall (id : string) (h : list string),
         truthyStr id = true ->
         (lastEntry h = Some id -> addToHistory id h = h) /\
         (lastEntry h <> Some id ->
          addToHistory id h =
          skipn (length (h ++ [id]) - ANTI_REPEAT_CONFIG.maxHistorySize) (h ++ [id]))).
Proof.
  split.
  - intros calls. apply historiesAfter_bounded. simpl. lia.
  - intros id h Ht. split.
    + apply addToHistory_same_last.
    + now apply addToHistory_other_last.
Qed.

(** C5, at the calls a, a, b and at the history [b; a]. *)
Lemma history_bounded_witness :
  Forall (fun h => length h <= ANTI_REPEAT_CONFIG.maxHistorySize)
         (historiesAfter ["a"; "a"; "b"] [])
  /\ addToHistory "a" ["b"; "a"] = ["b"; "a"]
  /\ addToHistory "c" ["b"; "a"] = ["b"; "a"; "c"].
Proof.
  destruct history_bounded as [H1 H2].
  split; [apply H1|].
  destruct (H2 "a" ["b"; "a"] eq_refl) as [Ha _].
  destruct (H2 "c" ["b"; "a"] eq_refl) as [_ Hc].
  split.
  - apply Ha. reflexivity.
  - apply Hc. discriminate.
Defined.

Lemma noAdjacentDup_tl (h : list string) : noAdjacentDup h -> noAdjacentDup (tl h).
Proof.
  destruct h as [|x [|y t]]; simpl; auto. intros [_ H]. exact H.
Qed.

Lemma noAdjacentDup_shift (cap : nat) (h : list string) :
  noAdjacentDup h -> noAdjacentDup (shiftWhileOver cap h).
Proof.
  induction h as [|x t IH]; intros H; simpl; [exact I|].
  destruct (cap <? S (length t)); [|exact H].
  apply IH. exact (noAdjacentDup_tl (x :: t) H).
Qed.

Lemma noAdjacentDup_removelast (h : list string) :
  noAdjacentDup h -> noAdjacentDup (removelast h).
Proof.
  induction h as [|x t IH]; intros H; [exact I|].
  destruct t as [|y t']; [exact I|].
  destruct H as [Hxy H]. specialize (IH H).
  change (removelast (x :: y :: t')) with (x :: removelast (y :: t')).
  destruct t' as [|z t'']; [exact I|].
  change (removelast (y :: z :: t'')) with (y :: removelast (z :: t'')) in *.
  split; assumption.
Qed.

Lemma noAdjacentDup_snoc (h : list string) (x : string) :
  noAdjacentDup h -> lastEntry h <> Some x -> noAdjacentDup (h ++ [x]).
Proof.
  induction h as [|y t IH]; intros H Hl; [exact I|].
  destruct t as [|z t'].
  - simpl. split; [|exact I]. intros ->. now elim Hl.
  - destruct H as [Hyz H]. change ((y :: z :: t') ++ [x]) with (y :: z :: (t' ++ [x])).
    split; [exact Hyz|]. apply (IH H). exact Hl.
Qed.

Lemma noAdjacentDup_addToHistory (id : string) (h : list string) :
  noAdjacentDup h -> noAdjacentDup (addToHistory id h).
Proof.
  intros H. unfold addToHistory.
  destruct (negb (truthyStr id)); [exact H|].
  destruct (lastEntry h) as [l|] eqn:E.
  - destruct (String.eqb_spec l id) as [->|Hne].
    + rewrite andb_true_r. destruct h; [discriminate|exact H].
    + rewrite andb_false_r. apply noAdjacentDup_shift, noAdjacentDup_snoc; [exact H|].
      rewrite E. congruence.
  - rewrite andb_false_r. apply noAdjacentDup_shift, noAdjacentDup_snoc; [exact H|].
    rewrite E. discriminate.
Qed.

Lemma noAdjacentDup_apply (op : HistoryOp) (h : list string) :
  noAdjacentDup h -> noAdjacentDup (applyHistoryOp op h).
Proof.
  destruct op; simpl; intros H.
  - now apply noAdjacentDup_addToHistory.
  - now apply noAdjacentDup_shift.
  - now apply noAdjacentDup_tl.
  - now apply noAdjacentDup_removelast.
  - exact I.
Qed.

Lemma noAdjacentDup_run (ops : list HistoryOp) (h : list string) :
  noAdjacentDup h -> noAdjacentDup (runHistoryOps ops h).
Proof.
  revert h; induction ops as [|op rest IH]; intros h H; simpl; [exact H|].
  apply IH. now apply noAdjacentDup_apply.
Qed.


(** C6.  No adjacent duplicates.  After any sequence of history operations
    (append by [addToHistory], eviction from the front, removal of the most
    recent entry for the previous-track navigation, clearing), run from the
    empty history, no two consecutive entries are equal. *)
Theorem history_no_adjacent_duplicates :
  forall ops : list HistoryOp, noAdjacentDup (runHistoryOps ops []).
Proof.
  intros ops. apply noAdjacentDup_run. exact I.
Qed.

(* ------------------------------------------------------------------ *)
(** ** The repeat gate and the autoplay switch *)

Lemma indexOf_spec (x : string) (h : list string) :
  (indexOf x h = (-1)%Z /\ ~ In x h) \/
  (exists p : nat,
      indexOf x h = Z.of_nat p /\ nth_error h p = Some x /\
      forall q, q < p -> nth_error h q <> Some x).
Proof.
  induction h as [|y t IH]; simpl.
  - left. split; [reflexivity | tauto].
  - destruct (String.eqb_spec y x) as [->|Hne].
    + right. exists 0. split; [reflexivity|]. split; [reflexivity|]. intros q Hq; lia.
    + destruct IH as [[E Hn]|[p [E [Hp Hfirst]]]]; rewrite E.
      * left. split; [reflexivity|]. intros [H|H]; [congruence | tauto].
      * right. exists (S p).
        replace (Z.of_nat p =? -1)%Z with false by (symmetry; apply Z.eqb_neq; lia).
        split; [lia|]. split; [exact Hp|].
        intros [|q] Hq; simpl; [congruence | apply Hfirst; lia].
Qed.

(** What the gate of the code computes: it refuses [id] exactly when the
    FIRST occurrence of [id] lies within the last [minHistoryBeforeRepeat]
    entries. *)
Lemma canPlaySong_first_occurrence (id : string) (h : list string) :
  truthyStr id = true ->
  (canPlaySong (Some id) h = false <->
   exists p : nat,
     nth_error h p = Some id /\
     (forall q, q < p -> nth_error h q <> Some id) /\
     (Z.of_nat (length h) - Z.of_nat p < ANTI_REPEAT_CONFIG.minHistoryBeforeRepeat)%Z).
Proof.
  intros Ht. unfold canPlaySong. simpl negb. cbv iota. rewrite Ht. simpl negb. cbv iota.
  destruct (indexOf_spec id h) as [[E Hn]|[p [E [Hp Hfirst]]]]; rewrite E.
  - simpl. split; [discriminate|]. intros [p [Hp _]]. elim Hn. eapply nth_error_In; eauto.
  - replace (Z.of_nat p =? -1)%Z with false by (symmetry; apply Z.eqb_neq; lia).
    rewrite Z.leb_gt. split.
    + intros H. exists p. auto.
    + intros [p' [Hp' [Hfirst' H]]].
      assert (p' = p); [|subst; exact H].
      destruct (Nat.lt_trichotomy p' p) as [Hlt|[Heq|Hgt]]; [|exact Heq|].
      * elim (Hfirst p' Hlt). exact Hp'.
      * elim (Hfirst' p Hgt). exact Hp.
Qed.

(** Where the gate of the code and the gate of the specification agree:
    on an id that occurs at most once in the history. *)
Lemma canPlaySong_single_occurrence (id : string) (h : list string) :
  truthyStr id = true ->
  (forall p q, nth_error h p = Some id -> nth_error h q = Some id -> p = q) ->
  (canPlaySong (Some id) h = false <->
   isRecentlyPlayed_spec id ANTI_REPEAT_CONFIG.minHistoryBeforeRepeat h).
Proof.
  intros Ht Huniq. rewrite (canPlaySong_first_occurrence id h Ht). split.
  - intros (p & Hp & _ & Hrecent). exists p. auto.
  - intros (p & Hp & Hrecent). exists p. split; [exact Hp|]. split; [|exact Hrecent].
    intros q Hq Hqp. specialize (Huniq p q Hp Hqp). lia.
Qed.

(** C2.  The repeat gate at a history of 41 entries that [addToHistory]
    itself builds, with X first and last: X occurs at position 40, one entry
    from the end, so the gate of the specification (an occurrence at a
    position [p] with [length - p < minHistoryBeforeRepeat]) holds; yet
    [canPlaySong] answers [true], because [indexOf] finds the occurrence at
    position 0, 41 entries back. *)
Theorem canPlaySong_ignores_latest_occurrence :
  runHistoryOps (map OpAppend gapHistory) [] = gapHistory
  /\ lastEntry gapHistory = Some "X"
  /\ isRecentlyPlayed_spec "X" ANTI_REPEAT_CONFIG.minHistoryBeforeRepeat gapHistory
  /\ canPlaySong (Some "X") gapHistory = true.
Proof.
  split; [vm_compute; reflexivity|].
  split; [vm_compute; reflexivity|].
  split; [|vm_compute; reflexivity].
  exists 40. split; vm_compute; reflexivity.
Qed.

(** C10.  Autoplay switched off.  When the autoplay setting is [false] the
    track-ended handler returns the state as it was: no call of [playSong],
    same history, last played id, queue, cursor and language counters.  It
    is so in particular right after the settings toggle wrote [false]. *)
Theorem autoplay_off_frame :
  (forall (w : World) (s : State), autoplay s = Some false -> onEnded w s = Some s)
  /\ (forall (w : World) (s s1 : State),
         step w (SetAutoplay (Some false)) s = Some s1 -> step w Ended s1 = Some s1).
Proof.
  split.
  - intros w s H. unfold onEnded. now rewrite H.
  - intros w s s1 H. simpl in H. injection H as <-. reflexivity.
Qed.

(** The first-occurrence gate in a session.  The queue of one suggestion
    list is replayed; "X" was played 42 and 2 tracks ago and "d" is
    playing.  The history ends with "X", so the gate of the specification
    refuses "X"; the gate of the code measures from the first "X" and the
    decision plays "X" again. *)
Lemma repeat_gate_in_a_session :
  exists s s',
    afterLongQueue = Some s
    /\ lastPlayedSongId s = Some "d"
    /\ lastEntry (previouslyPlayed s) = Some "X"
    /\ isRecentlyPlayed_spec "X" ANTI_REPEAT_CONFIG.minHistoryBeforeRepeat (previouslyPlayed s)
    /\ canPlaySong (Some "X") (previouslyPlayed s) = true
    /\ decideNext longListWorld s = Some s'
    /\ playedIds (trace s') = "X" :: playedIds (trace s).
Proof.
  eexists. eexists.
  split; [vm_compute; reflexivity|].
  split; [vm_compute; reflexivity|].
  split; [vm_compute; reflexivity|].
  split; [exists 42; split; vm_compute; reflexivity|].
  split; [vm_compute; reflexivity|].
  split; vm_compute; reflexivity.
Qed.

(* ------------------------------------------------------------------ *)
(** ** Nearest neighbours *)

Lemma hd_tl_nth (l : list string) (k : nat) :
  nth_error (tl l) k = nth_error l (S k).
Proof. destruct l; [now destruct k | reflexivity]. Qed.

Lemma scanSims_In (songId : string) (excludeIds : list string) (sims : list JsNumber) :
  forall (i : nat) (idsFrom : list string) (n : Neighbor),
    In n (scanSims songId excludeIds i idsFrom sims) <->
    scanned songId excludeIds i idsFrom sims n.
Proof.
  induction sims as [|sc sims IH]; intros i idsFrom n; simpl.
  - split; [tauto|]. intros (_ & H & _). now destruct (nb_pos n - i).
  - assert (Hrest : In n (scanSims songId excludeIds (S i) (tl idsFrom) sims) <->
                    (S i <= nb_pos n /\ scanned songId excludeIds i idsFrom (sc :: sims) n)).
    { rewrite IH. unfold scanned. rewrite hd_tl_nth.
      split.
      - intros (Hle & Hs & Hid & Hq & Hex).
        replace (nb_pos n - i) with (S (nb_pos n - S i)) by lia.
        simpl. repeat split; auto; lia.
      - intros (Hle & _ & Hs & Hid & Hq & Hex).
        replace (nb_pos n - i) with (S (nb_pos n - S i)) in Hs, Hid by lia.
        simpl in Hs. repeat split; auto. }
    assert (Hhead : forall o, hd_error idsFrom = o ->
                nb_pos n = i -> (scanned songId excludeIds i idsFrom (sc :: sims) n <->
                                 (n = mkNeighbor i o sc /\ o <> Some songId /\
                                  forall x, o = Some x -> setHas excludeIds x = false))).
    { intros o Ho Hp. unfold scanned. rewrite Hp, Nat.sub_diag.
      assert (Hz : nth_error idsFrom 0 = o) by (rewrite <- Ho; now destruct idsFrom).
      rewrite Hz. simpl nth_error. split.
      - intros (_ & Hs & Hid & Hq & Hex). rewrite Hid in Hq, Hex.
        split; [|split; assumption].
        destruct n as [p nid nsc]; simpl in Hp, Hs, Hid. congruence.
      - intros (Hn & Hq & Hex). rewrite Hn. simpl.
        split; [lia|]. split; [reflexivity|]. split; [reflexivity|]. split; assumption. }
    assert (Hsplit : scanned songId excludeIds i idsFrom (sc :: sims) n ->
                     nb_pos n = i \/ S i <= nb_pos n).
    { intros (Hle & _). lia. }
    destruct (hd_error idsFrom) as [x|] eqn:Hhd.
    + destruct (String.eqb_spec x songId) as [->|Hne].
      * rewrite Hrest. split; [tauto|]. intros Hs. split; [|exact Hs].
        destruct (Hsplit Hs) as [Hp|Hp]; [|exact Hp].
        apply (Hhead _ eq_refl Hp) in Hs. destruct Hs as (_ & Hq & _). now elim Hq.
      * destruct (setHas excludeIds x) eqn:Hex.
        -- rewrite Hrest. split; [tauto|]. intros Hs. split; [|exact Hs].
           destruct (Hsplit Hs) as [Hp|Hp]; [|exact Hp].
           apply (Hhead _ eq_refl Hp) in Hs. destruct Hs as (_ & _ & Hx).
           specialize (Hx x eq_refl). congruence.
        -- simpl. rewrite Hrest. split.
           ++ intros [<-|H]; [|tauto]. apply (Hhead _ eq_refl eq_refl).
              split; [reflexivity|]. split; [congruence|]. intros y [= <-]. exact Hex.
           ++ intros Hs. destruct (Hsplit Hs) as [Hp|Hp]; [|tauto].
              left. apply (Hhead _ eq_refl Hp) in Hs. symmetry. tauto.
    + simpl. rewrite Hrest. split.
      * intros [<-|H]; [|tauto]. apply (Hhead _ eq_refl eq_refl).
        split; [reflexivity|]. split; discriminate.
      * intros Hs. destruct (Hsplit Hs) as [Hp|Hp]; [|tauto].
        left. apply (Hhead _ eq_refl Hp) in Hs. symmetry. tauto.
Qed.

Lemma scanSims_positions (songId : string) (excludeIds : list string) (sims : list JsNumber) :
  forall (i : nat) (idsFrom : list string),
    StronglySorted posBefore (scanSims songId excludeIds i idsFrom sims).
Proof.
  induction sims as [|sc sims IH]; intros i idsFrom; simpl; [constructor|].
  assert (Hcons : forall o, StronglySorted posBefore
                    (mkNeighbor i o sc :: scanSims songId excludeIds (S i) (tl idsFrom) sims)).
  { intros o. constructor; [apply IH|]. apply Forall_forall. intros n Hn.
    apply (proj1 (scanSims_In _ _ _ _ _ _)) in Hn. destruct Hn as (Hle & _). unfold posBefore. simpl. lia. }
  destruct (hd_error idsFrom) as [x|]; [|apply Hcons].
  destruct (String.eqb x songId); [apply IH|].
  destruct (setHas excludeIds x); [apply IH | apply Hcons].
Qed.

Lemma signOfDifference_opp (y x : JsNumber) :
  signOfDifference y x = CompOpp (signOfDifference x y).
Proof.
  destruct y as [a| | |], x as [b| | |]; simpl; try reflexivity.
  symmetry. apply Qcompare_antisym.
Qed.

Lemma signOfDifference_trans (a b c : JsNumber) :
  isNaN a = false -> isNaN b = false -> isNaN c = false ->
  signOfDifference a b <> Lt -> signOfDifference b c <> Lt ->
  signOfDifference a c <> Lt.
Proof.
  destruct a as [x| | |], b as [y| | |], c as [z| | |]; simpl;
    intros Ha Hb Hc H1 H2; try discriminate; try congruence.
  intros H. apply Qlt_alt in H.
  assert (Hyx : (y <= x)%Q).
  { apply Qnot_lt_le. intros H3. apply H1. now apply Qlt_alt. }
  assert (Hzy : (z <= y)%Q).
  { apply Qnot_lt_le. intros H3. apply H2. now apply Qlt_alt. }
  lra.
Qed.

Lemma insertByScore_In (x n : Neighbor) (l : list Neighbor) :
  In n (insertByScore x l) <-> n = x \/ In n l.
Proof.
  induction l as [|y t IH]; simpl.
  - intuition auto.
  - destruct (compareFn x y); simpl; rewrite ?IH; intuition auto.
Qed.

Lemma insertionSort_In (n : Neighbor) (l : list Neighbor) :
  In n (fold_right insertByScore [] l) <-> In n l.
Proof.
  induction l as [|x t IH]; simpl; [tauto|].
  rewrite insertByScore_In, IH. intuition auto.
Qed.

Lemma insertByScore_length (x : Neighbor) (l : list Neighbor) :
  length (insertByScore x l) = S (length l).
Proof.
  induction l as [|y t IH]; simpl; [reflexivity|].
  destruct (compareFn x y); simpl; try reflexivity. now rewrite IH.
Qed.

Lemma sortByScoreDesc_In (e : Engine) (n : Neighbor) (l : list Neighbor) :
  sortPermutes e -> (In n (sortByScoreDesc e l) <-> In n l).
Proof.
  intros Hp. unfold sortByScoreDesc.
  destruct (existsb _ l).
  - split; intros H.
    + exact (Permutation_in n (Hp l) H).
    + exact (Permutation_in n (Permutation_sym (Hp l)) H).
  - apply insertionSort_In.
Qed.

Lemma sortByScoreDesc_noNaN (e : Engine) (l : list Neighbor) :
  noNaN l -> sortByScoreDesc e l = fold_right insertByScore [] l.
Proof.
  intros H. unfold sortByScoreDesc.
  destruct (existsb (fun n => isNaN (nb_score n)) l) eqn:E; [|reflexivity].
  apply existsb_exists in E. destruct E as (n & Hn & Hnan).
  rewrite (H n Hn) in Hnan. discriminate.
Qed.

Lemma insertByScore_sorted (x : Neighbor) (l : list Neighbor) :
  isNaN (nb_score x) = false -> noNaN l ->
  StronglySorted ranksBefore l ->
  Forall (posBefore x) l ->
  StronglySorted ranksBefore (insertByScore x l).
Proof.
  intros Hx. induction l as [|y t IH]; intros Hn Hs Hp; simpl.
  - repeat constructor.
  - inversion Hs as [|? ? Hst Hy]; subst. inversion Hp as [|? ? Hxy Hpt]; subst.
    assert (Hny : isNaN (nb_score y) = false) by (apply Hn; now left).
    assert (Hnt : noNaN t) by (intros z Hz; apply Hn; now right).
    assert (Hfirst : compareFn x y <> Gt ->
                     StronglySorted ranksBefore (x :: y :: t)).
    { intros Hc. unfold compareFn in Hc.
      assert (Hxy0 : signOfDifference (nb_score x) (nb_score y) <> Lt).
      { rewrite signOfDifference_opp. destruct (signOfDifference (nb_score y) (nb_score x));
          simpl; congruence. }
      assert (Hrank : forall z, isNaN (nb_score z) = false ->
                                signOfDifference (nb_score x) (nb_score z) <> Lt ->
                                posBefore x z -> ranksBefore x z).
      { intros z _ Hz Hpz. unfold ranksBefore.
        destruct (signOfDifference (nb_score x) (nb_score z)); [right|congruence|left]; auto. }
      constructor; [exact Hs|]. constructor; [now apply Hrank|].
      apply Forall_forall. intros z Hz.
      pose proof (proj1 (Forall_forall _ _) Hy z Hz) as Hyz.
      pose proof (proj1 (Forall_forall _ _) Hpt z Hz) as Hxz.
      apply Hrank; [now apply Hnt | | exact Hxz].
      apply (signOfDifference_trans _ (nb_score y)); auto.
      destruct Hyz as [E | [E _]]; rewrite E; discriminate. }
    destruct (compareFn x y) eqn:E.
    + apply Hfirst. discriminate.
    + apply Hfirst. discriminate.
    + constructor; [apply IH; assumption|].
      apply Forall_forall. intros z Hz. apply (proj1 (insertByScore_In _ _ _)) in Hz.
      destruct Hz as [->|Hz]; [now left|].
      exact (proj1 (Forall_forall _ _) Hy z Hz).
Qed.

Lemma insertionSort_sorted (l : list Neighbor) :
  noNaN l -> StronglySorted posBefore l ->
  StronglySorted ranksBefore (fold_right insertByScore [] l).
Proof.
  induction l as [|x t IH]; intros Hn H; simpl; [constructor|].
  inversion H as [|? ? Ht Hx]; subst.
  assert (Hnt : noNaN t) by (intros z Hz; apply Hn; now right).
  apply insertByScore_sorted.
  - apply Hn. now left.
  - intros z Hz. apply (proj1 (insertionSort_In _ _)) in Hz. now apply Hnt.
  - now apply IH.
  - apply Forall_forall. intros z Hz. apply (proj1 (insertionSort_In _ _)) in Hz.
    exact (proj1 (Forall_forall _ _) Hx z Hz).
Qed.

Lemma sortByScoreDesc_sorted (e : Engine) (l : list Neighbor) :
  noNaN l -> StronglySorted posBefore l ->
  StronglySorted ranksBefore (sortByScoreDesc e l).
Proof.
  intros Hn Hs. rewrite sortByScoreDesc_noNaN by exact Hn.
  now apply insertionSort_sorted.
Qed.

Lemma firstn_In_incl {A : Type} (k : nat) (l : list A) (x : A) :
  In x (firstn k l) -> In x l.
Proof.
  intros H. rewrite <- (firstn_skipn k l). apply in_or_app. now left.
Qed.

Lemma StronglySorted_app_inv {A : Type} (R : A -> A -> Prop) (l1 l2 : list A) :
  StronglySorted R (l1 ++ l2) ->
  StronglySorted R l1 /\ forall a b, In a l1 -> In b l2 -> R a b.
Proof.
  induction l1 as [|x t IH]; simpl; intros H.
  - split; [constructor | intros a b []].
  - inversion H as [|? ? Ht Hx]; subst. destruct (IH Ht) as [Hs Hab].
    split.
    + constructor; [exact Hs|]. apply Forall_forall. intros z Hz.
      apply (proj1 (Forall_forall _ _) Hx). apply in_or_app. now left.
    + intros a b [<-|Ha] Hb.
      * apply (proj1 (Forall_forall _ _) Hx). apply in_or_app. now right.
      * now apply Hab.
Qed.

Lemma idToIndex_get_indexIds (k : string) (l : list string) :
  forall (i : nat) (m : list (string * nat)) (idx : nat),
    idToIndex_get k (indexIds l i m) = Some idx ->
    idx < i + length l \/ idToIndex_get k m = Some idx.
Proof.
  induction l as [|x t IH]; intros i m idx H; simpl in *.
  - now right.
  - apply IH in H. destruct H as [H|H]; [left; lia|].
    simpl in H. destruct (String.eqb x k).
    + injection H as <-. left. lia.
    + now right.
Qed.

Lemma getNearestNeighbors_unfold (e : Engine) (r : TfjsRecommender) (songId : string)
      (topK : nat) (excludeIds : list string) (res : list Neighbor) :
  getNearestNeighbors e r songId topK excludeIds = Ok res ->
  res = [] \/
  exists idx query,
    ready r = true /\
    idToIndex_get songId (idToIndex r) = Some idx /\
    nth_error (embeddings r) idx = Some query /\
    res = firstn topK
            (sortByScoreDesc e
               (if length (simsOf e r query) =? 1 then []
                else scanSims songId excludeIds 0 (ids r) (simsOf e r query))).
Proof.
  unfold getNearestNeighbors, simsOf. intros H.
  destruct (ready r); simpl in H; [|left; congruence].
  destruct (idToIndex_get songId (idToIndex r)) as [idx|]; [|left; congruence].
  destruct (nth_error (embeddings r) idx) as [query|] eqn:Eq; [|discriminate].
  right. exists idx, query. repeat split; congruence.
Qed.

Lemma simsOf_nth (e : Engine) (r : TfjsRecommender) (query : list JsNumber)
      (p : nat) (x : JsNumber) :
  nth_error (simsOf e r query) p = Some x ->
  p < length (embeddings r) /\ x = tfMatMul e (embeddings r) query p.
Proof.
  unfold simsOf. intros H.
  assert (Hp : p < length (embeddings r)).
  { assert (Hn : nth_error (map (tfMatMul e (embeddings r) query)
                                (seq 0 (length (embeddings r)))) p <> None) by congruence.
    apply nth_error_Some in Hn. now rewrite length_map, length_seq in Hn. }
  split; [exact Hp|].
  rewrite nth_error_map, nth_error_seq in H.
  destruct (p <? length (embeddings r)) eqn:E; simpl in H; [congruence|].
  apply Nat.ltb_ge in E. lia.
Qed.

Lemma candidates_scanned (e : Engine) (r : TfjsRecommender) (songId : string)
      (excludeIds : list string) (query : list JsNumber) (n : Neighbor) :
  In n (if length (simsOf e r query) =? 1 then []
        else scanSims songId excludeIds 0 (ids r) (simsOf e r query)) ->
  scanned songId excludeIds 0 (ids r) (simsOf e r query) n.
Proof.
  destruct (length (simsOf e r query) =? 1); [intros []|]. now apply scanSims_In.
Qed.

Lemma candidates_positions (e : Engine) (r : TfjsRecommender) (songId : string)
      (excludeIds : list string) (query : list JsNumber) :
  StronglySorted posBefore
    (if length (simsOf e r query) =? 1 then []
     else scanSims songId excludeIds 0 (ids r) (simsOf e r query)).
Proof.
  destruct (length (simsOf e r query) =? 1); [constructor | apply scanSims_positions].
Qed.

Lemma candidates_noNaN (e : Engine) (r : TfjsRecommender) (songId : string)
      (excludeIds : list string) (query : list JsNumber) :
  (forall x, In x (simsOf e r query) -> isNaN x = false) ->
  noNaN (if length (simsOf e r query) =? 1 then []
         else scanSims songId excludeIds 0 (ids r) (simsOf e r query)).
Proof.
  intros H n Hn. apply candidates_scanned in Hn.
  destruct Hn as (_ & Hs & _). apply H. exact (nth_error_In _ _ Hs).
Qed.

(** C7.  Postcondition of [getNearestNeighbors], with the scores that
    TF.js computed (float32 products, whatever their rounding) and the
    sort of the engine.  The result is empty when the recommender is not
    ready or the id is not indexed.  Every result differs from the query
    id, is outside the exclude set, and carries the id of its catalog
    position and the score that TF.js computed for the row at that
    position; there are at most [topK] results.  When no computed score is
    [NaN], a higher computed score comes first and among equal computed
    scores the earlier catalog position, and a candidate that is left out
    ranks after all [topK] results.  On a recommender whose ids all have a
    row the call returns a result. *)
Theorem nearestNeighbors_postcondition :
  forall (e : Engine) (r : TfjsRecommender) (songId : string) (topK : nat)
         (excludeIds : list string),
    (ready r = false \/ idToIndex_get songId (idToIndex r) = None ->
     getNearestNeighbors e r songId topK excludeIds = Ok [])
    /\ (sortPermutes e ->
        forall res,
          getNearestNeighbors e r songId topK excludeIds = Ok res ->
          (forall n, In n res ->
                     nb_id n <> Some songId /\
                     (forall x, nb_id n = Some x -> setHas excludeIds x = false) /\
                     nb_id n = nth_error (ids r) (nb_pos n) /\
                     exists idx query,
                       idToIndex_get songId (idToIndex r) = Some idx /\
                       nth_error (embeddings r) idx = Some query /\
                       nb_pos n < length (embeddings r) /\
                       nb_score n = tfMatMul e (embeddings r) query (nb_pos n))
          /\ length res <= topK)
    /\ (scoresAreNumbers e r songId ->
        forall res,
          getNearestNeighbors e r songId topK excludeIds = Ok res ->
          StronglySorted ranksBefore res
          /\ (forall idx query c,
                 ready r = true ->
                 idToIndex_get songId (idToIndex r) = Some idx ->
                 nth_error (embeddings r) idx = Some query ->
                 length (embeddings r) <> 1 ->
                 scanned songId excludeIds 0 (ids r) (simsOf e r query) c ->
                 In c res \/ (length res = topK /\ forall n, In n res -> ranksBefore n c)))
    /\ (wellIndexed r ->
        exists res, getNearestNeighbors e r songId topK excludeIds = Ok res).
Proof.
  intros e r songId topK excludeIds. split; [|split; [|split]].
  - unfold getNearestNeighbors. intros [H|H].
    + now rewrite H.
    + rewrite H. now destruct (ready r).
  - intros Hperm res H. apply getNearestNeighbors_unfold in H.
    destruct H as [->|(idx & query & Hr & Hi & Hq & ->)].
    { split; [intros n [] | simpl; lia]. }
    split; [|apply firstn_le_length].
    intros n Hn. apply firstn_In_incl in Hn.
    apply (proj1 (sortByScoreDesc_In e _ _ Hperm)) in Hn.
    apply candidates_scanned in Hn.
    destruct Hn as (_ & Hsc & Hid & Hne & Hex). rewrite Nat.sub_0_r in Hsc, Hid.
    split; [exact Hne|]. split; [exact Hex|]. split; [exact Hid|].
    apply simsOf_nth in Hsc. destruct Hsc as [Hp Hs].
    exists idx, query. auto.
  - intros Hnum res H. split.
    + apply getNearestNeighbors_unfold in H.
      destruct H as [->|(idx & query & Hr & Hi & Hq & ->)]; [constructor|].
      assert (Hn : noNaN (if length (simsOf e r query) =? 1 then []
                          else scanSims songId excludeIds 0 (ids r) (simsOf e r query))).
      { apply candidates_noNaN. intros x Hx. exact (Hnum idx query x Hi Hq Hx). }
      pose proof (sortByScoreDesc_sorted e _ Hn
                    (candidates_positions e r songId excludeIds query)) as Hs.
      rewrite <- (firstn_skipn topK (sortByScoreDesc e _)) in Hs.
      now apply StronglySorted_app_inv in Hs.
    + intros idx query c Hr Hi Hq Hrows Hc.
      assert (Hlen : (length (simsOf e r query) =? 1) = false).
      { unfold simsOf. rewrite length_map, length_seq. now apply Nat.eqb_neq. }
      unfold getNearestNeighbors in H. rewrite Hr, Hi, Hq in H. simpl in H.
      fold (simsOf e r query) in H. rewrite Hlen in H. injection H as <-.
      assert (Hn : noNaN (scanSims songId excludeIds 0 (ids r) (simsOf e r query))).
      { intros n Hn. apply scanSims_In in Hn. destruct Hn as (_ & Hs & _).
        apply (Hnum idx query); auto. exact (nth_error_In _ _ Hs). }
      set (full := sortByScoreDesc e (scanSims songId excludeIds 0 (ids r) (simsOf e r query))).
      assert (Hin : In c full).
      { unfold full. rewrite sortByScoreDesc_noNaN by exact Hn.
        apply insertionSort_In. now apply scanSims_In. }
      assert (Hs : StronglySorted ranksBefore full).
      { apply sortByScoreDesc_sorted; [exact Hn | apply scanSims_positions]. }
      rewrite <- (firstn_skipn topK full) in Hin, Hs.
      apply in_app_or in Hin. destruct Hin as [Hin|Hin]; [now left|].
      right. apply StronglySorted_app_inv in Hs. destruct Hs as [_ Hs]. split.
      * apply firstn_length_le.
        destruct (Nat.le_gt_cases topK (length full)) as [Hle|Hgt]; [exact Hle|].
        rewrite skipn_all2 in Hin by lia. destruct Hin.
      * intros n Hn'. now apply Hs.
  - intros [Hm Hl]. unfold getNearestNeighbors.
    destruct (ready r); simpl; [|eauto].
    destruct (idToIndex_get songId (idToIndex r)) as [idx|] eqn:Hi; [|eauto].
    rewrite Hm in Hi. apply idToIndex_get_indexIds in Hi.
    destruct Hi as [Hi|Hi]; [|discriminate].
    destruct (nth_error (embeddings r) idx) as [query|] eqn:Eq; [eauto|].
    apply nth_error_None in Eq. lia.
Qed.

(* ------------------------------------------------------------------ *)
(** ** How a decision transforms the state *)

Lemma runHistoryOps_app (ops1 ops2 : list HistoryOp) (h : list string) :
  runHistoryOps (ops1 ++ ops2) h = runHistoryOps ops2 (runHistoryOps ops1 h).
Proof. unfold runHistoryOps. apply fold_left_app. Qed.

Lemma historyDropped_refl (h : list string) : historyDropped h h.
Proof. exists []. split; [constructor | reflexivity]. Qed.

Lemma historyDropped_nil (h : list string) : historyDropped h [].
Proof. exists [OpClear]. split; [repeat constructor; now right | reflexivity]. Qed.

Lemma historyDropped_removelast (h : list string) : historyDropped h (removelast h).
Proof. exists [OpPop]. split; [repeat constructor; now left | reflexivity]. Qed.

Lemma historyDropped_trans (h1 h2 h3 : list string) :
  historyDropped h1 h2 -> historyDropped h2 h3 -> historyDropped h1 h3.
Proof.
  intros (ops1 & H1 & ->) (ops2 & H2 & ->). exists (ops1 ++ ops2). split.
  - apply Forall_app. now split.
  - symmetry. apply runHistoryOps_app.
Qed.

Lemma incl_removelast {A : Type} (l : list A) : incl (removelast l) l.
Proof.
  induction l as [|x t IH]; [apply incl_refl|].
  destruct t as [|y t']; [apply incl_nil_l|].
  change (removelast (x :: y :: t')) with (x :: removelast (y :: t')).
  intros z [<-|Hz]; [now left | right; now apply IH].
Qed.

Lemma historyDropped_incl (h h' : list string) : historyDropped h h' -> incl h' h.
Proof.
  intros (ops & Hops & ->). revert h.
  induction Hops as [|op ops Hop _ IH]; intros h; [apply incl_refl|].
  simpl. eapply incl_tran; [apply IH|].
  destruct Hop as [-> | ->]; [apply incl_removelast | apply incl_nil_l].
Qed.

Lemma quiet_refl (s : State) : quiet s s.
Proof. unfold quiet. repeat split; auto using historyDropped_refl. Qed.

Lemma quiet_trans (s1 s2 s3 : State) : quiet s1 s2 -> quiet s2 s3 -> quiet s1 s3.
Proof.
  unfold quiet. intros (?&?&?&?&?&?&Hi&Hc) (?&?&?&?&?&?&Hi'&Hc').
  repeat split; try congruence.
  - eapply historyDropped_trans; eauto.
  - auto.
Qed.

Lemma cached_same (s s' : State) (x : string) :
  songCache s' = songCache s -> cached s x -> cached s' x.
Proof. unfold cached. now intros ->. Qed.

Lemma cached_set (k : string) (v : Song) (s s' : State) (x : string) :
  songCache s' = cache_set k v (songCache s) -> cached s x -> cached s' x.
Proof.
  unfold cached. intros ->. simpl. destruct (String.eqb k x); [discriminate | auto].
Qed.

Ltac quiet_tac :=
  unfold quiet; simpl; repeat split;
  first [ reflexivity
        | apply historyDropped_refl
        | apply historyDropped_nil
        | apply historyDropped_removelast
        | intros x Hx;
          first [ eapply cached_same; [|exact Hx]; reflexivity
                | eapply cached_set; [|exact Hx]; reflexivity ] ].

(** Case analysis on an innermost scrutinee of the goal. *)
Ltac break_match :=
  match goal with
  | |- context [match ?x with _ => _ end] =>
      lazymatch x with
      | context [match _ with _ => _ end] => fail
      | _ => destruct x eqn:?
      end
  end.

Section Evolution.

Variable w : World.

Lemma evolves_refl (s : State) : evolves w s s.
Proof. apply evolves_quiet, quiet_refl. Qed.

Lemma evolves_quiet_l (s1 s2 s3 : State) :
  quiet s1 s2 -> evolves w s2 s3 -> evolves w s1 s3.
Proof.
  intros Hq H. destruct H as [s s' H|s sm id o s' H H'].
  - apply evolves_quiet. eapply quiet_trans; eauto.
  - eapply evolves_play; [|exact H']. eapply quiet_trans; eauto.
Qed.

Lemma evolves_trans (s1 s2 s3 : State) :
  evolves w s1 s2 -> evolves w s2 s3 -> evolves w s1 s3.
Proof.
  intros H. revert s3. induction H as [s s' H|s sm id o s' H H' IH]; intros s3 H3.
  - eapply evolves_quiet_l; eauto.
  - eapply evolves_play; [exact H|]. now apply IH.
Qed.

Lemma evolves_playSongCore (id : string) (o : PlayOptions) (s : State) :
  evolves w s (fst (playSongCore w id o s)).
Proof. eapply evolves_play; [apply quiet_refl | apply evolves_refl]. Qed.

(** An invariant of the session-level fields holds along [evolves]. *)
Lemma evolves_invariant (P : State -> Prop) :
  (forall s s', quiet s s' -> P s -> P s') ->
  (forall id o s, P s -> P (fst (playSongCore w id o s))) ->
  forall s s', evolves w s s' -> P s -> P s'.
Proof.
  intros Hq Hp s s' H. induction H as [s s' H|s sm id o s' H H' IH]; intros HP.
  - eapply Hq; eauto.
  - apply IH. apply Hp. eapply Hq; eauto.
Qed.

Lemma evolves_fallback (s : State) :
  evolves w s (fallbackFreshSongsWithExclusion w s).
Proof.
  unfold fallbackFreshSongsWithExclusion, popularTier, fetchPopularRandomSong,
    pickRandom, clearHistoryAndQueue.
  repeat (simpl; break_match); simpl;
    first [ apply evolves_quiet; quiet_tac
          | eapply evolves_play; [|apply evolves_refl]; quiet_tac ].
Qed.

Lemma playSongCore_not_started (id : string) (o : PlayOptions) (s : State) :
  fromAutoplay o = true \/ fromHistory o = true ->
  snd (playSongCore w id o s) = false.
Proof.
  intros H. unfold playSongCore.
  destruct (lookupSong w id _) as [[song|] s2]; simpl; [|reflexivity].
  destruct H as [-> | ->]; [reflexivity | apply andb_false_r].
Qed.

Lemma playSong_not_explicit (id : string) (o : PlayOptions) (s : State) :
  fromAutoplay o = true \/ fromHistory o = true ->
  playSong w id o s = fst (playSongCore w id o s).
Proof.
  intros H. unfold playSong. pose proof (playSongCore_not_started id o s H) as E.
  destruct (playSongCore w id o s) as [s1 started]. simpl in *. now rewrite E.
Qed.

Lemma evolves_prefetch (songId : string) (s : State) :
  evolves w s (prefetchSuggestionsFor w songId s).
Proof.
  unfold prefetchSuggestionsFor.
  repeat (simpl; break_match); simpl;
    first [ apply evolves_quiet; quiet_tac
          | eapply evolves_quiet_l; [|apply evolves_fallback]; quiet_tac ].
Qed.

Lemma evolves_playSong (id : string) (o : PlayOptions) (s : State) :
  evolves w s (playSong w id o s).
Proof.
  unfold playSong. pose proof (evolves_playSongCore id o s) as H.
  destruct (playSongCore w id o s) as [s1 started]. simpl in H.
  destruct started; [|exact H].
  eapply evolves_trans; [exact H | apply evolves_prefetch].
Qed.

Lemma quiet_evolves_playSong (id : string) (o : PlayOptions) (s s1 : State) :
  quiet s s1 -> evolves w s (playSong w id o s1).
Proof. intros H. eapply evolves_quiet_l; [exact H | apply evolves_playSong]. Qed.

Lemma evolves_then_quiet (s s1 s2 : State) :
  evolves w s s1 -> quiet s1 s2 -> evolves w s s2.
Proof. intros H Hq. eapply evolves_trans; [exact H | now apply evolves_quiet]. Qed.

Lemma evolves_playNext (fuel : nat) :
  forall s s', playNextFromSuggestions fuel w s = Some s' -> evolves w s s'.
Proof.
  induction fuel as [|fuel IH]; intros s s' H; [discriminate|].
  cbn [playNextFromSuggestions] in H. cbv zeta in H.
  destruct (negb (length (queue (suggestionState s)) =? 0) && _).
  - destruct (negb (canPlaySong _ _)).
    + apply IH in H. eapply evolves_quiet_l; [|exact H]. quiet_tac.
    + destruct (queueAt _ _) as [id|]; injection H as <-.
      * apply (evolves_then_quiet s
                 (playSong w id autoplayPlay (set_index (index (suggestionState s) + 1) s)));
          [apply quiet_evolves_playSong|]; quiet_tac.
      * apply evolves_quiet. quiet_tac.
  - destruct (jsOr _ _) as [b|]; [|injection H as <-; apply evolves_fallback].
    destruct b as [|c b']; [injection H as <-; apply evolves_fallback|].
    set (s1 := prefetchSuggestionsFor w (String c b') s) in *.
    assert (H1 : evolves w s s1) by apply evolves_prefetch.
    destruct (negb (length (queue (suggestionState s1)) =? 0)).
    + destruct (negb (canPlaySong _ _)).
      * apply IH in H. eapply evolves_trans; [exact H1|].
        eapply evolves_quiet_l; [|exact H]. quiet_tac.
      * destruct (queueAt _ _) as [id|]; injection H as <-.
        -- eapply evolves_trans; [exact H1|]. apply quiet_evolves_playSong. quiet_tac.
        -- eapply evolves_then_quiet; [exact H1|]. quiet_tac.
    + injection H as <-. eapply evolves_trans; [exact H1 | apply evolves_fallback].
Qed.

Lemma evolves_step (e : UserEvent) (s s' : State) :
  step w e s = Some s' -> evolves w s s'.
Proof.
  destruct e; simpl; intros H.
  - injection H as <-. apply evolves_playSong.
  - unfold onEnded in H. destruct (autoplay s) as [[|]|].
    + now apply evolves_playNext in H.
    + injection H as <-. apply evolves_refl.
    + now apply evolves_playNext in H.
  - now apply evolves_playNext in H.
  - injection H as <-. unfold prevHandler.
    destruct (lastEntry (previouslyPlayed s)); [|apply evolves_refl].
    eapply evolves_quiet_l; [|apply evolves_playSong]. quiet_tac.
  - injection H as <-. apply evolves_quiet. quiet_tac.
Qed.

(** A property kept by direct writes and by [playSong], and true when the
    page is ready, holds in every state of the session. *)
Lemma reachable_invariant (P : State -> Prop) :
  P (boot w) ->
  (forall s s', quiet s s' -> P s -> P s') ->
  (forall id o s, P s -> P (fst (playSongCore w id o s))) ->
  forall s, reachable w s -> P s.
Proof.
  intros Hb Hq Hp s H. induction H as [|s e s' H IH Hs]; [exact Hb|].
  apply evolves_step in Hs. eapply evolves_invariant; eauto.
Qed.

End Evolution.

(* ------------------------------------------------------------------ *)
(** ** Language counters and the embedding load *)

(** What one call of [playSong] does to the trace and to the counters. *)
Lemma playSongCore_record (w : World) (id : string) (o : PlayOptions) (s : State) :
  let s' := fst (playSongCore w id o s) in
  (trace s' = EvPlaySong id :: trace s
   /\ lastPlayedSongId s' = lastPlayedSongId s
   /\ hindiPlayCount s' = hindiPlayCount s
   /\ teluguPlayCount s' = teluguPlayCount s
   /\ marathiPlayCount s' = marathiPlayCount s)
  \/ (exists song,
         cache_get id (songCache s') = Some song
         /\ lastPlayedSongId s' = Some id
         /\ trace s' = EvRecorded id (toLowerCase (song_language song))
                                  :: EvPlaySong id :: trace s
         /\ hindiPlayCount s' =
            (if String.eqb (toLowerCase (song_language song)) "hindi"
             then S (hindiPlayCount s) else 0)
         /\ teluguPlayCount s' =
            (if String.eqb (toLowerCase (song_language song)) "telugu"
             then S (teluguPlayCount s) else 0)
         /\ marathiPlayCount s' =
            (if String.eqb (toLowerCase (song_language song)) "marathi"
             then S (marathiPlayCount s) else 0)).
Proof.
  unfold playSongCore. cbv zeta.
  set (s1 := match lastPlayedSongId (log (EvPlaySong id) s) with
             | Some l => _
             | None => _
             end).
  assert (H1 : trace s1 = EvPlaySong id :: trace s
               /\ lastPlayedSongId s1 = lastPlayedSongId s
               /\ hindiPlayCount s1 = hindiPlayCount s
               /\ teluguPlayCount s1 = teluguPlayCount s
               /\ marathiPlayCount s1 = marathiPlayCount s).
  { unfold s1. repeat (simpl; break_match); simpl; repeat split; congruence. }
  destruct H1 as (Ht & Hl & Hh & Hte & Hm).
  unfold lookupSong.
  destruct (cache_get id (songCache s1)) as [song|] eqn:Hc.
  - right. exists song.
    destruct (negb (fromAutoplay o) && negb (fromHistory o)); simpl;
      rewrite Ht, Hh, Hte, Hm; repeat split; assumption.
  - destruct (fetchSong w (tick s1) id) as [[song|]|]; simpl.
    + right. exists song.
      destruct (negb (fromAutoplay o) && negb (fromHistory o)); simpl;
        rewrite Ht, Hh, Hte, Hm, String.eqb_refl; repeat split; reflexivity.
    + left. repeat split; assumption.
    + left. repeat split; assumption.
Qed.

Lemma playSongCore_playedIds (w : World) (id : string) (o : PlayOptions) (s : State) :
  playedIds (trace (fst (playSongCore w id o s))) = id :: playedIds (trace s).
Proof.
  destruct (playSongCore_record w id o s) as [(-> & _)|(song & _ & _ & -> & _)]; reflexivity.
Qed.

Lemma playSongCore_recommender (w : World) (id : string) (o : PlayOptions) (s : State) :
  recommender (fst (playSongCore w id o s)) = recommender s.
Proof.
  unfold playSongCore, lookupSong, countLanguage.
  repeat (simpl; break_match); reflexivity.
Qed.

Lemma boot_trace (w : World) :
  trace (boot w) = [] \/ trace (boot w) = [EvLoadEmbeddings].
Proof.
  unfold boot, init. repeat (simpl; break_match); simpl; auto.
Qed.

Lemma boot_counts (w : World) :
  hindiPlayCount (boot w) = 0 /\ teluguPlayCount (boot w) = 0 /\ marathiPlayCount (boot w) = 0.
Proof.
  unfold boot, init. repeat (simpl; break_match); simpl; auto.
Qed.

Lemma countersMatchStreaks_reachable (w : World) (s : State) :
  reachable w s -> countersMatchStreaks s.
Proof.
  apply reachable_invariant.
  - unfold countersMatchStreaks. destruct (boot_counts w) as (-> & -> & ->).
    destruct (boot_trace w) as [-> | ->]; simpl; auto.
  - unfold countersMatchStreaks, quiet. intros s0 s' (E1 & E2 & E3 & _ & _ & E4 & _).
    rewrite E1, E2, E3, E4. auto.
  - unfold countersMatchStreaks. intros id o s0 (Hh & Ht & Hm).
    destruct (playSongCore_record w id o s0)
      as [(-> & _ & -> & -> & ->)|(song & _ & _ & -> & -> & -> & ->)]; simpl.
    + auto.
    + rewrite Hh, Ht, Hm. auto.
Qed.

Lemma streak_exclusive (a b : string) (l : list string) :
  a <> b -> streak a l = 0 \/ streak b l = 0.
Proof.
  intros Hab. destruct l as [|x t]; simpl; [now left|].
  destruct (String.eqb_spec x a) as [->|_]; [|now left].
  right. destruct (String.eqb_spec a b); [contradiction | reflexivity].
Qed.

Lemma playSongCore_found (w : World) (id : string) (o : PlayOptions) (s : State) (song : Song) :
  cache_get id (songCache s) = Some song
  \/ (cache_get id (songCache s) = None /\ fetchSong w (tick s) id = Ok (Some song)) ->
  let s' := fst (playSongCore w id o s) in
  let lang := toLowerCase (song_language song) in
  lastPlayedSongId s' = Some id
  /\ trace s' = EvRecorded id lang :: EvPlaySong id :: trace s
  /\ hindiPlayCount s' = (if String.eqb lang "hindi" then S (hindiPlayCount s) else 0)
  /\ teluguPlayCount s' = (if String.eqb lang "telugu" then S (teluguPlayCount s) else 0)
  /\ marathiPlayCount s' = (if String.eqb lang "marathi" then S (marathiPlayCount s) else 0).
Proof.
  intros Hfound. unfold playSongCore. cbv zeta.
  set (s1 := match lastPlayedSongId (log (EvPlaySong id) s) with
             | Some l => _
             | None => _
             end).
  assert (H1 : trace s1 = EvPlaySong id :: trace s
               /\ songCache s1 = songCache s
               /\ tick s1 = tick s
               /\ hindiPlayCount s1 = hindiPlayCount s
               /\ teluguPlayCount s1 = teluguPlayCount s
               /\ marathiPlayCount s1 = marathiPlayCount s).
  { unfold s1. repeat (simpl; break_match); simpl; repeat split; congruence. }
  destruct H1 as (Ht & Hc & Hk & Hh & Hte & Hm).
  unfold lookupSong. rewrite Hc, Hk.
  destruct Hfound as [E | [E Ef]]; rewrite E; [|rewrite Ef];
    destruct (negb (fromAutoplay o) && negb (fromHistory o)); simpl;
    rewrite Ht, Hh, Hte, Hm; repeat split; reflexivity.
Qed.

Lemma playSongCore_not_found (w : World) (id : string) (o : PlayOptions) (s : State) :
  cache_get id (songCache s) = None ->
  (forall song, fetchSong w (tick s) id <> Ok (Some song)) ->
  let s' := fst (playSongCore w id o s) in
  lastPlayedSongId s' = lastPlayedSongId s
  /\ trace s' = EvPlaySong id :: trace s
  /\ hindiPlayCount s' = hindiPlayCount s
  /\ teluguPlayCount s' = teluguPlayCount s
  /\ marathiPlayCount s' = marathiPlayCount s.
Proof.
  intros E Ef. unfold playSongCore. cbv zeta.
  set (s1 := match lastPlayedSongId (log (EvPlaySong id) s) with
             | Some l => _
             | None => _
             end).
  assert (H1 : trace s1 = EvPlaySong id :: trace s
               /\ songCache s1 = songCache s
               /\ tick s1 = tick s
               /\ lastPlayedSongId s1 = lastPlayedSongId s
               /\ hindiPlayCount s1 = hindiPlayCount s
               /\ teluguPlayCount s1 = teluguPlayCount s
               /\ marathiPlayCount s1 = marathiPlayCount s).
  { unfold s1. repeat (simpl; break_match); simpl; repeat split; congruence. }
  destruct H1 as (Ht & Hc & Hk & Hl & Hh & Hte & Hm).
  unfold lookupSong. rewrite Hc, Hk, E.
  destruct (fetchSong w (tick s) id) as [[song|]|] eqn:E2; simpl.
  - elim (Ef song). reflexivity.
  - repeat split; assumption.
  - repeat split; assumption.
Qed.

(** C9.  Language counters.  A call of [playSong] that finds its song, in
    the cache or by the metadata request, records the play: the counter of
    the song's language (lower-cased) is incremented if the language is
    Hindi, Telugu or Marathi, and every other counter is set to zero; the
    log of recorded plays gains the language.  A call that does not find
    its song leaves the three counters and the log alone.  Hence in every
    state of a session each counter is the length of the run of its
    language at the end of the recorded plays, and at most one of the
    three is non-zero. *)
Theorem language_counters_follow_streak :
  (forall (w : World) (id : string) (o : PlayOptions) (s : State) (song : Song),
      cache_get id (songCache s) = Some song
      \/ (cache_get id (songCache s) = None /\ fetchSong w (tick s) id = Ok (Some song)) ->
      let s' := fst (playSongCore w id o s) in
      let lang := toLowerCase (song_language song) in
      hindiPlayCount s' = (if String.eqb lang "hindi" then S (hindiPlayCount s) else 0)
      /\ teluguPlayCount s' = (if String.eqb lang "telugu" then S (teluguPlayCount s) else 0)
      /\ marathiPlayCount s' = (if String.eqb lang "marathi" then S (marathiPlayCount s) else 0)
      /\ playedLanguages (trace s') = lang :: playedLanguages (trace s))
  /\ (forall (w : World) (id : string) (o : PlayOptions) (s : State),
         cache_get id (songCache s) = None ->
         (forall song, fetchSong w (tick s) id <> Ok (Some song)) ->
         let s' := fst (playSongCore w id o s) in
         hindiPlayCount s' = hindiPlayCount s
         /\ teluguPlayCount s' = teluguPlayCount s
         /\ marathiPlayCount s' = marathiPlayCount s
         /\ playedLanguages (trace s') = playedLanguages (trace s))
  /\ (forall (w : World) (s : State),
         reachable w s ->
         (hindiPlayCount s = streak "hindi" (playedLanguages (trace s))
          /\ teluguPlayCount s = streak "telugu" (playedLanguages (trace s))
          /\ marathiPlayCount s = streak "marathi" (playedLanguages (trace s)))
         /\ ((hindiPlayCount s = 0 /\ teluguPlayCount s = 0)
             \/ (hindiPlayCount s = 0 /\ marathiPlayCount s = 0)
             \/ (teluguPlayCount s = 0 /\ marathiPlayCount s = 0))).
Proof.
  split; [|split].
  - intros w id o s song Hfound s' lang.
    destruct (playSongCore_found w id o s song Hfound) as (_ & Et & Hh & Ht & Hm).
    fold s' in Et, Hh, Ht, Hm. fold lang in Et, Hh, Ht, Hm.
    rewrite Et. simpl. auto.
  - intros w id o s E Ef s'.
    destruct (playSongCore_not_found w id o s E Ef) as (_ & Et & Hh & Ht & Hm).
    fold s' in Et, Hh, Ht, Hm. rewrite Et. simpl. auto.
  - intros w s Hr.
    pose proof (countersMatchStreaks_reachable w s Hr) as (Hh & Ht & Hm).
    split; [auto|].
    rewrite Hh, Ht, Hm.
    destruct (streak_exclusive "hindi" "telugu" (playedLanguages (trace s))) as [H|H];
      [discriminate| |].
    + destruct (streak_exclusive "telugu" "marathi" (playedLanguages (trace s))) as [H'|H'];
        [discriminate| |]; auto.
    + destruct (streak_exclusive "hindi" "marathi" (playedLanguages (trace s))) as [H'|H'];
        [discriminate| |]; auto.
Qed.

Lemma boot_loadFails (w : World) :
  loadFails w -> ready (recommender (boot w)) = false.
Proof.
  unfold loadFails, boot, init.
  intros [H|[H|[(j & H & Hj)|(j & a & b & H & Ha & Hb & Hn)]]]; rewrite H; simpl;
    try reflexivity.
  - now destruct (tfPresent w).
  - destruct (tfPresent w); simpl; [|reflexivity].
    destruct Hj as [-> | ->]; [reflexivity | now destruct (json_ids j)].
  - destruct (tfPresent w); simpl; [|reflexivity].
    now rewrite Ha, Hb, Hn.
Qed.

Lemma boot_loads (w : World) : embeddingLoads (trace (boot w)) <= 1.
Proof. destruct (boot_trace w) as [-> | ->]; unfold embeddingLoads; simpl; lia. Qed.

Lemma recommender_frame (w : World) (s : State) :
  reachable w s ->
  recommender s = recommender (boot w)
  /\ embeddingLoads (trace s) = embeddingLoads (trace (boot w)).
Proof.
  revert s.
  apply (reachable_invariant w
           (fun s => recommender s = recommender (boot w)
                     /\ embeddingLoads (trace s) = embeddingLoads (trace (boot w)))).
  - auto.
  - unfold quiet. intros s0 s' (_ & _ & _ & _ & E1 & E2 & _).
    rewrite E1, E2. auto.
  - intros id o s0 [H1 H2]. rewrite playSongCore_recommender. split; [exact H1|].
    rewrite <- H2.
    destruct (playSongCore_record w id o s0)
      as [(-> & _)|(song & _ & _ & -> & _)]; reflexivity.
Qed.

(** C8.  Soft and permanent embedding failure.  If the load of the
    embeddings fails (TF.js missing, request failed, ids or embeddings
    missing in the payload, tensor not built), then in every state of the
    session [ready] is false, the embeddings were requested at most once,
    and every call of [getNearestNeighbors] returns the empty list (and
    does not throw). *)
Theorem embedding_failure_is_permanent :
  forall (w : World),
    loadFails w ->
    forall (s : State),
      reachable w s ->
      ready (recommender s) = false
      /\ embeddingLoads (trace s) <= 1
      /\ forall (e : Engine) songId topK excludeIds,
          getNearestNeighbors e (recommender s) songId topK excludeIds = Ok [].
Proof.
  intros w Hf s Hr. destruct (recommender_frame w s Hr) as [E1 E2].
  assert (Hready : ready (recommender s) = false).
  { rewrite E1. now apply boot_loadFails. }
  split; [exact Hready|]. split.
  - rewrite E2. apply boot_loads.
  - intros e songId topK excludeIds. unfold getNearestNeighbors. now rewrite Hready.
Qed.

(* ------------------------------------------------------------------ *)
(** ** Frames of the operations and termination of a decision *)

Lemma playSongCore_history (w : World) (id : string) (o : PlayOptions) (s : State) :
  previouslyPlayed (fst (playSongCore w id o s)) = historyOnPlay id o s.
Proof.
  unfold playSongCore, lookupSong, historyOnPlay, countLanguage.
  repeat (simpl; break_match); simpl; congruence.
Qed.

Lemma playSongCore_suggestionState (w : World) (id : string) (o : PlayOptions) (s : State) :
  fromAutoplay o = true \/ fromHistory o = true ->
  suggestionState (fst (playSongCore w id o s)) = suggestionState s.
Proof.
  intros H. unfold playSongCore, lookupSong, countLanguage.
  assert (E : negb (fromAutoplay o) && negb (fromHistory o) = false).
  { destruct H as [-> | ->]; [reflexivity | apply andb_false_r]. }
  rewrite E. repeat (simpl; break_match); reflexivity.
Qed.

(** The fallback leaves the suggestion state alone or clears the queue. *)
Lemma fallback_suggestionState (w : World) (s : State) :
  suggestionState (fallbackFreshSongsWithExclusion w s) = suggestionState s
  \/ suggestionState (fallbackFreshSongsWithExclusion w s)
     = mkSuggestionState (baseSongId (suggestionState s)) [] (-1).
Proof.
  unfold fallbackFreshSongsWithExclusion, popularTier, fetchPopularRandomSong,
    pickRandom, clearHistoryAndQueue.
  repeat (simpl; break_match); simpl;
    rewrite ?playSongCore_suggestionState by (now left); simpl; auto.
Qed.

Lemma setHas_In (l : list string) (x : string) : setHas l x = true <-> In x l.
Proof.
  unfold setHas. rewrite existsb_exists. split.
  - intros (y & Hy & E). apply String.eqb_eq in E. now subst.
  - intros H. exists x. split; [exact H | apply String.eqb_refl].
Qed.

Lemma freshIds_In (ex : list string) (l : list (option string)) (x : string) :
  In x (freshIds ex l) -> truthyStr x = true /\ ~ In x ex.
Proof.
  unfold freshIds. rewrite in_flat_map. intros ([y|] & _ & H); [|destruct H].
  destruct (truthyStr y) eqn:Ht; simpl in H; [|destruct H].
  destruct (setHas ex y) eqn:Hs; simpl in H; [destruct H|].
  destruct H as [<-|[]]. split; [exact Ht|].
  intros Hin. apply setHas_In in Hin. congruence.
Qed.

Lemma freshSongs_In (ex : list string) (l : list (option Song)) (c : Song) :
  In c (freshSongs ex l) -> truthyStr (song_id c) = true /\ ~ In (song_id c) ex.
Proof.
  unfold freshSongs. rewrite in_flat_map. intros ([y|] & _ & H); [|destruct H].
  destruct (truthyStr (song_id y)) eqn:Ht; simpl in H; [|destruct H].
  destruct (setHas ex (song_id y)) eqn:Hs; simpl in H; [destruct H|].
  destruct H as [<-|[]]. split; [exact Ht|].
  intros Hin. apply setHas_In in Hin. congruence.
Qed.

Lemma getExclusionSet_history (s : State) (x : string) :
  In x (previouslyPlayed s) -> In x (getExclusionSet s).
Proof. intros H. unfold getExclusionSet. apply in_or_app. right. apply in_or_app. now right. Qed.

Lemma getExclusionSet_queue (s : State) (x : string) :
  In x (queue (suggestionState s)) -> In x (getExclusionSet s).
Proof. intros H. unfold getExclusionSet. apply in_or_app. right. apply in_or_app. now left. Qed.

Lemma getExclusionSet_last (s : State) (x : string) :
  lastPlayedSongId s = Some x -> truthyStr x = true -> In x (getExclusionSet s).
Proof.
  intros H Ht. unfold getExclusionSet. rewrite H, Ht. now left.
Qed.

(** After a prefetch, every queued id is truthy and not in the history. *)
Lemma prefetch_queue_fresh (w : World) (b : string) (s : State) (x : string) :
  In x (queue (suggestionState (prefetchSuggestionsFor w b s))) ->
  truthyStr x = true
  /\ ~ In x (previouslyPlayed (prefetchSuggestionsFor w b s)).
Proof.
  unfold prefetchSuggestionsFor.
  assert (Hf : forall s0, queue (suggestionState s0) = [] ->
                          ~ In x (queue (suggestionState (fallbackFreshSongsWithExclusion w s0)))).
  { intros s0 H0. destruct (fallback_suggestionState w s0) as [-> | ->];
      [rewrite H0|]; simpl; tauto. }
  repeat (simpl; break_match); simpl; intros H;
    try (now apply Hf in H).
  apply freshIds_In in H. destruct H as [Ht Hn]. split; [exact Ht|].
  intros Hin. apply Hn. unfold getExclusionSet. simpl.
  apply in_or_app. right. exact Hin.
Qed.

Lemma canPlaySong_fresh (x : string) (h : list string) :
  truthyStr x = true -> ~ In x h -> canPlaySong (Some x) h = true.
Proof.
  intros Ht Hn. destruct (canPlaySong (Some x) h) eqn:E; [reflexivity|].
  apply canPlaySong_first_occurrence in E; [|exact Ht].
  destruct E as (p & Hp & _). elim Hn. eapply nth_error_In; eauto.
Qed.

Lemma queueAt_In (q : list string) (i : Z) (x : string) :
  queueAt q i = Some x -> In x q.
Proof.
  unfold queueAt. destruct (i <? 0)%Z; [discriminate|]. apply nth_error_In.
Qed.

Lemma queueAt_0 (q : list string) : q <> [] -> exists x, queueAt q 0 = Some x.
Proof. destruct q as [|x t]; [congruence|]. intros _. now exists x. Qed.

(** The recursion of [playNextFromSuggestions] ends: each replay step moves
    the cursor, and after a refill the head of the queue passes the gate. *)
Lemma playNextFromSuggestions_total (w : World) (fuel : nat) :
  forall s, replaysLeft s < fuel ->
            exists s', playNextFromSuggestions fuel w s = Some s'.
Proof.
  induction fuel as [|fuel IH]; intros s Hm; [lia|].
  cbn [playNextFromSuggestions]. cbv zeta.
  destruct (negb (length (queue (suggestionState s)) =? 0) && _) eqn:Hc.
  - destruct (negb (canPlaySong _ _)).
    + apply IH. apply andb_prop in Hc. destruct Hc as [_ Hc]. apply Z.ltb_lt in Hc.
      unfold replaysLeft in *. simpl. lia.
    + destruct (queueAt _ _); eauto.
  - destruct (jsOr _ _) as [b|]; [|eauto].
    destruct b as [|c b']; [eauto|].
    set (s1 := prefetchSuggestionsFor w (String c b') s).
    destruct (length (queue (suggestionState s1)) =? 0) eqn:Hq; simpl; [eauto|].
    apply Nat.eqb_neq in Hq.
    destruct (queueAt_0 (queue (suggestionState s1))) as [x Hx].
    { intros E. apply Hq. now rewrite E. }
    change (queue (suggestionState (set_index 0 s1))) with (queue (suggestionState s1)).
    change (previouslyPlayed (set_index 0 s1)) with (previouslyPlayed s1).
    rewrite Hx.
    destruct (prefetch_queue_fresh w (String c b') s x (queueAt_In _ _ _ Hx)) as [Ht Hn].
    fold s1 in Hn. rewrite (canPlaySong_fresh x _ Ht Hn). simpl. eauto.
Qed.

Lemma decideNext_total (w : World) (s : State) : exists s', decideNext w s = Some s'.
Proof.
  apply playNextFromSuggestions_total. unfold replaysLeft, decideFuel. lia.
Qed.

(** Every event of a session is answered. *)
Lemma step_total (w : World) (e : UserEvent) (s : State) : exists s', step w e s = Some s'.
Proof.
  destruct e; simpl; eauto using decideNext_total.
  unfold onEnded. destruct (autoplay s) as [[|]|]; eauto using decideNext_total.
Qed.







(* ------------------------------------------------------------------ *)
(** ** The exhausted catalog *)

Lemma shiftWhileOver_incl (cap : nat) (h : list string) : incl (shiftWhileOver cap h) h.
Proof.
  induction h as [|x t IH]; simpl; [apply incl_refl|].
  destruct (cap <? S (length t)); [|apply incl_refl].
  apply incl_tl, IH.
Qed.

Lemma addToHistory_In (id x : string) (h : list string) :
  In x (addToHistory id h) -> In x h \/ (x = id /\ truthyStr id = true).
Proof.
  unfold addToHistory. destruct (truthyStr id) eqn:Ht; simpl; [|auto].
  destruct (_ && _); [auto|]. intros H. apply shiftWhileOver_incl in H.
  apply in_app_or in H. destruct H as [H|[<-|[]]]; auto.
Qed.

Lemma historyOnPlay_In (id : string) (o : PlayOptions) (s : State) (x : string) :
  In x (historyOnPlay id o s) ->
  In x (previouslyPlayed s) \/ (lastPlayedSongId s = Some x /\ truthyStr x = true).
Proof.
  unfold historyOnPlay. destruct (lastPlayedSongId s) as [l|]; [|auto].
  destruct (_ && _); [|auto]. intros H. apply shiftWhileOver_incl in H.
  apply addToHistory_In in H. destruct H as [H|[-> H]]; auto.
Qed.

Lemma playSongCore_cached (w : World) (id : string) (o : PlayOptions) (s : State) (x : string) :
  cached s x -> cached (fst (playSongCore w id o s)) x.
Proof.
  unfold playSongCore, lookupSong, countLanguage.
  repeat (simpl; break_match); simpl; intros Hx;
    first [ eapply cached_same; [|exact Hx]; reflexivity
          | eapply cached_set; [|exact Hx]; reflexivity ].
Qed.

Lemma knownIds_playSongCore (w : World) (id : string) (o : PlayOptions) (s : State) :
  knownIds s -> knownIds (fst (playSongCore w id o s)).
Proof.
  intros [Hl Hh]. split.
  - intros x Hx Ht.
    destruct (playSongCore_record w id o s) as [(_ & E & _)|(song & Hc & E & _)].
    + rewrite E in Hx. apply playSongCore_cached. now apply Hl.
    + rewrite E in Hx. injection Hx as <-. unfold cached. now rewrite Hc.
  - intros x Hx. rewrite playSongCore_history in Hx. apply historyOnPlay_In in Hx.
    destruct Hx as [Hx|[Hx Ht]].
    + destruct (Hh x Hx) as [Ht Hc]. split; [exact Ht | now apply playSongCore_cached].
    + split; [exact Ht|]. apply playSongCore_cached. now apply Hl.
Qed.

Lemma knownIds_quiet (s s' : State) : quiet s s' -> knownIds s -> knownIds s'.
Proof.
  intros (_ & _ & _ & El & _ & _ & Hi & Hc) [Hl Hh]. split.
  - intros x Hx Ht. rewrite El in Hx. auto.
  - intros x Hx. apply (historyDropped_incl _ _ Hi) in Hx. destruct (Hh x Hx). auto.
Qed.

Lemma knownIds_boot (w : World) : knownIds (boot w).
Proof.
  unfold boot, init. repeat (simpl; break_match); split; simpl;
    first [ discriminate | tauto ].
Qed.

Lemma knownIds_reachable (w : World) (s : State) : reachable w s -> knownIds s.
Proof.
  apply reachable_invariant.
  - apply knownIds_boot.
  - apply knownIds_quiet.
  - intros id o s0. apply knownIds_playSongCore.
Qed.

Lemma jsOr_falsy (a b : option string) :
  truthy (jsOr a b) = false -> truthy a = false /\ truthy b = false.
Proof. unfold jsOr. destruct (truthy a) eqn:E; intros H; [congruence | auto]. Qed.

Lemma jsOr_truthy (a b r : option string) :
  jsOr a b = r -> truthy r = true ->
  (a = r /\ truthy a = true) \/ (b = r /\ truthy a = false).
Proof. unfold jsOr. destruct (truthy a) eqn:E; intros <- H; auto. Qed.

Lemma lastEntry_In (h : list string) (x : string) : lastEntry h = Some x -> In x h.
Proof.
  induction h as [|y t IH]; [discriminate|]. simpl.
  destruct t as [|z t']; [intros [= ->]; now left|]. intros H. right. now apply IH.
Qed.

(** What the fallback does when the catalog is exhausted: it plays
    nothing, and afterwards the history is empty. *)
Lemma fallback_exhaustedFrom (w : World) (t0 : nat) (s : State) :
  exhaustedFrom w t0 -> t0 <= tick s -> knownIds s ->
  let s' := fallbackFreshSongsWithExclusion w s in
  trace s' = trace s
  /\ previouslyPlayed s' = []
  /\ lastPlayedSongId s' = lastPlayedSongId s
  /\ songCache s' = songCache s
  /\ (idle s -> idle s')
  /\ t0 <= tick s'.
Proof.
  intros [_ Hsearch] Hle [Hl Hh]. unfold fallbackFreshSongsWithExclusion.
  assert (Hs0 : forall q lim, searchSongs w (tick s) q lim = Ok []).
  { intros q lim. now apply Hsearch. }
  assert (Hs1 : forall q lim, searchSongs w (S (tick s)) q lim = Ok []).
  { intros q lim. apply Hsearch. lia. }
  destruct (fallbackBaseId s) as [b|] eqn:Hb.
  - destruct (truthyStr b) eqn:Ht.
    + assert (Hc : cached s b).
      { destruct (jsOr_truthy _ _ _ Hb Ht) as [[E _]|[E _]].
        - now apply Hl.
        - apply lastEntry_In in E. now apply Hh. }
      unfold cached in Hc.
      destruct b as [|c b']; [discriminate|].
      destruct (cache_get (String c b') (songCache s)) as [song|]; [|congruence].
      rewrite Hs0. unfold popularTier, fetchPopularRandomSong.
      simpl tick. rewrite Hs1. simpl. unfold idle. simpl.
      repeat split; try reflexivity. lia.
    + destruct b; [|discriminate].
      unfold fetchPopularRandomSong. rewrite Hs0. simpl.
      assert (Hf : truthy (fallbackBaseId s) = false) by now rewrite Hb.
      apply jsOr_falsy in Hf. destruct Hf as [_ Hf].
      destruct (lastEntry (previouslyPlayed s)) as [x|] eqn:E.
      * apply lastEntry_In in E. destruct (Hh x E) as [Hx _]. simpl in Hf. congruence.
      * apply lastEntry_nil_iff in E. cbv zeta. unfold idle. simpl.
        repeat split; try assumption; try tauto. lia.
  - unfold fetchPopularRandomSong. rewrite Hs0. simpl.
    assert (Hf : truthy (fallbackBaseId s) = false) by now rewrite Hb.
    apply jsOr_falsy in Hf. destruct Hf as [_ Hf].
    destruct (lastEntry (previouslyPlayed s)) as [x|] eqn:E.
    + apply lastEntry_In in E. destruct (Hh x E) as [Hx _]. simpl in Hf. congruence.
    + apply lastEntry_nil_iff in E. cbv zeta. unfold idle. simpl.
      repeat split; try assumption; try tauto. lia.
Qed.

Lemma knownIds_ext (s s' : State) :
  lastPlayedSongId s' = lastPlayedSongId s ->
  songCache s' = songCache s ->
  incl (previouslyPlayed s') (previouslyPlayed s) ->
  knownIds s -> knownIds s'.
Proof.
  intros El Ec Hi [Hl Hh]. unfold knownIds, cached in *. rewrite El, Ec. split; [exact Hl|].
  intros x Hx. apply Hh, Hi, Hx.
Qed.

Lemma prefetch_exhaustedFrom (w : World) (t0 : nat) (b : string) (s : State) :
  exhaustedFrom w t0 -> t0 <= tick s -> knownIds s ->
  let s' := prefetchSuggestionsFor w b s in
  trace s' = trace s
  /\ previouslyPlayed s' = []
  /\ lastPlayedSongId s' = lastPlayedSongId s
  /\ songCache s' = songCache s
  /\ idle s'
  /\ t0 <= tick s'.
Proof.
  intros Hex Hle Hk. unfold prefetchSuggestionsFor. pose proof Hex as [Hsug Hsearch].
  simpl tick. rewrite (Hsug _ _ Hle). simpl length. cbv iota. cbn [Nat.eqb].
  set (s0 := bump (set_suggestionState (mkSuggestionState (Some b) [] (-1)) s)).
  assert (Hk0 : knownIds s0).
  { apply (knownIds_ext s); [reflexivity | reflexivity | apply incl_refl | exact Hk]. }
  assert (Hle0 : t0 <= tick s0) by (simpl; lia).
  destruct (fallback_exhaustedFrom w t0 s0 Hex Hle0 Hk0) as (Et & Eh & El & Ec & Hi & Ht).
  repeat split; try assumption.
  - apply Hi. split; reflexivity.
  - apply Hi. split; reflexivity.
Qed.

(* ------------------------------------------------------------------ *)
(** ** The fallback and the language counters *)

Ltac same_tac := unfold sameButCounts; simpl; repeat split; reflexivity.

Lemma sameButCounts_inv (s1 s2 : State) :
  sameButCounts s1 s2 ->
  s1 = set_counts (hindiPlayCount s1) (teluguPlayCount s1) (marathiPlayCount s1) s2.
Proof.
  destruct s1, s2. unfold sameButCounts, set_counts. simpl.
  intros (-> & -> & -> & -> & -> & -> & -> & ->). reflexivity.
Qed.

Lemma playSongCore_sameButCounts (w : World) (id : string) (o : PlayOptions) (s1 s2 : State) :
  sameButCounts s1 s2 ->
  sameButCounts (fst (playSongCore w id o s1)) (fst (playSongCore w id o s2)).
Proof.
  intros H. rewrite (sameButCounts_inv s1 s2 H).
  generalize (hindiPlayCount s1), (teluguPlayCount s1), (marathiPlayCount s1).
  intros h t m. unfold playSongCore, lookupSong, countLanguage.
  repeat (simpl; break_match); simpl; try congruence; same_tac.
Qed.

Lemma fallback_sameButCounts (w : World) (s1 s2 : State) :
  sameButCounts s1 s2 ->
  sameButCounts (fallbackFreshSongsWithExclusion w s1)
                (fallbackFreshSongsWithExclusion w s2).
Proof.
  intros H. rewrite (sameButCounts_inv s1 s2 H).
  generalize (hindiPlayCount s1), (teluguPlayCount s1), (marathiPlayCount s1).
  intros h t m.
  unfold fallbackFreshSongsWithExclusion, popularTier, fetchPopularRandomSong,
    pickRandom, clearHistoryAndQueue, fallbackBaseId, getExclusionSet.
  repeat (simpl; break_match); simpl; try congruence;
    first [ same_tac | apply playSongCore_sameButCounts; same_tac ].
Qed.

Lemma prefetch_sameButCounts (w : World) (b : string) (s1 s2 : State) :
  sameButCounts s1 s2 ->
  sameButCounts (prefetchSuggestionsFor w b s1) (prefetchSuggestionsFor w b s2).
Proof.
  intros H. rewrite (sameButCounts_inv s1 s2 H).
  generalize (hindiPlayCount s1), (teluguPlayCount s1), (marathiPlayCount s1).
  intros h t m. unfold prefetchSuggestionsFor, getExclusionSet.
  repeat (simpl; break_match); simpl; try congruence;
    first [ same_tac | apply fallback_sameButCounts; same_tac ].
Qed.

Lemma playSongCore_started_sameButCounts (w : World) (id : string) (o : PlayOptions)
      (s1 s2 : State) :
  sameButCounts s1 s2 ->
  snd (playSongCore w id o s1) = snd (playSongCore w id o s2).
Proof.
  intros H. rewrite (sameButCounts_inv s1 s2 H).
  generalize (hindiPlayCount s1), (teluguPlayCount s1), (marathiPlayCount s1).
  intros h t m. unfold playSongCore, lookupSong, countLanguage.
  repeat (simpl; break_match); simpl; congruence.
Qed.

Lemma playSong_sameButCounts (w : World) (id : string) (o : PlayOptions) (s1 s2 : State) :
  sameButCounts s1 s2 ->
  sameButCounts (playSong w id o s1) (playSong w id o s2).
Proof.
  intros H. unfold playSong.
  pose proof (playSongCore_sameButCounts w id o s1 s2 H) as Hf.
  pose proof (playSongCore_started_sameButCounts w id o s1 s2 H) as Hs.
  destruct (playSongCore w id o s1) as [a sa], (playSongCore w id o s2) as [b sb].
  simpl in *. subst sb. destruct sa; [now apply prefetch_sameButCounts | exact Hf].
Qed.

Lemma sameButCounts_set_index (i : Z) (s1 s2 : State) :
  sameButCounts s1 s2 -> sameButCounts (set_index i s1) (set_index i s2).
Proof.
  unfold sameButCounts. simpl. intros (-> & -> & -> & -> & -> & -> & -> & ->).
  repeat split; reflexivity.
Qed.

Lemma sameButCounts_set_base (b : option string) (s1 s2 : State) :
  sameButCounts s1 s2 -> sameButCounts (set_base b s1) (set_base b s2).
Proof.
  unfold sameButCounts. simpl. intros (-> & -> & -> & -> & -> & -> & -> & ->).
  repeat split; reflexivity.
Qed.

Lemma playNext_sameButCounts (w : World) (fuel : nat) :
  forall s1 s2,
    sameButCounts s1 s2 ->
    sameOutcome (playNextFromSuggestions fuel w s1) (playNextFromSuggestions fuel w s2).
Proof.
  induction fuel as [|fuel IH]; intros s1 s2 H; [exact I|].
  cbn [playNextFromSuggestions]. cbv zeta.
  pose proof H as (Eh & El & _ & Es & _).
  change (previouslyPlayed (set_index (index (suggestionState s1) + 1) s1))
    with (previouslyPlayed s1).
  change (previouslyPlayed (set_index (index (suggestionState s2) + 1) s2))
    with (previouslyPlayed s2).
  rewrite Es, Eh, El.
  destruct (negb (length (queue (suggestionState s2)) =? 0) && _).
  - destruct (negb (canPlaySong _ _)).
    + apply IH. now apply sameButCounts_set_index.
    + destruct (queueAt _ _) as [id|]; simpl.
      * pose proof (playSong_sameButCounts w id autoplayPlay _ _
                      (sameButCounts_set_index (index (suggestionState s2) + 1) s1 s2 H))
          as Hp.
        pose proof Hp as (_ & _ & _ & Es' & _). rewrite Es'.
        now apply sameButCounts_set_base.
      * now apply sameButCounts_set_index.
  - destruct (jsOr _ _) as [b|]; [|simpl; now apply fallback_sameButCounts].
    destruct b as [|c b']; [simpl; now apply fallback_sameButCounts|].
    pose proof (prefetch_sameButCounts w (String c b') s1 s2 H) as Hp.
    pose proof Hp as (Eh' & _ & _ & Es' & _).
    change (previouslyPlayed (set_index 0 (prefetchSuggestionsFor w (String c b') s1)))
      with (previouslyPlayed (prefetchSuggestionsFor w (String c b') s1)).
    change (previouslyPlayed (set_index 0 (prefetchSuggestionsFor w (String c b') s2)))
      with (previouslyPlayed (prefetchSuggestionsFor w (String c b') s2)).
    change (suggestionState (set_index 0 (prefetchSuggestionsFor w (String c b') s1)))
      with (mkSuggestionState
              (baseSongId (suggestionState (prefetchSuggestionsFor w (String c b') s1)))
              (queue (suggestionState (prefetchSuggestionsFor w (String c b') s1))) 0).
    change (suggestionState (set_index 0 (prefetchSuggestionsFor w (String c b') s2)))
      with (mkSuggestionState
              (baseSongId (suggestionState (prefetchSuggestionsFor w (String c b') s2)))
              (queue (suggestionState (prefetchSuggestionsFor w (String c b') s2))) 0).
    rewrite Es', Eh'.
    destruct (negb (length (queue (suggestionState _)) =? 0));
      [|simpl; now apply fallback_sameButCounts].
    destruct (negb (canPlaySong _ _)).
    + apply IH. now apply sameButCounts_set_index.
    + destruct (queueAt _ _) as [id|]; simpl.
      * apply playSong_sameButCounts. now apply sameButCounts_set_index.
      * now apply sameButCounts_set_index.
Qed.

Lemma decideNext_sameButCounts (w : World) (s1 s2 : State) :
  sameButCounts s1 s2 -> sameOutcome (decideNext w s1) (decideNext w s2).
Proof.
  intros H. unfold decideNext, decideFuel.
  pose proof H as (_ & _ & _ & Es & _). rewrite Es.
  now apply playNext_sameButCounts.
Qed.

Lemma pickRandom_Some {A : Type} (w : World) (l : list A) (s : State) :
  l <> [] ->
  exists c, nth_error l (random w (tick s) mod length l) = Some c
            /\ pickRandom w l s = (Some c, bump s).
Proof.
  intros Hl. unfold pickRandom.
  destruct (nth_error l (random w (tick s) mod length l)) as [c|] eqn:E.
  - exists c. split; reflexivity.
  - apply nth_error_None in E.
    assert (length l <> 0) by (destruct l; simpl; [congruence | lia]).
    pose proof (Nat.mod_upper_bound (random w (tick s)) (length l) H). lia.
Qed.

Lemma freshSongs_nonempty (ex : list string) (l : list (option Song)) :
  freshSongs ex l <> [] -> (length l =? 0) = false /\ (length (freshSongs ex l) =? 0) = false.
Proof.
  intros H. split.
  - destruct l; [now elim H | reflexivity].
  - destruct (freshSongs ex l); [now elim H | reflexivity].
Qed.

(** The tiers of the fallback for a base track whose song is in the cache:
    the search for its language and year, then the search for "popular",
    then nothing. *)
Lemma fallback_tiers (w : World) (s : State) (b : string) (song : Song)
      (cands : list (option Song)) :
  fallbackBaseId s = Some b ->
  truthyStr b = true ->
  cache_get b (songCache s) = Some song ->
  searchSongs w (tick s)
              (if truthyStr (song_language song) && truthyStr (song_year song)
               then song_language song ++ " " ++ song_year song
               else song_language song) 40 = Ok cands ->
  let ex := getExclusionSet s in
  let s' := fallbackFreshSongsWithExclusion w s in
  (freshSongs ex cands <> [] ->
   exists c,
     nth_error (freshSongs ex cands)
               (random w (S (tick s)) mod length (freshSongs ex cands)) = Some c
     /\ playedIds (trace s') = song_id c :: playedIds (trace s))
  /\ (freshSongs ex cands = [] ->
      forall pops,
        searchSongs w (S (tick s)) "popular" 50 = Ok pops ->
        (freshSongs ex pops <> [] ->
         exists c,
           nth_error (freshSongs ex pops)
                     (random w (S (S (tick s))) mod length (freshSongs ex pops)) = Some c
           /\ playedIds (trace s') = song_id c :: playedIds (trace s))
        /\ (freshSongs ex pops = [] ->
            playedIds (trace s') = playedIds (trace s)
            /\ previouslyPlayed s' = []
            /\ queue (suggestionState s') = []
            /\ index (suggestionState s') = (-1)%Z)).
Proof.
  intros Hb Ht Hc Hsearch ex s'. subst s'.
  unfold fallbackFreshSongsWithExclusion. rewrite Hb.
  destruct b as [|ch b']; [discriminate|]. rewrite Hc.
  cbv zeta. rewrite Hsearch. fold ex. split.
  - intros Hne. destruct (freshSongs_nonempty ex cands Hne) as [E1 E2].
    rewrite E1, E2. simpl negb. cbv iota. simpl andb.
    destruct (pickRandom_Some w (freshSongs ex cands) (bump s) Hne) as (c & Hn & Hp).
    rewrite Hp. exists c. split; [exact Hn|].
    now rewrite playSongCore_playedIds.
  - intros Hnil. rewrite Hnil. simpl length. rewrite andb_false_r.
    intros pops Hpop. unfold popularTier, fetchPopularRandomSong.
    simpl tick. rewrite Hpop. split.
    + intros Hne. destruct (freshSongs_nonempty ex pops Hne) as [_ E2].
      rewrite E2. simpl negb. cbv iota.
      destruct (pickRandom_Some w (freshSongs ex pops) (bump (bump s)) Hne) as (c & Hn & Hp).
      rewrite Hp. exists c. split; [exact Hn|].
      assert (Hfresh : truthyStr (song_id c) = true).
      { apply nth_error_In, freshSongs_In in Hn. tauto. }
      rewrite Hfresh. now rewrite playSongCore_playedIds.
    + intros Hnil2. rewrite Hnil2. simpl. repeat split; reflexivity.
Qed.

(** C4, as the code has it.  [shouldPlayDiverse] holds for Telugu exactly
    when the Telugu counter has reached 3, but neither the fallback cascade
    nor a whole decision consults it: started from two states that differ
    only in the language counters they play the same tracks and end in
    states that differ only in the counters.  For a base track whose song
    is in the cache (as it is in a session) the cascade has two tiers and
    no other: it plays a result of the search for the language and year of
    the base track if one is outside the exclusion set; else a result of
    the search for "popular" if one is outside the exclusion set; else it
    plays nothing and clears the history and the queue.  No search of the
    diversity sweep has a part in it. *)
Theorem fallback_ignores_language_counters :
  (forall s : State,
      shouldPlayDiverse (Some "telugu") s = (3 <=? teluguPlayCount s))
  /\ (forall (w : World) (s : State) (h t m : nat),
         sameButCounts (fallbackFreshSongsWithExclusion w (set_counts h t m s))
                       (fallbackFreshSongsWithExclusion w s))
  /\ (forall (w : World) (s : State) (h t m : nat),
         trace (fallbackFreshSongsWithExclusion w (set_counts h t m s))
         = trace (fallbackFreshSongsWithExclusion w s))
  /\ (forall (w : World) (s : State) (h t m : nat),
         sameOutcome (decideNext w (set_counts h t m s)) (decideNext w s))
  /\ (forall (w : World) (s : State) (b : string) (song : Song)
             (cands : list (option Song)),
         fallbackBaseId s = Some b ->
         truthyStr b = true ->
         cache_get b (songCache s) = Some song ->
         searchSongs w (tick s)
                     (if truthyStr (song_language song) && truthyStr (song_year song)
                      then song_language song ++ " " ++ song_year song
                      else song_language song) 40 = Ok cands ->
         let ex := getExclusionSet s in
         let s' := fallbackFreshSongsWithExclusion w s in
         (freshSongs ex cands <> [] ->
          exists c,
            nth_error (freshSongs ex cands)
                      (random w (S (tick s)) mod length (freshSongs ex cands)) = Some c
            /\ playedIds (trace s') = song_id c :: playedIds (trace s))
         /\ (freshSongs ex cands = [] ->
             forall pops,
               searchSongs w (S (tick s)) "popular" 50 = Ok pops ->
               (freshSongs ex pops <> [] ->
                exists c,
                  nth_error (freshSongs ex pops)
                            (random w (S (S (tick s))) mod length (freshSongs ex pops))
                  = Some c
                  /\ playedIds (trace s') = song_id c :: playedIds (trace s))
               /\ (freshSongs ex pops = [] ->
                   playedIds (trace s') = playedIds (trace s)
                   /\ previouslyPlayed s' = []
                   /\ queue (suggestionState s') = []
                   /\ index (suggestionState s') = (-1)%Z))).
Proof.
  split; [reflexivity|].
  assert (H : forall w s h t m,
             sameButCounts (fallbackFreshSongsWithExclusion w (set_counts h t m s))
                           (fallbackFreshSongsWithExclusion w s)).
  { intros w s h t m. apply fallback_sameButCounts. same_tac. }
  split; [exact H|]. split; [|split].
  - intros w s h t m. apply (H w s h t m).
  - intros w s h t m. apply decideNext_sameButCounts. same_tac.
  - exact fallback_tiers.
Qed.

(** C4 fails as stated.  After three plays of a Telugu song in a row the
    Telugu counter is 3 and [shouldPlayDiverse] holds for the language of
    the base track; the diversity sweep would find the Malayalam song; the
    decision plays the Telugu song that the year/language search returns. *)
Lemma diversity_sweep_not_preferred :
  exists s s',
    overplayedTelugu = Some s
    /\ cache_get "te-0" (songCache s) = Some teluguSong
    /\ lastPlayedSongId s = Some "te-0"
    /\ teluguPlayCount s = 3
    /\ shouldPlayDiverse (Some (song_language teluguSong)) s = true
    /\ fst (fetchDiverseSong diversityWorld (getExclusionSet s) s) = Ok (Some malayalamSong)
    /\ decideNext diversityWorld s = Some s'
    /\ playedIds (trace s') = "te-1" :: playedIds (trace s)
    /\ "te-1" <> song_id malayalamSong.
Proof.
  eexists. eexists.
  split; [vm_compute; reflexivity|].
  split; [vm_compute; reflexivity|].
  split; [vm_compute; reflexivity|].
  split; [vm_compute; reflexivity|].
  split; [vm_compute; reflexivity|].
  split; [vm_compute; reflexivity|].
  split; [vm_compute; reflexivity|].
  split; [vm_compute; reflexivity | discriminate].
Qed.

(* ------------------------------------------------------------------ *)
(** ** Self-exclusion of the last played id *)

Lemma lastEntry_shiftWhileOver (cap : nat) (h : list string) :
  1 <= cap -> lastEntry (shiftWhileOver cap h) = lastEntry h.
Proof.
  intros Hc. induction h as [|x t IH]; [reflexivity|]. simpl shiftWhileOver.
  destruct (Nat.ltb_spec cap (S (length t))) as [Hlt|_]; [|reflexivity].
  rewrite IH. destruct t; [simpl in Hlt; lia | reflexivity].
Qed.

Lemma addToHistory_last (x : string) (h : list string) :
  truthyStr x = true -> lastEntry (addToHistory x h) = Some x.
Proof.
  intros Ht. unfold addToHistory. rewrite Ht. simpl negb. cbv iota.
  destruct (lastEntry h) as [l|] eqn:E.
  - destruct (String.eqb_spec l x) as [->|_].
    + rewrite andb_true_r. destruct h; [discriminate | exact E].
    + rewrite andb_false_r, lastEntry_shiftWhileOver, lastEntry_app; [reflexivity|].
      unfold ANTI_REPEAT_CONFIG.maxHistorySize. lia.
  - rewrite andb_false_r, lastEntry_shiftWhileOver, lastEntry_app; [reflexivity|].
    unfold ANTI_REPEAT_CONFIG.maxHistorySize. lia.
Qed.

Lemma canPlaySong_truthy (v : option string) (h : list string) :
  canPlaySong v h = true -> exists id, v = Some id /\ truthyStr id = true.
Proof.
  unfold canPlaySong, ANTI_REPEAT_CONFIG.enableSmartExclusion. simpl negb. cbv iota.
  destruct v as [id|]; [|discriminate].
  destruct (truthyStr id) eqn:E; simpl; [eauto | discriminate].
Qed.

Section SelfExclusion.

Variable X : string.

Variable w : World.

Lemma neverPlays_same (s s' : State) :
  trace s' = trace s -> neverPlays X s s'.
Proof. intros E. exists []. rewrite E. split; [reflexivity | intros []]. Qed.

Lemma neverPlays_trans (s1 s2 s3 : State) :
  neverPlays X s1 s2 -> neverPlays X s2 s3 -> neverPlays X s1 s3.
Proof.
  intros (n1 & E1 & H1) (n2 & E2 & H2). exists (n2 ++ n1). split.
  - now rewrite E2, E1, app_assoc.
  - intros H. apply in_app_or in H. tauto.
Qed.

Lemma neverPlays_playSongCore (id : string) (o : PlayOptions)
      (s0 s : State) :
  trace s = trace s0 -> id <> X -> neverPlays X s0 (fst (playSongCore w id o s)).
Proof.
  intros E Hne. exists [id]. rewrite playSongCore_playedIds, E. split; [reflexivity|].
  intros [H|[]]. congruence.
Qed.

Lemma fresh_candidate_differs (ex : list string)
      (l : list (option Song)) (k : nat) (c : Song) :
  excluded X ex -> nth_error (freshSongs ex l) k = Some c -> song_id c <> X.
Proof.
  intros Hex Hn. apply nth_error_In, freshSongs_In in Hn. destruct Hn as [Ht Hn].
  intros E. subst X. auto.
Qed.

(** No tier of the fallback plays an excluded id. *)
Lemma fallback_neverPlays (s : State) :
  excluded X (getExclusionSet s) ->
  neverPlays X s (fallbackFreshSongsWithExclusion w s).
Proof.
  intros Hex.
  unfold fallbackFreshSongsWithExclusion, popularTier, fetchPopularRandomSong,
    pickRandom, clearHistoryAndQueue.
  repeat (simpl; break_match); simpl;
    first [ apply neverPlays_same; reflexivity
          | apply neverPlays_playSongCore; [reflexivity|];
            match goal with
            | H : Some _ = Some _ |- _ => injection H as <-
            | _ => idtac
            end;
            eapply fresh_candidate_differs; [exact Hex | eassumption] ].
Qed.

Lemma known_excluded (s : State) :
  known X s -> excluded X (getExclusionSet s).
Proof.
  intros H Ht. destruct (H Ht) as [Hl|Hh].
  - now apply getExclusionSet_last.
  - now apply getExclusionSet_history.
Qed.

Lemma lastKnown_known (s : State) : lastKnown X s -> known X s.
Proof. intros H Ht. left. now apply H. Qed.

(** A play that is not taken from the history keeps the song that was
    playing before: it is the last played id still, or went to the history. *)
Lemma playSongCore_known (id : string) (o : PlayOptions) (s : State) :
  fromHistory o = false -> lastKnown X s -> known X (fst (playSongCore w id o s)).
Proof.
  intros Ho Hl Ht. specialize (Hl Ht).
  destruct (String.eqb_spec X id) as [->|Hne].
  - left. destruct (playSongCore_record w id o s) as [(_ & E & _)|(song & _ & E & _)];
      rewrite E; [exact Hl | reflexivity].
  - right. rewrite playSongCore_history. unfold historyOnPlay. rewrite Hl, Ho, Ht. simpl.
    destruct (String.eqb_spec X id) as [|_]; [contradiction|]. simpl.
    apply lastEntry_In. unfold clampHistory. rewrite lastEntry_shiftWhileOver.
    + now apply addToHistory_last.
    + unfold RECOMMENDER_CONFIG.maxHistory. lia.
Qed.

Lemma fallback_known (s : State) :
  lastKnown X s -> known X (fallbackFreshSongsWithExclusion w s).
Proof.
  intros Hl.
  unfold fallbackFreshSongsWithExclusion, popularTier, fetchPopularRandomSong,
    pickRandom, clearHistoryAndQueue.
  repeat (simpl; break_match); simpl;
    first [ apply playSongCore_known; [reflexivity | exact Hl]
          | apply lastKnown_known; exact Hl ].
Qed.

(** What a prefetch leaves behind: nothing queued, or a queue without the
    last played id, which is then unchanged. *)
Lemma prefetch_selfExclusion (b : string) (s : State) :
  lastKnown X s ->
  let s1 := prefetchSuggestionsFor w b s in
  neverPlays X s s1
  /\ known X s1
  /\ (queue (suggestionState s1) = []
      \/ (lastPlayedSongId s1 = lastPlayedSongId s
          /\ (truthyStr X = true -> ~ In X (queue (suggestionState s1))))).
Proof.
  intros Hl. unfold prefetchSuggestionsFor.
  set (s0 := set_suggestionState (mkSuggestionState (Some b) [] (-1)) s).
  assert (Hfb : forall s2, trace s2 = trace s -> lastPlayedSongId s2 = lastPlayedSongId s ->
                           previouslyPlayed s2 = previouslyPlayed s ->
                           queue (suggestionState s2) = [] ->
                let s1 := fallbackFreshSongsWithExclusion w s2 in
                neverPlays X s s1 /\ known X s1
                /\ (queue (suggestionState s1) = []
                    \/ (lastPlayedSongId s1 = lastPlayedSongId s
                        /\ (truthyStr X = true -> ~ In X (queue (suggestionState s1)))))).
  { intros s2 Et El Eh Eq. cbv zeta.
    assert (Hl2 : lastKnown X s2) by (intros Ht; rewrite El; now apply Hl).
    split; [|split].
    - eapply neverPlays_trans; [apply neverPlays_same; exact Et|].
      apply fallback_neverPlays, known_excluded, lastKnown_known, Hl2.
    - now apply fallback_known.
    - left. destruct (fallback_suggestionState w s2) as [-> | ->]; [exact Eq | reflexivity]. }
  destruct (fetchSuggestions w (tick s0) b) as [data|]; [|now apply Hfb].
  destruct (length data =? 0); [now apply Hfb|].
  destruct (suggestionIds data) as [l|]; [|now apply Hfb].
  cbv zeta. split; [now apply neverPlays_same|]. split.
  - apply lastKnown_known. exact Hl.
  - right. split; [reflexivity|]. intros Ht Hin. simpl in Hin.
    apply freshIds_In in Hin. destruct Hin as [_ Hn]. apply Hn.
    apply getExclusionSet_last; [|exact Ht]. simpl. now apply Hl.
Qed.

Lemma selfGuard_lastKnown (s : State) : selfGuard X s -> lastKnown X s.
Proof. intros H Ht. now apply H. Qed.

(** Self-exclusion of the last played id in every tier of a decision. *)
Lemma playNext_selfExclusion (fuel : nat) :
  forall s s',
    selfGuard X s ->
    playNextFromSuggestions fuel w s = Some s' ->
    neverPlays X s s'.
Proof.
  induction fuel as [|fuel IH]; intros s s' Hg H; [discriminate|].
  cbn [playNextFromSuggestions] in H. cbv zeta in H.
  destruct (negb (length (queue (suggestionState s)) =? 0) && _).
  - (* queue replay *)
    destruct (canPlaySong _ _) eqn:Hcan; simpl in H.
    + destruct (canPlaySong_truthy _ _ Hcan) as (id & Hid & Ht). rewrite Hid in H.
      injection H as <-. rewrite playSong_not_explicit by (now left).
      eapply neverPlays_trans; [|apply neverPlays_same; reflexivity].
      apply neverPlays_playSongCore; [reflexivity|].
      intros ->. apply queueAt_In in Hid. now apply (Hg Ht).
    + apply IH in H.
      * eapply neverPlays_trans; [apply neverPlays_same|exact H]. reflexivity.
      * intros Ht. exact (Hg Ht).
  - (* refill *)
    assert (Hdirect : neverPlays X s (fallbackFreshSongsWithExclusion w s)).
    { apply fallback_neverPlays, known_excluded, lastKnown_known, selfGuard_lastKnown, Hg. }
    destruct (jsOr _ _) as [b|]; [|injection H as <-; exact Hdirect].
    destruct b as [|c b']; [injection H as <-; exact Hdirect|].
    destruct (prefetch_selfExclusion (String c b') s (selfGuard_lastKnown s Hg))
      as (Hn & Hk & Hq).
    set (s1 := prefetchSuggestionsFor w (String c b') s) in *.
    destruct (length (queue (suggestionState s1)) =? 0) eqn:Hlen; simpl in H.
    + injection H as <-. eapply neverPlays_trans; [exact Hn|].
      apply fallback_neverPlays, known_excluded, Hk.
    + destruct Hq as [Hq|[El Hq]]; [rewrite Hq in Hlen; discriminate|].
      destruct (canPlaySong _ _) eqn:Hcan; simpl in H.
      * destruct (canPlaySong_truthy _ _ Hcan) as (id & Hid & Ht). rewrite Hid in H.
        injection H as <-. rewrite playSong_not_explicit by (now left).
        eapply neverPlays_trans; [exact Hn|].
        apply neverPlays_playSongCore; [reflexivity|].
        intros ->. apply queueAt_In in Hid. now apply (Hq Ht).
      * apply IH in H.
        -- eapply neverPlays_trans; [exact Hn|].
           eapply neverPlays_trans; [apply neverPlays_same|exact H]. reflexivity.
        -- intros Ht. split; [|exact (Hq Ht)].
           change (lastPlayedSongId (set_index 0 s1)) with (lastPlayedSongId s1).
           rewrite El. now apply Hg.
Qed.

End SelfExclusion.

Lemma recorded_evolves (w : World) (z : string) (s s' : State) :
  evolves w s s' -> recorded z s -> recorded z s'.
Proof.
  apply (evolves_invariant w (recorded z)).
  - intros s0 s1 (_ & _ & _ & _ & _ & E & _) (lang & H). exists lang. now rewrite E.
  - intros id o s0 (lang & H). exists lang.
    destruct (playSongCore_record w id o s0) as [(E & _)|(song & _ & _ & E & _)];
      rewrite E; simpl; auto.
Qed.

Lemma lastPlayed_evolves (w : World) (s s' : State) :
  evolves w s s' -> lastPlayedSongId s <> None -> lastPlayedSongId s' <> None.
Proof.
  apply (evolves_invariant w (fun s => lastPlayedSongId s <> None)).
  - intros s0 s1 (_ & _ & _ & E & _). now rewrite E.
  - intros id o s0 H.
    destruct (playSongCore_record w id o s0) as [(_ & E & _)|(song & _ & E & _)];
      rewrite E; [exact H | discriminate].
Qed.

Lemma lastRecorded_evolves (w : World) (s s' : State) :
  evolves w s s' -> lastRecorded s -> lastRecorded s'.
Proof.
  apply (evolves_invariant w lastRecorded).
  - intros s0 s1 (_ & _ & _ & El & _ & Et & _) H z Hz. rewrite El in Hz.
    destruct (H z Hz) as (lang & Hin). exists lang. now rewrite Et.
  - intros id o s0 H z Hz.
    destruct (playSongCore_record w id o s0) as [(Et & El & _)|(song & _ & El & Et & _)].
    + rewrite El in Hz. destruct (H z Hz) as (lang & Hin). exists lang. rewrite Et. now right.
    + rewrite El in Hz. injection Hz as <-. eexists. rewrite Et. now left.
Qed.

Lemma queuedAfterOther_mono (w : World) (s s' : State) :
  evolves w s s' ->
  incl (queue (suggestionState s')) (queue (suggestionState s)) ->
  queuedAfterOther s -> queuedAfterOther s'.
Proof.
  intros He Hi H x Hx. destruct (H x (Hi x Hx)) as (z & Hz & Hr).
  exists z. split; [exact Hz|]. eapply recorded_evolves; eauto.
Qed.

Lemma playSongCore_suggestion_cases (w : World) (id : string) (o : PlayOptions) (s : State) :
  suggestionState (fst (playSongCore w id o s)) = suggestionState s
  \/ (suggestionState (fst (playSongCore w id o s)) = mkSuggestionState (Some id) [] (-1)
      /\ lastPlayedSongId (fst (playSongCore w id o s)) = Some id).
Proof.
  unfold playSongCore, lookupSong, countLanguage.
  repeat (simpl; break_match); simpl; auto.
Qed.

Lemma playSongCore_started (w : World) (id : string) (o : PlayOptions) (s : State) :
  snd (playSongCore w id o s) = true ->
  lastPlayedSongId (fst (playSongCore w id o s)) = Some id.
Proof.
  unfold playSongCore, lookupSong, countLanguage.
  repeat (simpl; break_match); simpl; intros H; first [reflexivity | discriminate].
Qed.

Lemma queue_incl_cases (s s' : State) (b : option string) :
  suggestionState s' = suggestionState s
  \/ suggestionState s' = mkSuggestionState b [] (-1) ->
  incl (queue (suggestionState s')) (queue (suggestionState s)).
Proof. intros [-> | ->]; [apply incl_refl | apply incl_nil_l]. Qed.

Lemma sessionInv_playSongCore (w : World) (id : string) (o : PlayOptions) (s : State) :
  sessionInv s -> sessionInv (fst (playSongCore w id o s)).
Proof.
  intros (H2 & H1 & Hk). split; [|split].
  - eapply lastRecorded_evolves; [apply evolves_playSongCore | exact H2].
  - intros Hn.
    destruct (playSongCore_record w id o s) as [(_ & El & _)|(song & _ & El & _)];
      [|congruence].
    rewrite El in Hn. destruct (H1 Hn) as (Hq & Hh & Hb).
    destruct (playSongCore_suggestion_cases w id o s) as [E|[_ E]]; [|congruence].
    rewrite E, playSongCore_history. unfold historyOnPlay. rewrite Hn. auto.
  - eapply queuedAfterOther_mono; [apply evolves_playSongCore | | exact Hk].
    destruct (playSongCore_suggestion_cases w id o s) as [E|[E _]]; rewrite E;
      [apply incl_refl | apply incl_nil_l].
Qed.

Lemma fallback_history_fresh (w : World) (s : State) :
  lastPlayedSongId s = None -> previouslyPlayed s = [] ->
  previouslyPlayed (fallbackFreshSongsWithExclusion w s) = [].
Proof.
  intros Hn Hh.
  unfold fallbackFreshSongsWithExclusion, popularTier, fetchPopularRandomSong,
    pickRandom, clearHistoryAndQueue.
  repeat (simpl; break_match); simpl;
    rewrite ?playSongCore_history; unfold historyOnPlay; simpl; rewrite ?Hn; auto.
Qed.

Lemma sessionInv_fallback (w : World) (s : State) :
  sessionInv s -> sessionInv (fallbackFreshSongsWithExclusion w s).
Proof.
  intros (H2 & H1 & Hk). split; [|split].
  - eapply lastRecorded_evolves; [apply evolves_fallback | exact H2].
  - intros Hn.
    assert (Hn0 : lastPlayedSongId s = None).
    { destruct (lastPlayedSongId s) eqn:E; [|reflexivity].
      elim (lastPlayed_evolves w s _ (evolves_fallback w s)); [congruence | exact Hn]. }
    destruct (H1 Hn0) as (Hq & Hh & Hb).
    rewrite (fallback_history_fresh w s Hn0 Hh).
    destruct (fallback_suggestionState w s) as [-> | ->]; simpl; auto.
  - eapply queuedAfterOther_mono; [apply evolves_fallback | | exact Hk].
    apply (queue_incl_cases _ _ (baseSongId (suggestionState s))), fallback_suggestionState.
Qed.

Lemma sessionInv_prefetch (w : World) (b : string) (s : State) :
  sessionInv s -> lastPlayedSongId s <> None ->
  sessionInv (prefetchSuggestionsFor w b s).
Proof.
  intros (H2 & H1 & Hk) Hl. split; [|split].
  - eapply lastRecorded_evolves; [apply evolves_prefetch | exact H2].
  - intros Hn. elim (lastPlayed_evolves w s _ (evolves_prefetch w b s) Hl). exact Hn.
  - unfold prefetchSuggestionsFor.
    set (s0 := set_suggestionState (mkSuggestionState (Some b) [] (-1)) s).
    assert (Hfb : forall s2, evolves w s s2 -> queue (suggestionState s2) = [] ->
                             queuedAfterOther (fallbackFreshSongsWithExclusion w s2)).
    { intros s2 He Eq x Hx.
      destruct (fallback_suggestionState w s2) as [E|E]; rewrite E in Hx; simpl in Hx;
        [rewrite Eq in Hx|]; destruct Hx. }
    destruct (fetchSuggestions w (tick s0) b) as [data|];
      [|apply Hfb; [apply evolves_quiet; quiet_tac | reflexivity]].
    destruct (length data =? 0);
      [apply Hfb; [apply evolves_quiet; quiet_tac | reflexivity]|].
    destruct (suggestionIds data) as [l|];
      [|apply Hfb; [apply evolves_quiet; quiet_tac | reflexivity]].
    intros x Hx. simpl in Hx. apply freshIds_In in Hx. destruct Hx as [Ht Hn].
    destruct (lastPlayedSongId s) as [z|] eqn:Ez; [|congruence].
    exists z. split.
    + intros ->. destruct (truthyStr x) eqn:Hx; [|discriminate].
      apply Hn. apply getExclusionSet_last; [exact Ez | exact Hx].
    + destruct (H2 z Ez) as (lang & Hin). exists lang. exact Hin.
Qed.

Lemma sessionInv_playSong (w : World) (id : string) (o : PlayOptions) (s : State) :
  sessionInv s -> sessionInv (playSong w id o s).
Proof.
  intros H. unfold playSong.
  pose proof (sessionInv_playSongCore w id o s H) as H1.
  pose proof (playSongCore_started w id o s) as Hs.
  destruct (playSongCore w id o s) as [s1 started]. simpl in *.
  destruct started; [|exact H1].
  apply sessionInv_prefetch; [exact H1|]. rewrite Hs by reflexivity. discriminate.
Qed.

Lemma sessionInv_nav (s s' : State) :
  trace s' = trace s ->
  lastPlayedSongId s' = lastPlayedSongId s ->
  queue (suggestionState s') = queue (suggestionState s) ->
  lastPlayedSongId s <> None ->
  sessionInv s -> sessionInv s'.
Proof.
  intros Et El Eq Hl (H2 & H1 & Hk). unfold sessionInv, lastRecorded, freshStart,
    queuedAfterOther, recorded. rewrite Et, El, Eq. split; [exact H2|]. split; [|exact Hk].
  intros Hn. contradiction.
Qed.

Lemma freshStart_no_base (s : State) :
  freshStart s -> lastPlayedSongId s = None ->
  jsOr (jsOr (jsOr (lastEntry (queue (suggestionState s))) (lastPlayedSongId s))
             (lastEntry (previouslyPlayed s)))
       (baseSongId (suggestionState s)) = None.
Proof.
  intros H Hn. destruct (H Hn) as (-> & -> & ->). now rewrite Hn.
Qed.

Lemma sessionInv_playNext (w : World) (fuel : nat) :
  forall s s', sessionInv s -> playNextFromSuggestions fuel w s = Some s' -> sessionInv s'.
Proof.
  induction fuel as [|fuel IH]; intros s s' Hinv H; [discriminate|].
  cbn [playNextFromSuggestions] in H. cbv zeta in H.
  destruct (negb (length (queue (suggestionState s)) =? 0) && _) eqn:Hc.
  - assert (Hl : lastPlayedSongId s <> None).
    { intros Hn. destruct Hinv as (_ & H1 & _). destruct (H1 Hn) as (Hq & _).
      rewrite Hq in Hc. discriminate. }
    set (s1 := set_index (index (suggestionState s) + 1) s) in *.
    assert (Hinv1 : sessionInv s1) by (apply (sessionInv_nav s); auto).
    destruct (negb (canPlaySong _ _)); [now apply IH in H|].
    destruct (queueAt _ _) as [id|]; injection H as <-; [|exact Hinv1].
    pose proof (sessionInv_playSong w id autoplayPlay s1 Hinv1) as Hinv2.
    apply (sessionInv_nav (playSong w id autoplayPlay s1)); auto.
    apply (lastPlayed_evolves w s1); [apply evolves_playSong | exact Hl].
  - destruct (jsOr _ _) as [b|] eqn:Hb;
      [|injection H as <-; now apply sessionInv_fallback].
    destruct b as [|c b']; [injection H as <-; now apply sessionInv_fallback|].
    assert (Hl : lastPlayedSongId s <> None).
    { intros Hn. destruct Hinv as (_ & H1 & _).
      rewrite (freshStart_no_base s H1 Hn) in Hb. discriminate. }
    pose proof (sessionInv_prefetch w (String c b') s Hinv Hl) as Hinv1.
    pose proof (lastPlayed_evolves w s _ (evolves_prefetch w (String c b') s) Hl) as Hl1.
    set (s1 := prefetchSuggestionsFor w (String c b') s) in *.
    destruct (negb (length (queue (suggestionState s1)) =? 0));
      [|injection H as <-; now apply sessionInv_fallback].
    assert (Hinv2 : sessionInv (set_index 0 s1)) by (apply (sessionInv_nav s1); auto).
    destruct (negb (canPlaySong _ _)); [now apply IH in H|].
    destruct (queueAt _ _) as [id|]; injection H as <-; [|exact Hinv2].
    now apply sessionInv_playSong.
Qed.

Lemma sessionInv_reachable (w : World) (s : State) : reachable w s -> sessionInv s.
Proof.
  intros Hr. induction Hr as [|s e s' Hr IH Hs].
  - unfold boot, init, sessionInv, lastRecorded, freshStart, queuedAfterOther.
    repeat (simpl; break_match); simpl; repeat split; try discriminate; intros x [].
  - destruct e; simpl in Hs.
    + injection Hs as <-. now apply sessionInv_playSong.
    + unfold onEnded in Hs. destruct (autoplay s) as [[|]|];
        first [ exact (sessionInv_playNext w _ s s' IH Hs) | injection Hs as <-; exact IH ].
    + exact (sessionInv_playNext w _ s s' IH Hs).
    + injection Hs as <-. unfold prevHandler.
      destruct (lastEntry (previouslyPlayed s)) as [p|] eqn:Ep; [|exact IH].
      apply sessionInv_playSong. apply (sessionInv_nav s); auto.
      intros Hn. destruct IH as (_ & H1 & _). destruct (H1 Hn) as (_ & Hh & _).
      rewrite Hh in Ep. discriminate.
    + injection Hs as <-. destruct IH as (H2 & H1 & Hk).
      split; [exact H2|]. split; [exact H1 | exact Hk].
Qed.

(** C1.  Self-exclusion of the last played track.  In a state of a session
    where the last played id is X and X is the only track a play was
    recorded of, a decision terminates and calls [playSong] for no track
    with id X, whichever tier chooses: replay of the queue, refill from the
    suggestions, year/language search or popularity search. *)
Theorem self_exclusion_of_last_played :
  forall (w : World) (s : State) (X : string),
    reachable w s ->
    lastPlayedSongId s = Some X ->
    (forall z lang, In (EvRecorded z lang) (trace s) -> z = X) ->
    exists s',
      decideNext w s = Some s'
      /\ exists new : list string,
          playedIds (trace s') = new ++ playedIds (trace s) /\ ~ In X new.
Proof.
  intros w s X Hr Hl Honly.
  destruct (decideNext_total w s) as [s' Hs']. exists s'. split; [exact Hs'|].
  apply (playNext_selfExclusion X w (decideFuel s) s s'); [|exact Hs'].
  intros Ht. split; [exact Hl|]. intros Hin.
  destruct (sessionInv_reachable w s Hr) as (_ & _ & Hk).
  destruct (Hk X Hin) as (z & Hz & lang & Hrec).
  apply Hz. eapply Honly; eauto.
Qed.

(* ------------------------------------------------------------------ *)
(** ** The cursor of the queue and a decision in an exhausted catalog *)

Lemma cursorInRange_reset (b : option string) : cursorInRange (mkSuggestionState b [] (-1)).
Proof. split; simpl; [lia | intros x []]. Qed.

Lemma cursorInRange_playSongCore (w : World) (id : string) (o : PlayOptions) (s : State) :
  cursorInRange (suggestionState s) ->
  cursorInRange (suggestionState (fst (playSongCore w id o s))).
Proof.
  intros H. destruct (playSongCore_suggestion_cases w id o s) as [-> | [-> _]];
    [exact H | apply cursorInRange_reset].
Qed.

Lemma cursorInRange_fallback (w : World) (s : State) :
  cursorInRange (suggestionState s) ->
  cursorInRange (suggestionState (fallbackFreshSongsWithExclusion w s)).
Proof.
  intros H. destruct (fallback_suggestionState w s) as [-> | ->];
    [exact H | apply cursorInRange_reset].
Qed.

Lemma cursorInRange_prefetch (w : World) (b : string) (s : State) :
  cursorInRange (suggestionState (prefetchSuggestionsFor w b s)).
Proof.
  unfold prefetchSuggestionsFor.
  repeat (simpl; break_match); simpl;
    try (apply cursorInRange_fallback; apply cursorInRange_reset).
  split; simpl; [lia|]. intros x Hx. apply freshIds_In in Hx. tauto.
Qed.

Lemma cursorInRange_playSong (w : World) (id : string) (o : PlayOptions) (s : State) :
  cursorInRange (suggestionState s) ->
  cursorInRange (suggestionState (playSong w id o s)).
Proof.
  intros H. unfold playSong.
  destruct (playSongCore w id o s) as [s1 started] eqn:E.
  destruct started; [apply cursorInRange_prefetch|].
  change s1 with (fst (s1, false)). rewrite <- E. now apply cursorInRange_playSongCore.
Qed.

Lemma cursorInRange_playNext (w : World) (fuel : nat) :
  forall s s', cursorInRange (suggestionState s) ->
               playNextFromSuggestions fuel w s = Some s' ->
               cursorInRange (suggestionState s').
Proof.
  induction fuel as [|fuel IH]; intros s s' Hs H; [discriminate|].
  cbn [playNextFromSuggestions] in H. cbv zeta in H.
  destruct (negb (length (queue (suggestionState s)) =? 0) && _) eqn:Hc.
  - apply andb_prop in Hc. destruct Hc as [_ Hc]. apply Z.ltb_lt in Hc.
    assert (H1 : cursorInRange (suggestionState (set_index (index (suggestionState s) + 1) s))).
    { destruct Hs as [Hr Ht]. split; simpl; [lia | exact Ht]. }
    destruct (negb (canPlaySong _ _)).
    + exact (IH _ _ H1 H).
    + destruct (queueAt _ _) as [id|].
      * injection H as <-.
        pose proof (cursorInRange_playSong w id autoplayPlay _ H1) as [Hr Ht].
        split; simpl; [exact Hr | exact Ht].
      * injection H as <-. exact H1.
  - destruct (jsOr _ _) as [b|].
    + destruct b as [|c b'].
      * injection H as <-. now apply cursorInRange_fallback.
      * set (s1 := prefetchSuggestionsFor w (String c b') s) in *.
        pose proof (cursorInRange_prefetch w (String c b') s) as H1. fold s1 in H1.
        destruct (negb (length (queue (suggestionState s1)) =? 0)) eqn:Hq.
        -- assert (H2 : cursorInRange (suggestionState (set_index 0 s1))).
           { destruct H1 as [Hr Ht]. split; simpl; [|exact Ht].
             apply negb_true_iff, Nat.eqb_neq in Hq. lia. }
           destruct (negb (canPlaySong _ _)).
           ++ exact (IH _ _ H2 H).
           ++ destruct (queueAt _ _) as [id|]; injection H as <-;
                [now apply cursorInRange_playSong | exact H2].
        -- injection H as <-. now apply cursorInRange_fallback.
    + injection H as <-. now apply cursorInRange_fallback.
Qed.

Lemma cursorInRange_reachable (w : World) (s : State) :
  reachable w s -> cursorInRange (suggestionState s).
Proof.
  intros Hr. induction Hr as [|s e s' Hr IH Hstep].
  - unfold boot, init, initialState.
    repeat (simpl; break_match); simpl; apply cursorInRange_reset.
  - destruct e; simpl in Hstep.
    + injection Hstep as <-. now apply cursorInRange_playSong.
    + unfold onEnded in Hstep. destruct (autoplay s) as [[|]|];
        try (exact (cursorInRange_playNext w _ _ _ IH Hstep)).
      injection Hstep as <-. exact IH.
    + exact (cursorInRange_playNext w _ _ _ IH Hstep).
    + injection Hstep as <-. unfold prevHandler.
      destruct (lastEntry (previouslyPlayed s)); [|exact IH].
      apply cursorInRange_playSong. exact IH.
    + injection Hstep as <-. exact IH.
Qed.

Lemma lastEntry_truthy (q : list string) :
  (forall x, In x q -> truthyStr x = true) ->
  truthy (lastEntry q) = false -> q = [].
Proof.
  intros Ht Hf. destruct (lastEntry q) as [x|] eqn:E.
  - apply lastEntry_In in E. simpl in Hf. rewrite (Ht x E) in Hf. discriminate.
  - now apply lastEntry_nil_iff.
Qed.

(** A decision in an exhausted catalog, from a state whose queue gives
    nothing. *)
Lemma playNext_exhaustedFrom (w : World) (fuel : nat) :
  forall s s',
    exhaustedFrom w (tick s) ->
    knownIds s ->
    cursorInRange (suggestionState s) ->
    pendingRefused s ->
    playNextFromSuggestions fuel w s = Some s' ->
    trace s' = trace s
    /\ previouslyPlayed s' = []
    /\ queue (suggestionState s') = []
    /\ index (suggestionState s') = (-1)%Z.
Proof.
  induction fuel as [|fuel IH]; intros s s' Hex Hk Hc Hp H; [discriminate|].
  cbn [playNextFromSuggestions] in H. cbv zeta in H.
  destruct Hc as [[Hlo Hhi] Htr].
  destruct (negb (length (queue (suggestionState s)) =? 0) && _) eqn:Hcond.
  - (* the replay: the next entry is refused *)
    apply andb_prop in Hcond. destruct Hcond as [_ Hcond]. apply Z.ltb_lt in Hcond.
    set (i := index (suggestionState s)) in *.
    assert (Hq : exists x, queueAt (queue (suggestionState s)) (i + 1) = Some x
                           /\ nth_error (queue (suggestionState s)) (Z.to_nat (i + 1)) = Some x).
    { unfold queueAt. destruct (i + 1 <? 0)%Z eqn:E; [apply Z.ltb_lt in E; lia|].
      destruct (nth_error (queue (suggestionState s)) (Z.to_nat (i + 1))) as [x|] eqn:En;
        [now exists x|].
      apply nth_error_None in En. lia. }
    destruct Hq as (x & Hx & Hn). rewrite Hx in H.
    assert (Hgate : canPlaySong (Some x) (previouslyPlayed s) = false).
    { apply (Hp (Z.to_nat (i + 1)) x); [fold i; lia | exact Hn]. }
    change (previouslyPlayed (set_index (i + 1) s)) with (previouslyPlayed s) in H.
    rewrite Hgate in H. simpl in H.
    apply IH in H.
    + exact H.
    + exact Hex.
    + apply (knownIds_ext s); [reflexivity | reflexivity | apply incl_refl | exact Hk].
    + split; simpl; [lia | exact Htr].
    + intros j y Hj Hy. simpl in Hj, Hy. apply (Hp j y); [fold i; lia | exact Hy].
  - (* new suggestions are asked for, or the fallback runs at once *)
    assert (Hdirect : forall s0, knownIds s0 -> idle s0 -> tick s <= tick s0 ->
                                 trace s0 = trace s ->
                      let s1 := fallbackFreshSongsWithExclusion w s0 in
                      trace s1 = trace s /\ previouslyPlayed s1 = []
                      /\ queue (suggestionState s1) = []
                      /\ index (suggestionState s1) = (-1)%Z).
    { intros s0 Hk0 Hi0 Hle Et0.
      destruct (fallback_exhaustedFrom w (tick s) s0 Hex Hle Hk0) as (Et & Eh & _ & _ & Hidle & _).
      destruct (Hidle Hi0) as [Hq1 Hi1]. repeat split; congruence. }
    assert (Hidle : truthy (lastEntry (queue (suggestionState s))) = false -> idle s).
    { intros Hf. pose proof (lastEntry_truthy _ Htr Hf) as E. split; [exact E|].
      rewrite E in Hhi. simpl in Hhi. lia. }
    destruct (jsOr _ _) as [b|] eqn:Hb.
    + destruct b as [|c b'].
      * injection H as <-.
        apply Hdirect; [exact Hk | | lia | reflexivity].
        apply Hidle.
        assert (Hf : truthy (jsOr (jsOr (jsOr (lastEntry (queue (suggestionState s)))
                                               (lastPlayedSongId s))
                                         (lastEntry (previouslyPlayed s)))
                                  (baseSongId (suggestionState s))) = false)
          by (rewrite Hb; reflexivity).
        apply jsOr_falsy in Hf. destruct Hf as [Hf _].
        apply jsOr_falsy in Hf. destruct Hf as [Hf _].
        apply jsOr_falsy in Hf. tauto.
      * destruct (prefetch_exhaustedFrom w (tick s) (String c b') s Hex (Nat.le_refl _) Hk)
          as (Et & Eh & El & Ec & [Hq' Hi'] & Hle).
        rewrite Hq' in H. simpl in H. injection H as <-.
        apply Hdirect; [| now split | exact Hle | exact Et].
        apply (knownIds_ext s); try assumption. rewrite Eh. apply incl_nil_l.
    + injection H as <-.
      apply Hdirect; [exact Hk | | lia | reflexivity].
      apply Hidle.
      assert (Hf : truthy (jsOr (jsOr (jsOr (lastEntry (queue (suggestionState s)))
                                             (lastPlayedSongId s))
                                       (lastEntry (previouslyPlayed s)))
                                (baseSongId (suggestionState s))) = false)
        by (rewrite Hb; reflexivity).
      apply jsOr_falsy in Hf. destruct Hf as [Hf _].
      apply jsOr_falsy in Hf. destruct Hf as [Hf _].
      apply jsOr_falsy in Hf. tauto.
Qed.

(** C3.  Exhaustion.  Take any state of a session, with whatever history
    and queue the session has built up, at a moment from which on every
    suggestion request and every catalog search is answered with the empty
    list, and let the queue give nothing: every entry behind the cursor is
    refused by the repeat gate (so is it when the queue is empty or used
    up).  Then a decision terminates, within the fuel it is given; it
    calls [playSong] for no track; and it leaves the history and the queue
    empty and the cursor at -1.  (The cascade never looks at the embedding
    index, so its readiness plays no role.) *)
Theorem exhaustion_terminates_and_clears :
  forall (w : World) (s : State),
    reachable w s ->
    exhaustedFrom w (tick s) ->
    pendingRefused s ->
    exists s',
      decideNext w s = Some s'
      /\ trace s' = trace s
      /\ previouslyPlayed s' = []
      /\ queue (suggestionState s') = []
      /\ index (suggestionState s') = (-1)%Z.
Proof.
  intros w s Hr Hex Hp.
  destruct (decideNext_total w s) as [s' Hs']. exists s'. split; [exact Hs'|].
  apply (playNext_exhaustedFrom w (decideFuel s) s s' Hex).
  - now apply (knownIds_reachable w).
  - now apply (cursorInRange_reachable w).
  - exact Hp.
  - exact Hs'.
Qed.

(** The boundary of C3: an entry behind the cursor that passes the repeat
    gate is the decision's candidate, by the queue replay, also in an
    exhausted catalog. *)
Lemma pending_entry_is_played (w : World) (s : State) (x : string) :
  negb (length (queue (suggestionState s)) =? 0)
  && (index (suggestionState s) <? Z.of_nat (length (queue (suggestionState s))) - 1)%Z = true ->
  queueAt (queue (suggestionState s)) (index (suggestionState s) + 1) = Some x ->
  canPlaySong (Some x) (previouslyPlayed s) = true ->
  exists s',
    decideNext w s = Some s'
    /\ playedIds (trace s') = x :: playedIds (trace s).
Proof.
  intros Hc Hx Hg. unfold decideNext.
  assert (Hfuel : exists f, decideFuel s = S f).
  { unfold decideFuel. exists (Z.to_nat (Z.of_nat (length (queue (suggestionState s)))
                                         - index (suggestionState s)) + 2). lia. }
  destruct Hfuel as [f ->]. cbn [playNextFromSuggestions]. cbv zeta.
  rewrite Hc, Hx.
  change (previouslyPlayed (set_index (index (suggestionState s) + 1) s))
    with (previouslyPlayed s).
  rewrite Hg. simpl negb. cbv iota.
  eexists. split; [reflexivity|].
  rewrite playSong_not_explicit by (now left).
  simpl. now rewrite playSongCore_playedIds.
Qed.

(* ------------------------------------------------------------------ *)
(** ** The properties at concrete sessions *)

(** C1, after the first play of a session. *)
Lemma self_exclusion_witness :
  exists s',
    decideNext diversityWorld afterFirstPlay = Some s'
    /\ exists new : list string,
        playedIds (trace s') = new ++ playedIds (trace afterFirstPlay)
        /\ ~ In "te-0" new.
Proof.
  apply (self_exclusion_of_last_played diversityWorld afterFirstPlay "te-0").
  - exact (reach_step diversityWorld (boot diversityWorld) (Select "te-0") afterFirstPlay
                      (reach_boot diversityWorld) eq_refl).
  - vm_compute. reflexivity.
  - intros z lang H. vm_compute in H.
    destruct H as [H|[H|[]]]; [injection H as <- _; reflexivity | discriminate].
Defined.

(** C3, in a session that built up a history and a queue before the
    catalog dried up: the entry behind the cursor is refused, new
    suggestions are asked for, the fallback runs twice. *)
Lemma exhaustion_witness :
  previouslyPlayed afterTwoNexts = ["A"; "X"]
  /\ queue (suggestionState afterTwoNexts) = ["X"; "B"; "X"]
  /\ index (suggestionState afterTwoNexts) = 1%Z
  /\ exists s',
      decideNext dryingWorld afterTwoNexts = Some s'
      /\ trace s' = trace afterTwoNexts
      /\ previouslyPlayed s' = []
      /\ queue (suggestionState s') = []
      /\ index (suggestionState s') = (-1)%Z.
Proof.
  assert (Eq : queue (suggestionState afterTwoNexts) = ["X"; "B"; "X"])
    by (vm_compute; reflexivity).
  assert (Ei : index (suggestionState afterTwoNexts) = 1%Z) by (vm_compute; reflexivity).
  assert (Et : tick afterTwoNexts = 4) by (vm_compute; reflexivity).
  split; [vm_compute; reflexivity|]. split; [exact Eq|]. split; [exact Ei|].
  apply (exhaustion_terminates_and_clears dryingWorld afterTwoNexts).
  - apply (reach_step dryingWorld afterOneNext Next afterTwoNexts).
    + apply (reach_step dryingWorld afterOnePick Next afterOneNext).
      * apply (reach_step dryingWorld (boot dryingWorld) (Select "A") afterOnePick).
        -- apply reach_boot.
        -- vm_compute. reflexivity.
      * vm_compute. reflexivity.
    + vm_compute. reflexivity.
  - rewrite Et. split.
    + intros t id Ht. simpl. destruct (t <? 2) eqn:E; [|reflexivity].
      apply Nat.ltb_lt in E. lia.
    + intros t q lim Ht. reflexivity.
  - intros i x Hi Hn. rewrite Ei in Hi. rewrite Eq in Hn.
    destruct i as [|[|[|i]]]; simpl in Hn; try (exfalso; clear - Hi; lia).
    + injection Hn as <-. vm_compute. reflexivity.
    + destruct i; discriminate Hn.
Defined.

(** C4, where the two searches of the cascade find nothing new and the
    diversity sweep would: after three Telugu plays the predicate holds,
    the sweep finds the Malayalam song, and the fallback plays nothing. *)
Lemma fallback_tiers_witness :
  teluguPlayCount teluguThrice = 3
  /\ shouldPlayDiverse (Some (song_language teluguSong)) teluguThrice = true
  /\ fst (fetchDiverseSong sweepOnlyWorld (getExclusionSet teluguThrice) teluguThrice)
     = Ok (Some malayalamSong)
  /\ playedIds (trace (fallbackFreshSongsWithExclusion sweepOnlyWorld teluguThrice))
     = playedIds (trace teluguThrice)
  /\ previouslyPlayed (fallbackFreshSongsWithExclusion sweepOnlyWorld teluguThrice) = []
  /\ queue (suggestionState (fallbackFreshSongsWithExclusion sweepOnlyWorld teluguThrice)) = []
  /\ index (suggestionState (fallbackFreshSongsWithExclusion sweepOnlyWorld teluguThrice))
     = (-1)%Z.
Proof.
  split; [vm_compute; reflexivity|].
  split; [vm_compute; reflexivity|].
  split; [vm_compute; reflexivity|].
  destruct fallback_ignores_language_counters as (_ & _ & _ & _ & Htiers).
  assert (Hb : fallbackBaseId teluguThrice = Some "te-0") by (vm_compute; reflexivity).
  assert (Hc : cache_get "te-0" (songCache teluguThrice) = Some teluguSong)
    by (vm_compute; reflexivity).
  assert (Hs : searchSongs sweepOnlyWorld (tick teluguThrice)
                 (if truthyStr (song_language teluguSong) && truthyStr (song_year teluguSong)
                  then song_language teluguSong ++ " " ++ song_year teluguSong
                  else song_language teluguSong) 40 = Ok [Some teluguSong])
    by (vm_compute; reflexivity).
  destruct (Htiers sweepOnlyWorld teluguThrice "te-0" teluguSong [Some teluguSong]
                   Hb eq_refl Hc Hs) as [_ H2].
  assert (Hf : freshSongs (getExclusionSet teluguThrice) [Some teluguSong] = [])
    by (vm_compute; reflexivity).
  destruct (H2 Hf [] eq_refl) as [_ H3].
  exact (H3 eq_refl).
Defined.

(** C7, on four rows with one neighbour asked for: "b" is excluded, "c"
    has the highest computed score, "d" is left out. *)
Lemma nearestNeighbors_witness :
  getNearestNeighbors demoEngine demoRecommender "zzz" 1 ["b"] = Ok []
  /\ getNearestNeighbors demoEngine demoRecommender "a" 1 ["b"]
     = Ok [mkNeighbor 2 (Some "c") (Finite 1)]
  /\ (forall res,
         getNearestNeighbors demoEngine demoRecommender "a" 1 ["b"] = Ok res ->
         (forall n, In n res -> nb_id n <> Some "a" /\ nb_id n <> Some "b")
         /\ length res <= 1
         /\ StronglySorted ranksBefore res
         /\ (In demoCandidate res
             \/ (length res = 1 /\ forall n, In n res -> ranksBefore n demoCandidate))).
Proof.
  destruct (nearestNeighbors_postcondition demoEngine demoRecommender "zzz" 1 ["b"])
    as (Hempty & _).
  split; [apply Hempty; right; reflexivity|].
  split; [vm_compute; reflexivity|].
  destruct (nearestNeighbors_postcondition demoEngine demoRecommender "a" 1 ["b"])
    as (_ & Hpost & Hrank & _).
  assert (Hperm : sortPermutes demoEngine) by (intros l; apply Permutation_refl).
  assert (Hnum : scoresAreNumbers demoEngine demoRecommender "a").
  { intros idx query x _ _ Hx. unfold simsOf in Hx. simpl in Hx.
    destruct Hx as [<-|[<-|[<-|[<-|[]]]]]; reflexivity. }
  intros res Hres.
  destruct (Hpost Hperm res Hres) as (Hin & Hlen).
  destruct (Hrank Hnum res Hres) as (Hsorted & Htop).
  split.
  - intros n Hn. destruct (Hin n Hn) as (Hq & Hex & _). split; [exact Hq|].
    intros E. specialize (Hex "b" E). discriminate Hex.
  - split; [exact Hlen|]. split; [exact Hsorted|].
    apply (Htop 0 [Finite 1; Finite 0] demoCandidate); try reflexivity.
    + simpl. lia.
    + unfold scanned. simpl. repeat split; try reflexivity; try lia.
      * discriminate.
      * intros x [= <-]. reflexivity.
Defined.

(** Two rows whose computed scores are equal come in catalog order,
    whatever their exact products are. *)
Lemma equal_scores_keep_catalog_order :
  getNearestNeighbors tieEngine tieRecommender "q" 2 []
  = Ok [mkNeighbor 1 (Some "b") (Finite (15916265 # 16777216));
        mkNeighbor 2 (Some "c") (Finite (15916265 # 16777216))].
Proof. vm_compute. reflexivity. Qed.

(** C8, with a payload that has no embeddings. *)
Lemma embedding_failure_witness :
  ready (recommender afterSilentPlay) = false
  /\ embeddingLoads (trace afterSilentPlay) <= 1
  /\ forall (e : Engine) songId topK excludeIds,
      getNearestNeighbors e (recommender afterSilentPlay) songId topK excludeIds = Ok [].
Proof.
  apply (embedding_failure_is_permanent silentWorld).
  - right. right. left. exists (mkEmbeddingsJson (Some ["a"; "b"]) None).
    split; [reflexivity | right; reflexivity].
  - exact (reach_step silentWorld (boot silentWorld) (Select "a") afterSilentPlay
                      (reach_boot silentWorld) eq_refl).
Defined.

(** C9, at the first plays of a session: the Telugu song is fetched and
    the Telugu counter becomes 1; played again, now from the cache, it
    becomes 2; a Malayalam song then sets it to 0. *)
Lemma language_counters_witness :
  (teluguPlayCount (fst (playSongCore diversityWorld "te-0" explicitPlay
                                      (boot diversityWorld))) = 1
   /\ hindiPlayCount (fst (playSongCore diversityWorld "te-0" explicitPlay
                                        (boot diversityWorld))) = 0
   /\ marathiPlayCount (fst (playSongCore diversityWorld "te-0" explicitPlay
                                          (boot diversityWorld))) = 0)
  /\ teluguPlayCount afterFirstPlay = 1
  /\ teluguPlayCount (fst (playSongCore diversityWorld "te-0" autoplayPlay afterFirstPlay)) = 2
  /\ teluguPlayCount (fst (playSongCore diversityWorld "ml-1" autoplayPlay afterFirstPlay)) = 0.
Proof.
  destruct language_counters_follow_streak as (Hup & _ & _).
  split; [|split; [|split]].
  - destruct (Hup diversityWorld "te-0" explicitPlay (boot diversityWorld) teluguSong
                  (or_intror (conj eq_refl eq_refl))) as (Hh & Ht & Hm & _).
    split; [exact Ht|]. split; [exact Hh | exact Hm].
  - vm_compute. reflexivity.
  - assert (Hc : cache_get "te-0" (songCache afterFirstPlay) = Some teluguSong)
      by (vm_compute; reflexivity).
    destruct (Hup diversityWorld "te-0" autoplayPlay afterFirstPlay teluguSong
                  (or_introl Hc)) as (_ & Ht & _).
    rewrite Ht. vm_compute. reflexivity.
  - assert (Hc : cache_get "ml-1" (songCache afterFirstPlay) = None
                 /\ fetchSong diversityWorld (tick afterFirstPlay) "ml-1"
                    = Ok (Some malayalamSong))
      by (split; vm_compute; reflexivity).
    destruct (Hup diversityWorld "ml-1" autoplayPlay afterFirstPlay malayalamSong
                  (or_intror Hc)) as (_ & Ht & _).
    rewrite Ht. reflexivity.
Defined.

(** C10, with the setting written to [false] after one play. *)
Lemma autoplay_off_witness :
  onEnded diversityWorld (set_autoplay (Some false) afterFirstPlay)
  = Some (set_autoplay (Some false) afterFirstPlay)
  /\ step diversityWorld Ended (set_autoplay (Some false) afterFirstPlay)
     = Some (set_autoplay (Some false) afterFirstPlay).
Proof.
  destruct autoplay_off_frame as [Hoff Hstep]. split.
  - apply Hoff. reflexivity.
  - apply (Hstep diversityWorld afterFirstPlay). reflexivity.
Defined.

(** Outside the scenario of self-exclusion: "A" was played first and its
    suggestion list named "X" twice.  The first entry is played; the gate of
    the queue replay looks at the history only, "X" is not yet in it, and
    the second entry is played next. *)
Lemma replay_of_duplicate_suggestion :
  exists s s',
    runEvents duplicateWorld [Select "A"; Next] (boot duplicateWorld) = Some s
    /\ lastPlayedSongId s = Some "X"
    /\ previouslyPlayed s = ["A"]
    /\ decideNext duplicateWorld s = Some s'
    /\ playedIds (trace s') = "X" :: playedIds (trace s).
Proof.
  eexists. eexists.
  split; [vm_compute; reflexivity|].
  split; [vm_compute; reflexivity|].
  split; [vm_compute; reflexivity|].
  split; vm_compute; reflexivity.
Qed.

(* ------------------------------------------------------------------ *)
(** ** More invariants of a session *)



Lemma prefetch_lastPlayed_cases (w : World) (b : string) (s : State) :
  queue (suggestionState (prefetchSuggestionsFor w b s)) = []
  \/ (lastPlayedSongId (prefetchSuggestionsFor w b s) = lastPlayedSongId s
      /\ previouslyPlayed (prefetchSuggestionsFor w b s) = previouslyPlayed s
      /\ trace (prefetchSuggestionsFor w b s) = trace s
      /\ forall x, In x (queue (suggestionState (prefetchSuggestionsFor w b s))) ->
                   truthyStr x = true
                   /\ ~ In x (getExclusionSet
                                (set_suggestionState (mkSuggestionState (Some b) [] (-1)) s))).
Proof.
  unfold prefetchSuggestionsFor.
  assert (Hf : forall s0, queue (suggestionState s0) = [] ->
                          queue (suggestionState (fallbackFreshSongsWithExclusion w s0)) = []).
  { intros s0 H0. destruct (fallback_suggestionState w s0) as [-> | ->];
      [exact H0 | reflexivity]. }
  repeat (simpl; break_match); simpl;
    try (left; apply Hf; reflexivity).
  right. repeat split; try reflexivity.
  - apply freshIds_In in H. tauto.
  - apply freshIds_In in H. destruct H as [_ H]. exact H.
Qed.

(** X2. Every id that [prefetchSuggestionsFor] puts into the queue is a
    non-empty id, is neither the last played id nor an entry of the
    history, and passes the repeat gate: the head of a refilled queue is
    never skipped. *)
Theorem refilled_queue_passes_the_gate (w : World) (b : string) (s : State) (x : string) :
  In x (queue (suggestionState (prefetchSuggestionsFor w b s))) ->
  truthyStr x = true
  /\ lastPlayedSongId (prefetchSuggestionsFor w b s) <> Some x
  /\ ~ In x (previouslyPlayed (prefetchSuggestionsFor w b s))
  /\ canPlaySong (Some x) (previouslyPlayed (prefetchSuggestionsFor w b s)) = true.
Proof.
  intros Hin.
  destruct (prefetch_lastPlayed_cases w b s) as [E | (El & Eh & _ & Hq)].
  - rewrite E in Hin. destruct Hin.
  - destruct (Hq x Hin) as [Ht Hn].
    assert (Hh : ~ In x (previouslyPlayed (prefetchSuggestionsFor w b s))).
    { rewrite Eh. intros Hx. apply Hn. unfold getExclusionSet. simpl.
      apply in_or_app. right. exact Hx. }
    repeat split; [exact Ht | | exact Hh | now apply canPlaySong_fresh].
    rewrite El. intros E. apply Hn. unfold getExclusionSet. simpl.
    rewrite E, Ht. now left.
Qed.

Lemma refilled_queue_witness :
  truthyStr "X" = true
  /\ lastPlayedSongId (prefetchSuggestionsFor duplicateWorld "A" (boot duplicateWorld))
     <> Some "X"
  /\ ~ In "X" (previouslyPlayed (prefetchSuggestionsFor duplicateWorld "A" (boot duplicateWorld)))
  /\ canPlaySong (Some "X")
       (previouslyPlayed (prefetchSuggestionsFor duplicateWorld "A" (boot duplicateWorld))) = true.
Proof.
  apply (refilled_queue_passes_the_gate duplicateWorld "A" (boot duplicateWorld) "X").
  vm_compute. left. reflexivity.
Defined.



(** X4. In every state of a session each entry of the history is a
    non-empty id whose song object is in the cache, and so is the last
    played id when it is non-empty; hence the base id of the fallback, when
    there is one, is answered from the cache and the fallback never
    requests its metadata. *)
Theorem session_ids_are_cached (w : World) (s : State) :
  reachable w s ->
  (forall x, In x (previouslyPlayed s) ->
             truthyStr x = true /\ cache_get x (songCache s) <> None)
  /\ (forall x, lastPlayedSongId s = Some x -> truthyStr x = true ->
                cache_get x (songCache s) <> None)
  /\ (forall b, fallbackBaseId s = Some b -> truthyStr b = true ->
                cache_get b (songCache s) <> None).
Proof.
  intros Hr. destruct (knownIds_reachable w s Hr) as [Hl Hh].
  repeat split.
  - now apply Hh.
  - now apply Hh.
  - exact Hl.
  - intros b Hb Ht. unfold fallbackBaseId in Hb.
    destruct (jsOr_truthy _ _ _ Hb Ht) as [[E _] | [E _]].
    + now apply Hl.
    + apply lastEntry_In in E. now apply Hh.
Qed.

Lemma session_ids_witness :
  (forall x, In x (previouslyPlayed afterFirstPlay) ->
             truthyStr x = true /\ cache_get x (songCache afterFirstPlay) <> None)
  /\ (forall x, lastPlayedSongId afterFirstPlay = Some x -> truthyStr x = true ->
                cache_get x (songCache afterFirstPlay) <> None)
  /\ (forall b, fallbackBaseId afterFirstPlay = Some b -> truthyStr b = true ->
                cache_get b (songCache afterFirstPlay) <> None).
Proof.
  apply (session_ids_are_cached diversityWorld afterFirstPlay).
  apply (reach_step diversityWorld (boot diversityWorld) (Select "te-0")).
  - apply reach_boot.
  - reflexivity.
Defined.



(** X6. On a history within its bound, [clampHistory] right after
    [addToHistory] changes nothing: the two bounds are the same number and
    [addToHistory] has already cut the array. *)
Theorem clampHistory_after_addToHistory (id : string) (h : list string) :
  length h <= ANTI_REPEAT_CONFIG.maxHistorySize ->
  clampHistory (addToHistory id h) = addToHistory id h.
Proof.
  intros Hl. unfold clampHistory. apply shiftWhileOver_fits.
  exact (addToHistory_length id h Hl).
Qed.

Lemma clampHistory_after_addToHistory_witness :
  clampHistory (addToHistory "b" ["a"]) = addToHistory "b" ["a"].
Proof.
  apply (clampHistory_after_addToHistory "b" ["a"]).
  unfold ANTI_REPEAT_CONFIG.maxHistorySize. simpl. lia.
Defined.

(** X7. While the history holds fewer than [minHistoryBeforeRepeat]
    entries, the repeat gate refuses a non-empty id exactly when the id is
    in the history. *)
Theorem canPlaySong_short_history (id : string) (h : list string) :
  truthyStr id = true ->
  (Z.of_nat (length h) < ANTI_REPEAT_CONFIG.minHistoryBeforeRepeat)%Z ->
  (canPlaySong (Some id) h = false <-> In id h).
Proof.
  intros Ht Hl. rewrite (canPlaySong_first_occurrence id h Ht). split.
  - intros (p & Hp & _). exact (nth_error_In _ _ Hp).
  - intros Hin. destruct (indexOf_spec id h) as [[_ Hn] | (p & _ & Hp & Hfirst)];
      [contradiction|].
    exists p. repeat split; [exact Hp | exact Hfirst | lia].
Qed.

Lemma canPlaySong_short_history_witness :
  canPlaySong (Some "a") ["a"; "b"] = false <-> In "a" ["a"; "b"].
Proof.
  apply (canPlaySong_short_history "a" ["a"; "b"]).
  - reflexivity.
  - vm_compute. reflexivity.
Defined.

(** X8.  No event of the listener resets [lastPlayedSongId]: once a play
    was recorded it is never [null] again, not even after the loop-breaker
    that clears the history and the queue, so the fallback keeps a base
    track. *)
Theorem lastPlayed_is_never_reset (w : World) (e : UserEvent) (s s' : State) :
  step w e s = Some s' ->
  lastPlayedSongId s <> None -> lastPlayedSongId s' <> None.
Proof.
  intros Hstep.
  apply (evolves_invariant w (fun s => lastPlayedSongId s <> None)) with (s := s).
  - intros s1 s2 (_ & _ & _ & El & _) H. now rewrite El.
  - intros id o s1 H.
    destruct (playSongCore_record w id o s1) as [(_ & El & _) | (song & _ & El & _)];
      rewrite El; [exact H | discriminate].
  - exact (evolves_step w e s s' Hstep).
Qed.

Lemma lastPlayed_witness :
  lastPlayedSongId (prevHandler diversityWorld afterFirstPlay) <> None.
Proof.
  apply (lastPlayed_is_never_reset diversityWorld Prev afterFirstPlay).
  - reflexivity.
  - vm_compute. discriminate.
Defined.

Lemma startsAtMost_none (n : nat) (P : string -> Prop) (s s' : State) :
  trace s' = trace s -> startsAtMost n P s s'.
Proof.
  intros E. exists []. rewrite E. repeat split; [simpl; lia | intros x []].
Qed.

Lemma startsAtMost_playSongCore (w : World) (n : nat) (P : string -> Prop)
      (id : string) (o : PlayOptions) (s0 s : State) :
  trace s = trace s0 -> P id ->
  startsAtMost (S n) P s0 (fst (playSongCore w id o s)).
Proof.
  intros E Hp. exists [id]. rewrite playSongCore_playedIds, E.
  repeat split; [simpl; lia|]. intros x [<- | []]. exact Hp.
Qed.




Lemma fallback_starts (w : World) (s : State) :
  startsAtMost 1 (fun x => truthyStr x = true /\ ~ In x (getExclusionSet s))
               s (fallbackFreshSongsWithExclusion w s).
Proof.
  unfold fallbackFreshSongsWithExclusion, popularTier, fetchPopularRandomSong,
    pickRandom, clearHistoryAndQueue.
  repeat (simpl; break_match); simpl;
    first [ apply startsAtMost_none; reflexivity
          | apply startsAtMost_playSongCore; [reflexivity|];
            match goal with
            | H : Some _ = Some _ |- _ => injection H as <-
            | _ => idtac
            end;
            match goal with
            | H : nth_error (freshSongs _ _) _ = Some _ |- _ =>
                apply nth_error_In, freshSongs_In in H; exact H
            end ].
Qed.

(** X9. One run of the fallback calls [playSong] at most once, and only
    with a non-empty id outside the exclusion set taken at its start: not
    the last played id, not a queued id, not an entry of the history. *)
Theorem fallback_plays_at_most_one_fresh_track (w : World) (s : State) :
  exists new : list string,
    playedIds (trace (fallbackFreshSongsWithExclusion w s)) = new ++ playedIds (trace s)
    /\ length new <= 1
    /\ (forall x, In x new ->
                  truthyStr x = true
                  /\ lastPlayedSongId s <> Some x
                  /\ ~ In x (queue (suggestionState s))
                  /\ ~ In x (previouslyPlayed s)).
Proof.
  destruct (fallback_starts w s) as (new & E & L & Hp).
  exists new. repeat split; try assumption; destruct (Hp x H) as [Ht Hn].
  - exact Ht.
  - intros El. apply Hn. unfold getExclusionSet. rewrite El, Ht. now left.
  - intros Hq. apply Hn. unfold getExclusionSet.
    apply in_or_app. right. apply in_or_app. now left.
  - intros Hh. apply Hn. unfold getExclusionSet.
    apply in_or_app. right. apply in_or_app. now right.
Qed.







Lemma playSongCore_found_or_failed (w : World) (id : string) (o : PlayOptions) (s : State) :
  (lastPlayedSongId (fst (playSongCore w id o s)) = Some id
   /\ cache_get id (songCache (fst (playSongCore w id o s))) <> None)
  \/ (cache_get id (songCache s) = None
      /\ (forall song, fetchSong w (tick s) id <> Ok (Some song))
      /\ lastPlayedSongId (fst (playSongCore w id o s)) = lastPlayedSongId s
      /\ hindiPlayCount (fst (playSongCore w id o s)) = hindiPlayCount s
      /\ teluguPlayCount (fst (playSongCore w id o s)) = teluguPlayCount s
      /\ marathiPlayCount (fst (playSongCore w id o s)) = marathiPlayCount s
      /\ songCache (fst (playSongCore w id o s)) = songCache s).
Proof.
  unfold playSongCore, lookupSong. cbv zeta.
  match goal with
  | |- context [cache_get id (songCache ?x)] => set (s1 := x)
  end.
  assert (H1 : songCache s1 = songCache s /\ tick s1 = tick s
               /\ lastPlayedSongId s1 = lastPlayedSongId s
               /\ hindiPlayCount s1 = hindiPlayCount s
               /\ teluguPlayCount s1 = teluguPlayCount s
               /\ marathiPlayCount s1 = marathiPlayCount s).
  { unfold s1. simpl. destruct (lastPlayedSongId s) eqn:E0;
      [destruct (negb (fromHistory o) && _ && _)|];
      simpl; rewrite ?E0; repeat split; reflexivity. }
  clearbody s1. destruct H1 as (Ec & Et & El & Eh & Ete & Em).
  rewrite Ec, Et.
  destruct (cache_get id (songCache s)) as [song|] eqn:Eg.
  - left. destruct (negb (fromAutoplay o) && negb (fromHistory o)); simpl;
      (split; [reflexivity | congruence]).
  - destruct (fetchSong w (tick s) id) as [[song|]|] eqn:Ef.
    + left. destruct (negb (fromAutoplay o) && negb (fromHistory o)); simpl;
        rewrite String.eqb_refl; (split; [reflexivity | discriminate]).
    + right. simpl. repeat split; try assumption. intros song. discriminate.
    + right. simpl. repeat split; try assumption. intros song. discriminate.
Qed.

(** X11. A play that is not an explicit selection (a track of the queue,
    of the fallback or of the history) leaves the suggestion state and the
    recommender alone, and a play from the history leaves the history
    alone.  Either the song was found, and then the id is the last played
    id and its song is in the cache; or the song is not in the cache and
    the request for it gave nothing, and then the last played id, the three
    counters and the cache are as before (the history may already hold the
    id that was last played). *)
Theorem playSong_not_explicit_outcome (w : World) (id : string) (o : PlayOptions) (s : State) :
  fromAutoplay o = true \/ fromHistory o = true ->
  suggestionState (playSong w id o s) = suggestionState s
  /\ recommender (playSong w id o s) = recommender s
  /\ (fromHistory o = true -> previouslyPlayed (playSong w id o s) = previouslyPlayed s)
  /\ ((lastPlayedSongId (playSong w id o s) = Some id
       /\ cache_get id (songCache (playSong w id o s)) <> None)
      \/ (cache_get id (songCache s) = None
          /\ (forall song, fetchSong w (tick s) id <> Ok (Some song))
          /\ lastPlayedSongId (playSong w id o s) = lastPlayedSongId s
          /\ hindiPlayCount (playSong w id o s) = hindiPlayCount s
          /\ teluguPlayCount (playSong w id o s) = teluguPlayCount s
          /\ marathiPlayCount (playSong w id o s) = marathiPlayCount s
          /\ songCache (playSong w id o s) = songCache s)).
Proof.
  intros Ho. rewrite playSong_not_explicit by exact Ho.
  split; [now apply playSongCore_suggestionState|].
  split; [apply playSongCore_recommender|].
  split.
  - intros Hh. rewrite playSongCore_history. unfold historyOnPlay. rewrite Hh. simpl.
    now destruct (lastPlayedSongId s).
  - destruct (playSongCore_found_or_failed w id o s) as [H | H]; [now left | now right].
Qed.

Lemma playSong_not_explicit_witness :
  suggestionState (playSong silentWorld "b" autoplayPlay afterSilentPlay)
  = suggestionState afterSilentPlay
  /\ recommender (playSong silentWorld "b" autoplayPlay afterSilentPlay)
     = recommender afterSilentPlay
  /\ (fromHistory autoplayPlay = true ->
      previouslyPlayed (playSong silentWorld "b" autoplayPlay afterSilentPlay)
      = previouslyPlayed afterSilentPlay)
  /\ ((lastPlayedSongId (playSong silentWorld "b" autoplayPlay afterSilentPlay) = Some "b"
       /\ cache_get "b" (songCache (playSong silentWorld "b" autoplayPlay afterSilentPlay))
          <> None)
      \/ (cache_get "b" (songCache afterSilentPlay) = None
          /\ (forall song, fetchSong silentWorld (tick afterSilentPlay) "b" <> Ok (Some song))
          /\ lastPlayedSongId (playSong silentWorld "b" autoplayPlay afterSilentPlay)
             = lastPlayedSongId afterSilentPlay
          /\ hindiPlayCount (playSong silentWorld "b" autoplayPlay afterSilentPlay)
             = hindiPlayCount afterSilentPlay
          /\ teluguPlayCount (playSong silentWorld "b" autoplayPlay afterSilentPlay)
             = teluguPlayCount afterSilentPlay
          /\ marathiPlayCount (playSong silentWorld "b" autoplayPlay afterSilentPlay)
             = marathiPlayCount afterSilentPlay
          /\ songCache (playSong silentWorld "b" autoplayPlay afterSilentPlay)
             = songCache afterSilentPlay)).
Proof.
  apply (playSong_not_explicit_outcome silentWorld "b" autoplayPlay afterSilentPlay).
  left. reflexivity.
Defined.



(** X13. In a session [shouldPlayDiverse(lang)] answers true only for
    Hindi, Telugu or Marathi (in any letter case), and only when the most
    recent recorded plays were all of that language: at least four in a
    row for Hindi, at least three for Telugu and Marathi. *)
Theorem shouldPlayDiverse_means_a_streak (w : World) (s : State) (lang : string) :
  reachable w s ->
  shouldPlayDiverse (Some lang) s = true ->
  (toLowerCase lang = "hindi" /\ 4 <= streak "hindi" (playedLanguages (trace s)))
  \/ (toLowerCase lang = "telugu" /\ 3 <= streak "telugu" (playedLanguages (trace s)))
  \/ (toLowerCase lang = "marathi" /\ 3 <= streak "marathi" (playedLanguages (trace s))).
Proof.
  intros Hr. destruct (countersMatchStreaks_reachable w s Hr) as (Eh & Et & Em).
  unfold shouldPlayDiverse.
  assert (E : toLowerCase (match jsOr (Some lang) (Some "") with
                           | Some l => l
                           | None => ""
                           end) = toLowerCase lang).
  { unfold jsOr, truthy, truthyStr. destruct lang; reflexivity. }
  rewrite E. clear E. cbv zeta.
  destruct (String.eqb (toLowerCase lang) "hindi") eqn:E1.
  { apply String.eqb_eq in E1. intros H. apply Nat.leb_le in H. left. split; [exact E1 | lia]. }
  destruct (String.eqb (toLowerCase lang) "telugu") eqn:E2.
  { apply String.eqb_eq in E2. intros H. apply Nat.leb_le in H.
    right. left. split; [exact E2 | lia]. }
  destruct (String.eqb (toLowerCase lang) "marathi") eqn:E3.
  { apply String.eqb_eq in E3. intros H. apply Nat.leb_le in H.
    right. right. split; [exact E3 | lia]. }
  discriminate.
Qed.

Lemma shouldPlayDiverse_witness :
  (toLowerCase "Telugu" = "hindi"
   /\ 4 <= streak "hindi" (playedLanguages (trace teluguThrice)))
  \/ (toLowerCase "Telugu" = "telugu"
      /\ 3 <= streak "telugu" (playedLanguages (trace teluguThrice)))
  \/ (toLowerCase "Telugu" = "marathi"
      /\ 3 <= streak "marathi" (playedLanguages (trace teluguThrice))).
Proof.
  apply (shouldPlayDiverse_means_a_streak sweepOnlyWorld teluguThrice "Telugu").
  - apply (reach_step sweepOnlyWorld
             (playSong sweepOnlyWorld "te-0" explicitPlay
                (playSong sweepOnlyWorld "te-0" explicitPlay (boot sweepOnlyWorld)))
             (Select "te-0")).
    + apply (reach_step sweepOnlyWorld
               (playSong sweepOnlyWorld "te-0" explicitPlay (boot sweepOnlyWorld))
               (Select "te-0")).
      * apply (reach_step sweepOnlyWorld (boot sweepOnlyWorld) (Select "te-0")).
        -- apply reach_boot.
        -- vm_compute. reflexivity.
      * vm_compute. reflexivity.
    + vm_compute. reflexivity.
  - vm_compute. reflexivity.
Defined.

Lemma afterRequests_bump (k : nat) (s : State) :
  afterRequests k (bump s) = afterRequests (S k) s.
Proof. unfold afterRequests. now rewrite Nat.iter_succ_r. Qed.

Lemma diverseSweep_spec (w : World) (excludeIds : list string) (pairs : list (string * string)) :
  forall s,
  exists k,
    snd (diverseSweep w excludeIds pairs s) = afterRequests k s
    /\ k <= length pairs + 1
    /\ match fst (diverseSweep w excludeIds pairs s) with
       | Ok (Some c) => truthyStr (song_id c) = true /\ ~ In (song_id c) excludeIds
       | Ok None => k = length pairs
       | Throw => True
       end.
Proof.
  induction pairs as [|[lang year] rest IH]; intros s.
  - exists 0. simpl. repeat split; lia.
  - cbn [diverseSweep]. unfold searchYearLanguage.
    destruct (searchSongs w (tick s) (lang ++ " " ++ year) 50) as [l|].
    + match goal with
      | |- context [filter ?f ?cands] => set (filtered := filter f cands)
      end.
      destruct (negb (length filtered =? 0)) eqn:En.
      * assert (Hne : filtered <> []).
        { intros E. rewrite E in En. discriminate. }
        destruct (pickRandom_Some w filtered (bump s) Hne) as (c & Hn & Hp).
        pose proof (nth_error_In _ _ Hn) as Hin.
        rewrite Hp. exists 2. simpl.
        repeat split; [lia|..].
        -- apply filter_In in Hin. destruct Hin as [_ Hc].
           apply andb_prop in Hc. tauto.
        -- apply filter_In in Hin. destruct Hin as [_ Hc].
           apply andb_prop in Hc. destruct Hc as [_ Hc].
           apply negb_true_iff in Hc. intros Hx. apply setHas_In in Hx. congruence.
      * destruct (IH (bump s)) as (k & Es & Hk & Hr).
        exists (S k). rewrite Es, afterRequests_bump. repeat split; [simpl; lia|].
        destruct (fst (diverseSweep w excludeIds rest (bump s))) as [[c|]|];
          [exact Hr | simpl; lia | exact I].
    + exists 1. simpl. repeat split; lia.
Qed.

(** X14. [fetchDiverseSong] only sends requests: at most 42 searches (two
    languages, the current year and the twenty before it) and one draw.
    A song it returns has a non-empty id outside the given exclusion set,
    and it returns [null] only after all 42 searches. *)
Theorem fetchDiverseSong_result (w : World) (excludeIds : list string) (s : State) :
  exists k,
    snd (fetchDiverseSong w excludeIds s) = afterRequests k s
    /\ k <= 43
    /\ match fst (fetchDiverseSong w excludeIds s) with
       | Ok (Some c) => truthyStr (song_id c) = true /\ ~ In (song_id c) excludeIds
       | Ok None => k = 42
       | Throw => True
       end.
Proof.
  unfold fetchDiverseSong.
  assert (El : length (list_prod prelangs (preyears w)) = 42).
  { rewrite length_prod. unfold preyears. rewrite length_map, length_seq. reflexivity. }
  destruct (diverseSweep_spec w excludeIds (list_prod prelangs (preyears w)) s)
    as (k & Es & Hk & Hr).
  exists k. rewrite El in *. repeat split; [exact Es | lia | exact Hr].
Qed.



(* ------------------------------------------------------------------ *)
(** ** The recommender helpers, the download route and the page script *)

(** X16.  [recommendNextByEmbedding] asks for three times as many
    neighbours as it returns, to no effect: its result is the ids of the
    neighbours that [getNearestNeighbors] returns for [topK] itself, with
    the same engine. *)
Theorem recommendNextByEmbedding_is_top_k (e : Engine) (r : TfjsRecommender)
        (currentSongId : string) (excludeIds : list string) (topK : nat) :
  recommendNextByEmbedding e r currentSongId excludeIds topK
  = match getNearestNeighbors e r currentSongId topK excludeIds with
    | Ok neighbors => Ok (map nb_id neighbors)
    | Throw => Throw
    end.
Proof.
  unfold recommendNextByEmbedding, getNearestNeighbors.
  destruct (negb (ready r)); [reflexivity|].
  destruct (idToIndex_get currentSongId (idToIndex r)) as [idx|]; [|reflexivity].
  destruct (nth_error (embeddings r) idx) as [query|]; [|reflexivity].
  cbv zeta.
  match goal with
  | |- context [sortByScoreDesc e ?c] => generalize (sortByScoreDesc e c)
  end.
  intros sorted.
  assert (E : firstn topK (firstn (topK * 3) sorted) = firstn topK sorted).
  { rewrite firstn_firstn. f_equal. lia. }
  destruct (length (firstn (topK * 3) sorted) =? 0) eqn:El.
  - apply Nat.eqb_eq in El. apply length_zero_iff_nil in El.
    rewrite El in E. rewrite <- E. now destruct topK.
  - now rewrite E.
Qed.

Lemma indexIds_app (l : list string) (x : string) :
  forall (i : nat) (m : list (string * nat)),
    indexIds (l ++ [x]) i m = (x, i + length l) :: indexIds l i m.
Proof.
  induction l as [|y t IH]; intros i m; simpl.
  - now rewrite Nat.add_0_r.
  - rewrite IH. f_equal. f_equal. lia.
Qed.

(** X17.  The index map that [init] builds from the ids of the embeddings
    file gives every id its last position in the list (a later [set]
    replaces an earlier one) and knows no other id; so with ids that are
    all different, the id at position [p] is mapped to [p]. *)
Theorem idToIndex_gives_last_position (l : list string) (k : string) :
  (~ In k l -> idToIndex_get k (indexIds l 0 []) = None)
  /\ (forall p, nth_error l p = Some k ->
                (forall q, p < q -> nth_error l q <> Some k) ->
                idToIndex_get k (indexIds l 0 []) = Some p).
Proof.
  induction l as [|x l IH] using rev_ind.
  - split; [reflexivity|]. intros p Hp. now destruct p.
  - rewrite indexIds_app. simpl. destruct IH as [IH1 IH2]. split.
    + intros Hn. destruct (String.eqb_spec x k) as [->|Hne].
      * elim Hn. apply in_or_app. right. now left.
      * apply IH1. intros Hin. apply Hn. apply in_or_app. now left.
    + intros p Hp Hlast.
      assert (Hlen : p < length (l ++ [x])) by (apply nth_error_Some; congruence).
      rewrite length_app in Hlen. simpl in Hlen.
      destruct (String.eqb_spec x k) as [->|Hne].
      * destruct (Nat.eq_dec p (length l)) as [->|Hp']; [reflexivity|].
        elim (Hlast (length l)); [lia|].
        rewrite nth_error_app2 by lia. now rewrite Nat.sub_diag.
      * assert (Hp' : p < length l).
        { destruct (Nat.eq_dec p (length l)) as [->|Hp']; [|lia].
          rewrite nth_error_app2, Nat.sub_diag in Hp by lia. simpl in Hp. congruence. }
        rewrite nth_error_app1 in Hp by exact Hp'.
        apply IH2; [exact Hp|].
        intros q Hq E. apply (Hlast q Hq).
        rewrite nth_error_app1; [exact E|]. apply nth_error_Some. congruence.
Qed.



Lemma weightedScan_In (Num : Type) (sub : Num -> Num -> Num) (ltb : Num -> Num -> bool)
      (l : list (Strategy Num)) :
  forall (rand : Num) (name : string),
    weightedScan Num sub ltb rand l = Some name -> In name (map strat_name l).
Proof.
  induction l as [|s t IH]; intros rand name H; simpl in *; [discriminate|].
  destruct (ltb rand (strat_weight s)).
  - injection H as <-. now left.
  - right. exact (IH _ _ H).
Qed.

(** X19.  [weightedRandomChoice] returns the name of one of the strategies
    it was given, whatever the random number is and however the doubles
    round; it throws only on the empty list. *)
Theorem weightedRandomChoice_names_a_strategy (Num : Type) (zero : Num)
        (add mul sub : Num -> Num -> Num) (ltb : Num -> Num -> bool)
        (random01 : Num) (strategies : list (Strategy Num)) :
  match weightedRandomChoice Num zero add mul sub ltb random01 strategies with
  | Ok name => In name (map strat_name strategies)
  | Throw => strategies = []
  end.
Proof.
  unfold weightedRandomChoice.
  destruct (weightedScan Num sub ltb _ strategies) as [name|] eqn:E.
  - exact (weightedScan_In Num sub ltb strategies _ name E).
  - destruct strategies as [|s t]; [reflexivity | now left].
Qed.

Lemma isForbidden_In (c : ascii) : isForbidden c = true <-> In c forbiddenInFilename.
Proof.
  unfold isForbidden. rewrite existsb_exists. split.
  - intros (x & Hx & E). apply Ascii.eqb_eq in E. now subst.
  - intros H. exists c. split; [exact H | apply Ascii.eqb_refl].
Qed.

Lemma replaceForbidden_chars (s : string) (c : ascii) :
  In c (list_ascii_of_string (replaceForbidden s)) -> ~ In c forbiddenInFilename.
Proof.
  induction s as [|a t IH]; simpl; [intros []|].
  intros [E|H]; [|now apply IH].
  destruct (isForbidden a) eqn:Ef.
  - subst c. intros Hin. simpl in Hin.
    repeat (destruct Hin as [Hin|Hin]; [discriminate Hin|]). exact Hin.
  - subst c. intros Hin. apply isForbidden_In in Hin. congruence.
Qed.

(** X20.  The file name that the download route puts into the
    [Content-Disposition] header holds none of the characters slash,
    backslash, question mark, percent, star, colon, bar, double quote and
    the angle brackets; the cleaning keeps the length, changes nothing in a
    name without these characters, and cleaning twice is cleaning once. *)
Theorem safeFilename_is_clean :
  (forall artists title year c,
      In c (list_ascii_of_string (safeFilename artists title year)) ->
      ~ In c forbiddenInFilename)
  /\ (forall s, String.length (replaceForbidden s) = String.length s)
  /\ (forall s, (forall c, In c (list_ascii_of_string s) -> ~ In c forbiddenInFilename) ->
                replaceForbidden s = s)
  /\ (forall s, replaceForbidden (replaceForbidden s) = replaceForbidden s).
Proof.
  assert (Hclean : forall s, (forall c, In c (list_ascii_of_string s) ->
                                        ~ In c forbiddenInFilename) ->
                             replaceForbidden s = s).
  { induction s as [|a t IH]; simpl; intros H; [reflexivity|].
    destruct (isForbidden a) eqn:Ef.
    - apply isForbidden_In in Ef. elim (H a); [now left | exact Ef].
    - f_equal. apply IH. intros c Hc. apply H. now right. }
  split; [|split; [|split]].
  - intros artists title year c. unfold safeFilename. apply replaceForbidden_chars.
  - induction s as [|a t IH]; simpl; [reflexivity | now rewrite IH].
  - exact Hclean.
  - intros s. apply Hclean. intros c. apply replaceForbidden_chars.
Qed.

Lemma last_Some_In {A : Type} (l : list A) (x : A) :
  last (map Some l) None = Some x -> In x l.
Proof.
  induction l as [|a t IH]; simpl; [discriminate|].
  destruct t as [|b t']; simpl in *.
  - intros [= ->]. now left.
  - intros H. right. now apply IH.
Qed.

(** X21.  The download route.  It streams only when the metadata request
    answered with a song and the chosen download entry has a URL; the
    chosen entry is the first one of the quality asked for (320kbps when
    none is asked for), or the last entry when no entry has that quality.
    An entry of the quality asked for that has no URL gives status 400,
    whatever the other entries hold.  A reply without a song gives 404, a
    failed request the status of the upstream reply, or 500. *)
Theorem downloadRoute_responses (qualityParam : option string) :
  (forall upstream u f b md,
      downloadRoute qualityParam upstream = Mp3Stream u f b md ->
      exists songData entry,
        upstream = Replied (Some songData)
        /\ In entry (sd_downloadUrl songData)
        /\ u = dl_url entry /\ truthyStr u = true
        /\ (find (fun d => String.eqb (dl_quality d) (requestedQuality qualityParam))
                 (sd_downloadUrl songData) = Some entry
            \/ ((forall d, In d (sd_downloadUrl songData) ->
                           dl_quality d <> requestedQuality qualityParam)
                /\ last (map Some (sd_downloadUrl songData)) None = Some entry)))
  /\ (forall songData entry,
         find (fun d => String.eqb (dl_quality d) (requestedQuality qualityParam))
              (sd_downloadUrl songData) = Some entry ->
         dl_url entry = "" ->
         exists msg, downloadRoute qualityParam (Replied (Some songData)) = JsonError 400 msg)
  /\ downloadRoute qualityParam (Replied None) = JsonError 404 "Song not found"
  /\ (forall status,
         exists n, downloadRoute qualityParam (Failed status) = JsonError n "Download failed"
                   /\ n <> 0
                   /\ (forall k, status = Some k -> k <> 0 -> n = k)
                   /\ (status = None \/ status = Some 0 -> n = 500)).
Proof.
  split; [|split; [|split]].
  - intros upstream u f b md H. unfold downloadRoute in H.
    destruct upstream as [[songData|]|status]; try discriminate.
    cbv zeta in H. unfold pickDownloadUrl in H.
    destruct (find _ (sd_downloadUrl songData)) as [entry|] eqn:Ef.
    + destruct (truthyStr (dl_url entry)) eqn:Et; [|discriminate].
      injection H as <- _ _ _. destruct (find_some _ _ Ef) as [Hin _].
      exists songData, entry.
      split; [reflexivity|]. split; [exact Hin|].
      split; [reflexivity|]. split; [exact Et|]. left. exact Ef.
    + destruct (last (map Some (sd_downloadUrl songData)) None) as [entry|] eqn:El;
        [|discriminate].
      destruct (truthyStr (dl_url entry)) eqn:Et; [|discriminate].
      injection H as <- _ _ _.
      exists songData, entry.
      split; [reflexivity|]. split; [now apply last_Some_In|].
      split; [reflexivity|]. split; [exact Et|].
      right. split; [|exact El]. intros d Hd E.
      apply (find_none _ _ Ef) in Hd. apply String.eqb_neq in Hd. contradiction.
  - intros songData entry Hf Hu. unfold downloadRoute, pickDownloadUrl. cbv zeta.
    rewrite Hf, Hu. simpl. eauto.
  - reflexivity.
  - intros status. unfold downloadRoute, errorStatus.
    destruct status as [k|].
    + destruct (k =? 0) eqn:E.
      * apply Nat.eqb_eq in E. subst k. exists 500.
        split; [reflexivity|]. split; [discriminate|]. split.
        -- intros k Hk Hne. injection Hk as <-. now elim Hne.
        -- reflexivity.
      * apply Nat.eqb_neq in E. exists k.
        split; [reflexivity|]. split; [exact E|]. split.
        -- intros k' Hk _. now injection Hk as <-.
        -- intros [H|H]; [discriminate|]. injection H as ->. now elim E.
    + exists 500.
      split; [reflexivity|]. split; [discriminate|]. split.
      * intros k H. discriminate.
      * reflexivity.
Qed.

Lemma downloadRoute_witness :
  exists songData entry,
    Replied (Some demoSongData) = Replied (Some songData)
    /\ In entry (sd_downloadUrl songData)
    /\ "https://cdn/160.mp4" = dl_url entry /\ truthyStr "https://cdn/160.mp4" = true
    /\ (find (fun d => String.eqb (dl_quality d) (requestedQuality (Some "160kbps")))
             (sd_downloadUrl songData) = Some entry
        \/ ((forall d, In d (sd_downloadUrl songData) ->
                       dl_quality d <> requestedQuality (Some "160kbps"))
            /\ last (map Some (sd_downloadUrl songData)) None = Some entry)).
Proof.
  destruct (downloadRoute_responses (Some "160kbps")) as (H & _).
  apply (H (Replied (Some demoSongData)) "https://cdn/160.mp4"
           "A_B, C - What_ (2020).mp3" "160"
           ["title=What?"; "artist=A/B, C"; "album=Album"; "date=2020";
            "comment=Downloaded via ZYLAE"]).
  vm_compute. reflexivity.
Defined.

Lemma removeFirst_kbps (d : string) :
  (forall c, In c (list_ascii_of_string d) -> c <> "k"%char) ->
  removeFirst "kbps" (d ++ "kbps") = d.
Proof.
  induction d as [|a t IH]; intros H; [reflexivity|].
  assert (Ha : a <> "k"%char) by (apply H; now left).
  cbn [String.append removeFirst dropPrefix].
  destruct (Ascii.eqb "k" a) eqn:E.
  - apply Ascii.eqb_eq in E. now elim Ha.
  - f_equal. apply IH. intros c Hc. apply H. now right.
Qed.

(** X22.  For a quality that is a string without the letter k followed by
    kbps (the qualities that the settings offer are digits followed by
    kbps), the bitrate handed to the transcoder is that string; for kbps
    alone it is 320. *)
Theorem audioBitrate_of_kbps (d : string) :
  (forall c, In c (list_ascii_of_string d) -> c <> "k"%char) ->
  audioBitrate (d ++ "kbps") = (if truthyStr d then d else "320").
Proof.
  intros H. unfold audioBitrate. now rewrite removeFirst_kbps.
Qed.

Lemma audioBitrate_witness : audioBitrate ("160" ++ "kbps") = "160".
Proof.
  apply (audioBitrate_of_kbps "160").
  intros c Hc. simpl in Hc.
  destruct Hc as [<-|[<-|[<-|[]]]]; discriminate.
Defined.

Lemma nth_error_rev {A : Type} (l : list A) (i : nat) :
  i < length l -> nth_error (rev l) i = nth_error l (length l - 1 - i).
Proof.
  intros Hi.
  destruct (nth_error l (length l - 1 - i)) as [x|] eqn:E.
  - rewrite (nth_error_nth' (rev l) x) by (rewrite length_rev; exact Hi).
    rewrite rev_nth by exact Hi.
    replace (length l - S i) with (length l - 1 - i) by lia.
    f_equal. exact (nth_error_nth _ _ x E).
  - apply nth_error_None in E. lia.
Qed.

(** X23.  The recently played list shows the last eight entries of the
    history array it reads, the newest first: fewer when the history is
    shorter, and entry [i] of the list is the entry [i] places before the
    end of the history. *)
Theorem recentlyPlayedIds_newest_first (h : list string) :
  length (recentlyPlayedIds h) = Nat.min 8 (length h)
  /\ (forall i, i < Nat.min 8 (length h) ->
                nth_error (recentlyPlayedIds h) i = nth_error h (length h - 1 - i)).
Proof.
  unfold recentlyPlayedIds.
  assert (Hl : length (skipn (length h - 8) h) = Nat.min 8 (length h)).
  { rewrite length_skipn. lia. }
  split.
  - now rewrite length_rev.
  - intros i Hi. rewrite nth_error_rev by (rewrite Hl; exact Hi).
    rewrite Hl, nth_error_skipn. f_equal. lia.
Qed.

(** X24.  The theme toggle.  Whatever the setting was (missing, dark,
    light or any other string), after one click it is dark or light: light
    when the effective theme was dark, dark otherwise.  From then on the
    root element has exactly one of the two theme classes and two clicks
    bring the setting back. *)
Theorem toggleTheme_flips (theme : option string) :
  (effectiveTheme theme = "dark" -> toggleTheme theme = Some "light")
  /\ (effectiveTheme theme <> "dark" -> toggleTheme theme = Some "dark")
  /\ (applyTheme (toggleTheme theme) = (true, false, "Light")
      \/ applyTheme (toggleTheme theme) = (false, true, "Dark"))
  /\ toggleTheme (toggleTheme (toggleTheme theme)) = toggleTheme theme.
Proof.
  unfold toggleTheme.
  destruct (String.eqb_spec (effectiveTheme theme) "dark") as [E|E].
  - repeat split; try reflexivity; [intros H; contradiction | now left].
  - repeat split; try reflexivity; [intros H; contradiction | now right].
Qed.
